(** * gov-scale-token: token store, worker pool and on-demand session

    A shallow embedding of [src/comprasnet-token/server.py]
    ([RestTokenManager], its workers and its HTTP routes), of
    [src/token-comprasnet.py] ([OnDemandTokenServer]) and of
    [src/comprasnet-token/consumer.py].

    Conventions of the embedding.
    - Python methods become computations in a small state-and-exception
      monad [py W A := W -> outcome A * W]; [try ... except Exception] is
      [try_except].
    - Timestamps are Python floats counting seconds.  They are modelled as
      integers of a fixed unit: the code only compares, adds and subtracts
      them.
    - The Redis server and the browser driver are external.  Redis is
      modelled by its documented command semantics ([Redis]); every client
      call may raise a connection error, decided by a fault schedule that is
      part of the world.  The driver is modelled by oracles that decide the
      outcome of each driver call.
    - [_initialize_browser] of the on-demand server waits for the captcha
      widget in a loop without bound.  The methods of that class live in a
      partial variant of the monad, in which [None] stands for a call that
      never returns.
    - [print] calls have no effect on the state and are left out. *)

From Stdlib Require Import ZArith Lia String DecimalString.
From stdpp Require Import base option list sorting gmap strings.

Local Open Scope string_scope.
Local Open Scope Z_scope.

(** ** Exceptions and the method monad *)

Inductive exn :=
  | Exception (msg : string)
  | ConnectionError (msg : string)
  | HTTPException (status_code : Z) (detail : string).

(** [str(e)] as used by the f-strings of the routes. *)
Definition exn_str (e : exn) : string :=
  match e with
  | Exception msg => msg
  | ConnectionError msg => msg
  | HTTPException _ detail => detail
  end.

Inductive outcome (A : Type) :=
  | Ok (a : A)
  | Raise (e : exn).
Arguments Ok {A} a.
Arguments Raise {A} e.

Definition py (W A : Type) : Type := W -> outcome A * W.

Definition py_ret {W A} (a : A) : py W A := fun w => (Ok a, w).

Definition py_bind {W A B} (f : A -> py W B) (m : py W A) : py W B :=
  fun w =>
    match m w with
    | (Ok a, w') => f a w'
    | (Raise e, w') => (Raise e, w')
    end.

Definition raise {W A} (e : exn) : py W A := fun w => (Raise e, w).

(** [try: body except Exception as e: handler e]. *)
Definition try_except {W A} (body : py W A) (handler : exn -> py W A) : py W A :=
  fun w =>
    match body w with
    | (Ok a, w') => (Ok a, w')
    | (Raise e, w') => handler e w'
    end.

Definition gets {W A} (f : W -> A) : py W A := fun w => (Ok (f w), w).
Definition modify {W} (f : W -> W) : py W unit := fun w => (Ok tt, f w).

#[global] Instance py_mret W : MRet (py W) := fun A => @py_ret W A.
#[global] Instance py_mbind W : MBind (py W) := fun A B => @py_bind W A B.

(** Python's [f"{n}"] for an integer. *)
Definition show_Z (n : Z) : string := NilZero.string_of_int (Z.to_int n).

(** ** Redis: string keys with expiry, and one sorted set *)

Module Redis.

(** The keys written by [SETEX] all start with ["rest_token:"] and the
    sorted set lives at ["rest_token_sorted_set"]; the two never meet
    (lemma [token_key_not_sorted_set_key] below), so the key space is split
    in two components.  A string value is kept with the instant at which it
    expires; the serialised JSON text is represented by the value [V] it
    encodes. *)
Record store (V : Type) := mk_store {
  strings : gmap string (V * Z);
  zset : gmap string Z
}.
Arguments mk_store {V} strings zset.
Arguments strings {V} s.
Arguments zset {V} s.

Definition empty {V} : store V := mk_store ∅ ∅.

Section commands.
Context {V : Type}.
Implicit Types (s : store V) (now : Z).

(** [SETEX key ttl v] at time [now]. *)
Definition setex (key : string) (ttl : Z) (v : V) now s : store V :=
  mk_store (<[key := (v, now + ttl)]> (strings s)) (zset s).

(** [GET key] at time [now]: an expired key reads as absent. *)
Definition get (key : string) now s : option V :=
  match strings s !! key with
  | Some (v, deadline) => if now <? deadline then Some v else None
  | None => None
  end.

(** [DEL key]: the number of keys removed and the new store. *)
Definition del (key : string) now s : Z * store V :=
  ((if get key now s is Some _ then 1 else 0),
   mk_store (delete key (strings s)) (zset s)).

(** [ZADD zkey {member: score}]: adds the member or updates its score. *)
Definition zadd (member : string) (score : Z) s : store V :=
  mk_store (strings s) (<[member := score]> (zset s)).

(** Order of a sorted set: by score, then by member (byte order). *)
Definition zentry_ltb (a b : string * Z) : bool :=
  (a.2 <? b.2) || ((a.2 =? b.2) && String.ltb a.1 b.1).

Definition zpick (e : string * Z) (acc : option (string * Z))
  : option (string * Z) :=
  match acc with
  | None => Some e
  | Some a => Some (if zentry_ltb a e then e else a)
  end.

Definition zmax (z : gmap string Z) : option (string * Z) :=
  foldr zpick None (map_to_list z).

(** [ZPOPMAX zkey]: removes and returns the member with the highest
    score, as a list of zero or one pairs (the shape redis-py returns). *)
Definition zpopmax s : list (string * Z) * store V :=
  match zmax (zset s) with
  | None => ([], s)
  | Some (member, score) =>
      ([(member, score)], mk_store (strings s) (delete member (zset s)))
  end.

(** [ZREMRANGEBYSCORE zkey -inf max]: both bounds of a Redis score range
    are inclusive, so every member with [score <= max] goes. *)
Definition zremrangebyscore_neg_inf (max : Z) s : Z * store V :=
  let kept := filter (fun e : string * Z => max < e.2) (zset s) in
  (Z.of_nat (size (zset s)) - Z.of_nat (size kept),
   mk_store (strings s) kept).

Definition zcard s : Z := Z.of_nat (size (zset s)).
End commands.

End Redis.

(** ** [RestTokenManager]: the token store methods *)

Module RestTokenManager.

(** The dictionary built by [token_worker]. *)
Record token_data := mk_token_data {
  token : string;
  duration : Z;
  worker_id : Z;
  timestamp : Z;
  source : string
}.

Definition DEFAULT_TOKEN_EXPIRY : Z := 120.

(** [self.token_sorted_set_key]. *)
Definition token_sorted_set_key : string := "rest_token_sorted_set".

(** The part of the manager and of its surroundings that the store methods
    read or write: the attribute [token_expiry], the Redis server, the wall
    clock, and the fault schedule of the connection.  The head of [faults]
    decides the next client call: [true] makes it raise; an exhausted
    schedule means no further fault. *)
Record world := mk_world {
  token_expiry : Z;
  redis : Redis.store token_data;
  clock : Z;
  faults : list bool
}.

Definition init (now : Z) (fs : list bool) : world :=
  mk_world DEFAULT_TOKEN_EXPIRY Redis.empty now fs.

(** Time passing between two calls. *)
Definition tick (d : Z) (w : world) : world :=
  mk_world (token_expiry w) (redis w) (clock w + d) (faults w).

(** One call through [self.redis_client].  The text of the connection
    error is the client's; it stands for whatever the client says, and no
    statement below depends on it. *)
Definition redis_call {A}
    (cmd : Z -> Redis.store token_data -> A * Redis.store token_data)
  : py world A :=
  fun w =>
    match faults w with
    | true :: fs =>
        (Raise (ConnectionError "Error connecting to Redis"),
         mk_world (token_expiry w) (redis w) (clock w) fs)
    | fs =>
        let '(a, s) := cmd (clock w) (redis w) in
        (Ok a, mk_world (token_expiry w) s (clock w) (tail fs))
    end.

(** The client methods used by the manager.  The sorted-set commands are
    always called with [self.token_sorted_set_key], which stays implicit. *)
Definition client_setex (key : string) (ttl : Z) (v : token_data) : py world unit :=
  if ttl <=? 0 then
    (* the server rejects a non-positive expire time *)
    _ ← redis_call (fun _ s => (tt, s));
    raise (Exception "invalid expire time in 'setex' command")
  else redis_call (fun now s => (tt, Redis.setex key ttl v now s)).
Definition client_get (key : string) : py world (option token_data) :=
  redis_call (fun now s => (Redis.get key now s, s)).
Definition client_delete (key : string) : py world Z :=
  redis_call (Redis.del key).
Definition client_zadd (member : string) (score : Z) : py world unit :=
  redis_call (fun _ s => (tt, Redis.zadd member score s)).
Definition client_zpopmax : py world (list (string * Z)) :=
  redis_call (fun _ s => Redis.zpopmax s).
Definition client_zremrangebyscore_neg_inf (max : Z) : py world Z :=
  redis_call (fun _ s => Redis.zremrangebyscore_neg_inf max s).
Definition client_zcard : py world Z :=
  redis_call (fun _ s => (Redis.zcard s, s)).

Definition time_time : py world Z := gets clock.

(** [s[-n:]]: the last [n] characters, the whole string when it is shorter. *)
Definition py_suffix (n : nat) (s : string) : string :=
  substring (String.length s - n) n s.

(** [f"rest_token:{token_data['token'][-10:]}"]. *)
Definition token_key_of (td : token_data) : string :=
  "rest_token:" +:+ py_suffix 10 (token td).

Definition get_token_count : py world Z :=
  try_except client_zcard (fun _ => mret 0).

Definition add_token (td : token_data) : py world unit :=
  let timestamp := timestamp td in
  let token_key := token_key_of td in
  expiry ← gets token_expiry;
  _ ← client_setex token_key expiry td;
  client_zadd token_key timestamp.

(** The body of the [try] block of [get_newest_token]. *)
Definition get_newest_token_try : py world (option token_data) :=
  result ← client_zpopmax;
  match result with
  | [] => mret None
  | (token_key, score) :: _ =>
      token_data_str ← client_get token_key;
      match token_data_str with
      | None => mret None
      | Some td =>
          _ ← client_delete token_key;
          mret (Some td)
      end
  end.

Definition get_newest_token : py world (option token_data) :=
  try_except get_newest_token_try (fun _ => mret None).

Definition cleanup_stale_references : py world Z :=
  try_except
    (current_time ← time_time;
     expiry ← gets token_expiry;
     let expired_cutoff := current_time - expiry - 60 in
     removed ← client_zremrangebyscore_neg_inf expired_cutoff;
     mret removed)
    (fun _ => mret 0).

(** *** Runs of calls and what the store holds *)

(** A sequence of [add_token] calls, then of [get_newest_token] calls, each
    preceded by the time that passes before it. *)
Fixpoint add_tokens (calls : list (Z * token_data)) : py world unit :=
  match calls with
  | [] => mret tt
  | (d, td) :: rest =>
      _ ← modify (tick d);
      _ ← add_token td;
      add_tokens rest
  end.

Fixpoint pop_tokens (delays : list Z) : py world (list (option token_data)) :=
  match delays with
  | [] => mret []
  | d :: rest =>
      _ ← modify (tick d);
      r ← get_newest_token;
      rs ← pop_tokens rest;
      mret (r :: rs)
  end.

Definition total (ds : list Z) : Z := foldr Z.add 0 ds.

(** The connection raises no error from now on. *)
Definition calm (w : world) : Prop := faults w = [].

(** [td] is a stored record: the index refers to it, under its own key and
    with its timestamp as score, and its value entry is there. *)
Definition stored (s : Redis.store token_data) (td : token_data) : Prop :=
  Redis.zset s !! token_key_of td = Some (timestamp td) ∧
  ∃ deadline, Redis.strings s !! token_key_of td = Some (td, deadline).

(** Every index entry refers to a value entry that lives at least until
    [T]; no two index entries have the same score. *)
Definition coherent (T : Z) (s : Redis.store token_data) : Prop :=
  (∀ k sc, Redis.zset s !! k = Some sc ->
     ∃ td deadline, Redis.strings s !! k = Some (td, deadline) ∧
       k = token_key_of td ∧ timestamp td = sc ∧ T ≤ deadline) ∧
  (∀ k1 k2 sc, Redis.zset s !! k1 = Some sc -> Redis.zset s !! k2 = Some sc ->
     k1 = k2).

(** Every value entry sits under the key of the record it holds. *)
Definition keyed (s : Redis.store token_data) : Prop :=
  ∀ k td deadline, Redis.strings s !! k = Some (td, deadline) ->
    k = token_key_of td.

(** Some value entry holds [td]. *)
Definition holds (s : Redis.store token_data) (td : token_data) : Prop :=
  ∃ k deadline, Redis.strings s !! k = Some (td, deadline).

(** *** Sample data *)

(** An index entry whose score is exactly the cutoff of a sweep at 1000:
    1000 - 120 - 60 = 820. *)
Definition boundary_world : world :=
  mk_world 120
    (Redis.mk_store ∅ {[ "rest_token:0123456789" := 820;
                         "rest_token:abcdefghij" := 821 ]})
    1000 [].

(** An index entry whose value entry expired at 220, seen at 300. *)
Definition stale_world : world :=
  let td := mk_token_data "P1_0123456789" 1 2 100 "rest_api" in
  mk_world 120
    (Redis.mk_store {[ token_key_of td := (td, 220) ]}
                    {[ token_key_of td := 100 ]})
    300 [].

Definition sample_record (tok : string) (ts : Z) : token_data :=
  mk_token_data tok 1 1 ts "rest_api".

Definition sample_adds : list (Z * token_data) :=
  [(0, sample_record "P1_eyJ0eXAiOiJKV1QiLCJhbGciOiJIUzI1NiJ9.aaa" 100);
   (1, sample_record "P1_eyJ0eXAiOiJKV1QiLCJhbGciOiJIUzI1NiJ9.bbb" 105);
   (1, sample_record "P1_eyJ0eXAiOiJKV1QiLCJhbGciOiJIUzI1NiJ9.ccc" 103)].

End RestTokenManager.

(** ** The HTTP routes of [server.py] that read the store *)

Module Routes.
Import RestTokenManager.

Record token_response := mk_token_response {
  tr_status : string;
  tr_token : string;
  tr_duration : Z;
  tr_worker_id : Z;
  tr_timestamp : Z;
  tr_age_seconds : Z
}.

Record cleanup_response := mk_cleanup_response {
  cr_status : string;
  cr_message : string;
  cr_removed : Z
}.

(** [GET /token]. *)
Definition get_newest_token : py world token_response :=
  token_data ← RestTokenManager.get_newest_token;
  match token_data with
  | Some td =>
      now ← time_time;
      mret (mk_token_response "success" (token td) (duration td)
              (worker_id td) (timestamp td) (now - timestamp td))
  | None => raise (HTTPException 404 "No tokens available")
  end.

(** [POST /cleanup]. *)
Definition cleanup_stale_tokens : py world cleanup_response :=
  try_except
    (removed ← cleanup_stale_references;
     mret (mk_cleanup_response "success"
             ("Cleaned " +:+ show_Z removed +:+ " stale token references")
             removed))
    (fun e => raise (HTTPException 500 ("Cleanup failed: " +:+ exn_str e))).

(** The status line FastAPI sends for the outcome of a route. *)
Definition http_status {A} (r : outcome A) : Z :=
  match r with
  | Ok _ => 200
  | Raise (HTTPException code _) => code
  | Raise _ => 500
  end.

End Routes.

(** ** [RestTokenManager]: the worker pool methods *)

Module WorkerPool.

(** A [threading.Event] is an object with identity: the manager holds a
    heap of flags and refers to an event by its address in the heap. *)
Definition event_id := nat.

(** A call [self.token_worker(worker_id, shutdown_event)] handed to the
    executor. *)
Record task := mk_task {
  task_worker_id : Z;
  task_shutdown_event : event_id
}.

(** [concurrent.futures.ThreadPoolExecutor]: at most [pool_size] threads,
    fixed when the executor is built; submitted calls wait in [work_queue]
    until a thread is free. *)
Record thread_pool := mk_thread_pool {
  pool_size : Z;
  running : list task;
  work_queue : list task
}.

(** The fields of the manager that the pool methods read or write,
    together with the heap of events. *)
Record manager := mk_manager {
  max_workers : Z;
  workers_running : Z;
  executor : thread_pool;
  worker_shutdown_events : list event_id;
  generation_active : bool;
  events : list bool
}.

(** The pool fields as [__init__] leaves them: the executor is built with
    the default of three workers. *)
Definition init : manager :=
  let max_workers := 3 in
  mk_manager max_workers 0 (mk_thread_pool max_workers [] []) [] false [].

(** [threading.Event()]: a fresh, unset event. *)
Definition new_event : py manager event_id :=
  fun m =>
    (Ok (length (events m)),
     mk_manager (max_workers m) (workers_running m) (executor m)
       (worker_shutdown_events m) (generation_active m) (events m ++ [false])).

(** [event.set()]. *)
Definition event_set (e : event_id) : py manager unit :=
  modify (fun m : manager =>
    mk_manager (max_workers m) (workers_running m) (executor m)
      (worker_shutdown_events m) (generation_active m) (<[e := true]> (events m))).

(** [self.executor.submit(self.token_worker, worker_id, event)]. *)
Definition executor_submit (t : task) : py manager unit :=
  modify (fun m : manager =>
    let ex := executor m in
    mk_manager (max_workers m) (workers_running m)
      (mk_thread_pool (pool_size ex) (running ex) (work_queue ex ++ [t]))
      (worker_shutdown_events m) (generation_active m) (events m)).

(** [[threading.Event() for _ in range(n)]]. *)
Fixpoint new_events (n : nat) : py manager (list event_id) :=
  match n with
  | O => mret []
  | S n' => e ← new_event; es ← new_events n'; mret (e :: es)
  end.

(** [for i in range(n): submit(token_worker, i + 1, events[i])], written
    over the indices still to visit. *)
Fixpoint submit_workers (indices : list nat) : py manager unit :=
  match indices with
  | [] => mret tt
  | i :: rest =>
      evs ← gets worker_shutdown_events;
      match evs !! i with
      | None => raise (Exception "list index out of range")
      | Some ev =>
          _ ← executor_submit (mk_task (Z.of_nat i + 1) ev);
          submit_workers rest
      end
  end.

(** [workers or self.max_workers]: [None] and [0] are falsy. *)
Definition workers_or (workers : option Z) (default : Z) : Z :=
  match workers with
  | None => default
  | Some n => if n =? 0 then default else n
  end.

Definition start_token_generation (workers : option Z)
  : py manager (bool * string) :=
  active ← gets generation_active;
  if (active : bool) then mret (false, "Token generation already active")
  else
    _ ← modify (fun m : manager =>
           mk_manager (workers_or workers (max_workers m)) (workers_running m)
             (executor m) (worker_shutdown_events m) true (events m));
    n ← gets max_workers;
    evs ← new_events (Z.to_nat n);
    _ ← modify (fun m : manager =>
           mk_manager (max_workers m) (workers_running m) (executor m)
             evs (generation_active m) (events m));
    _ ← submit_workers (seq 0 (Z.to_nat n));
    mret (true, "Started " +:+ show_Z n +:+ " workers").

Fixpoint set_events (es : list event_id) : py manager unit :=
  match es with
  | [] => mret tt
  | e :: rest => _ ← event_set e; set_events rest
  end.

(** The polling loop at the end of [stop_token_generation] only reads
    [workers_running] and the clock while the workers wind down in their
    own threads (steps [worker_exits] below); it leaves the manager as it
    is and always falls through to the final [return]. *)
Definition stop_token_generation : py manager (bool * string) :=
  active ← gets generation_active;
  if negb (active : bool) then mret (false, "Token generation not active")
  else
    _ ← modify (fun m : manager =>
           mk_manager (max_workers m) (workers_running m) (executor m)
             (worker_shutdown_events m) false (events m));
    evs ← gets worker_shutdown_events;
    _ ← set_events evs;
    mret (true, "Token generation stopped").

(** What the executor's threads do, one step at a time.
    - [thread_takes_task]: a free thread takes the oldest queued call and
      enters [token_worker], whose first action is
      [self.workers_running += 1];
    - [worker_exits]: a running [token_worker] leaves through its
      [finally] block, [self.workers_running -= 1], and frees its thread. *)
Inductive step : manager -> manager -> Prop :=
  | thread_takes_task m t q :
      work_queue (executor m) = t :: q ->
      Z.of_nat (length (running (executor m))) < pool_size (executor m) ->
      step m
        (mk_manager (max_workers m) (workers_running m + 1)
           (mk_thread_pool (pool_size (executor m))
              (running (executor m) ++ [t]) q)
           (worker_shutdown_events m) (generation_active m) (events m))
  | worker_exits m r1 t r2 :
      running (executor m) = (r1 ++ t :: r2)%list ->
      step m
        (mk_manager (max_workers m) (workers_running m - 1)
           (mk_thread_pool (pool_size (executor m)) (r1 ++ r2)%list
              (work_queue (executor m)))
           (worker_shutdown_events m) (generation_active m) (events m)).

Definition steps : manager -> manager -> Prop := rtc step.

(** No more workers run than the executor has threads. *)
Definition bounded (m : manager) : Prop :=
  Z.of_nat (length (running (executor m))) ≤ pool_size (executor m).

End WorkerPool.

(** ** [OnDemandTokenServer]: one long-lived session *)

Module OnDemandTokenServer.

(** What [driver.execute_script] hands back: a JavaScript value ([None]
    stands for [null]), or an exception such as a script timeout. *)
Inductive js_result :=
  | JsValue (v : option string)
  | JsError.

(** The calls made on the browser driver, in the order they are made. *)
Inductive driver_call :=
  | CallDriver
  | CallGet
  | CallSetScriptTimeout
  | CallSleep
  | CallIsElementPresent
  | CallExecuteScript
  | CallQuit.

#[global] Instance driver_call_eq_dec : EqDecision driver_call.
Proof. solve_decision. Defined.

(** What is kept of a run: the calls made on the driver and the writes of
    [self.browser_ready], the attribute that the other threads read while a
    call is under way. *)
Inductive event :=
  | Call (c : driver_call)
  | WriteReady (b : bool).

#[global] Instance event_eq_dec : EqDecision event.
Proof. solve_decision. Defined.

(** The browser seen from the server: the outcome of each coming call.
    [new_driver] and [page_loads] say whether the next [Driver(...)] and
    [driver.get] succeed ([false]: the call raises), [widget] what the next
    [is_element_present] calls answer and [widget_later] what they all
    answer once that list is used up, [scripts] what the next
    [execute_script] yields and how long it takes.  Past the end of the
    other lists the call succeeds and the script times out.  A browser
    with [widget_later = false] is one in which the widget, once the list
    is used up, never shows up. *)
Record oracle := mk_oracle {
  new_driver : list bool;
  page_loads : list bool;
  widget : list bool;
  widget_later : bool;
  scripts : list (js_result * nat)
}.

(** The attributes of the server, the wall clock, the browser, and what is
    kept of the run so far (most recent last).  A driver object is named by
    the number of events before it was created. *)
Record world := mk_world {
  driver : option nat;
  browser_ready : bool;
  last_keepalive : Z;
  keepalive_interval : Z;
  clock : Z;
  env : oracle;
  trace : list event
}.

Definition set_driver (d : option nat) (w : world) : world :=
  mk_world d (browser_ready w) (last_keepalive w) (keepalive_interval w)
    (clock w) (env w) (trace w).
Definition set_last_keepalive (t : Z) (w : world) : world :=
  mk_world (driver w) (browser_ready w) t (keepalive_interval w)
    (clock w) (env w) (trace w).
Definition advance (d : Z) (w : world) : world :=
  mk_world (driver w) (browser_ready w) (last_keepalive w)
    (keepalive_interval w) (clock w + d) (env w) (trace w).
Definition set_env (o : oracle) (w : world) : world :=
  mk_world (driver w) (browser_ready w) (last_keepalive w)
    (keepalive_interval w) (clock w) o (trace w).
Definition record_call (c : driver_call) (w : world) : world :=
  mk_world (driver w) (browser_ready w) (last_keepalive w)
    (keepalive_interval w) (clock w) (env w) (trace w ++ [Call c]).

(** [self.browser_ready = b]. *)
Definition set_browser_ready (b : bool) (w : world) : world :=
  mk_world (driver w) b (last_keepalive w) (keepalive_interval w)
    (clock w) (env w) (trace w ++ [WriteReady b]).

(** *** Calls that may never return *)

(** [_initialize_browser] waits for the widget in a loop without bound, so
    the methods of this class are partial: [None] stands for a call that
    never returns.  In this module [gets], [modify], [raise] and
    [try_except] are those of this monad. *)
Definition pyp (A : Type) : Type := world -> option (outcome A * world).

Definition pyp_ret {A} (a : A) : pyp A := fun w => Some (Ok a, w).

Definition pyp_bind {A B} (f : A -> pyp B) (m : pyp A) : pyp B :=
  fun w =>
    match m w with
    | Some (Ok a, w') => f a w'
    | Some (Raise e, w') => Some (Raise e, w')
    | None => None
    end.

#[export] Instance pyp_mret : MRet pyp := @pyp_ret.
#[export] Instance pyp_mbind : MBind pyp := @pyp_bind.

(** A loop that runs for ever. *)
Definition hangs {A} : pyp A := fun _ => None.

Definition raise {A} (e : exn) : pyp A := fun w => Some (Raise e, w).

(** [try: body except Exception as e: handler e]. *)
Definition try_except {A} (body : pyp A) (handler : exn -> pyp A) : pyp A :=
  fun w =>
    match body w with
    | Some (Ok a, w') => Some (Ok a, w')
    | Some (Raise e, w') => handler e w'
    | None => None
    end.

Definition gets {A} (f : world -> A) : pyp A := fun w => Some (Ok (f w), w).
Definition modify (f : world -> world) : pyp unit :=
  fun w => Some (Ok tt, f w).

Definition time_time : pyp Z := gets clock.

(** [time.sleep(d)]. *)
Definition time_sleep (d : Z) : pyp unit := modify (advance d).

(** *** The driver *)

(** [Driver(uc=True, headless=True, no_sandbox=True)]. *)
Definition Driver : pyp nat :=
  fun w =>
    let o := env w in
    let w' := record_call CallDriver
                (set_env (mk_oracle (tail (new_driver o)) (page_loads o)
                            (widget o) (widget_later o) (scripts o)) w) in
    match new_driver o with
    | false :: _ => Some (Raise (Exception "session not created"), w')
    | _ => Some (Ok (length (trace w)), w')
    end.

(** [driver.get(self.url)]. *)
Definition driver_get : pyp unit :=
  fun w =>
    let o := env w in
    let w' := record_call CallGet
                (set_env (mk_oracle (new_driver o) (tail (page_loads o))
                            (widget o) (widget_later o) (scripts o)) w) in
    match page_loads o with
    | false :: _ => Some (Raise (Exception "page load failed"), w')
    | _ => Some (Ok tt, w')
    end.

Definition driver_set_script_timeout : pyp unit :=
  modify (record_call CallSetScriptTimeout).

(** [driver.sleep(2)]. *)
Definition driver_sleep (d : Z) : pyp unit :=
  modify (fun w => advance d (record_call CallSleep w)).

(** [driver.is_element_present('[data-hcaptcha-widget-id]', ...)]. *)
Definition driver_is_element_present : pyp bool :=
  fun w =>
    let o := env w in
    let w' := record_call CallIsElementPresent
                (set_env (mk_oracle (new_driver o) (page_loads o)
                            (tail (widget o)) (widget_later o) (scripts o))
                   w) in
    match widget o with
    | b :: _ => Some (Ok b, w')
    | [] => Some (Ok (widget_later o), w')
    end.

(** What the next [execute_script] yields, and after how long. *)
Definition next_script (o : oracle) : js_result * nat :=
  match scripts o with
  | [] => (JsError, 0%nat)
  | r :: _ => r
  end.

(** The world once the next [execute_script] is over. *)
Definition after_script (w : world) : world :=
  let o := env w in
  advance (Z.of_nat (next_script o).2)
    (record_call CallExecuteScript
       (set_env (mk_oracle (new_driver o) (page_loads o) (widget o)
                   (widget_later o) (tail (scripts o))) w)).

(** [driver.execute_script(js_to_get_token)]. *)
Definition driver_execute_script : pyp (option string) :=
  fun w =>
    match (next_script (env w)).1 with
    | JsValue v => Some (Ok v, after_script w)
    | JsError => Some (Raise (Exception "script timeout"), after_script w)
    end.

(** [try: driver.quit() except: pass]. *)
Definition driver_quit : pyp unit := modify (record_call CallQuit).

(** *** The methods *)

(** [while not is_element_present(...): get(url); sleep(2)].  A round that
    does not leave the loop uses up one answer of [widget] and one of
    [page_loads], as long as there are any.  When the rounds are used up in
    [wait_for_widget (S (length widget + length page_loads))], both lists
    are empty, the widget is absent for good and every reload succeeds: the
    loop never ends, which is [hangs].  More rounds change nothing (lemma
    [wait_for_widget_enough]). *)
Fixpoint wait_for_widget (rounds : nat) : pyp unit :=
  match rounds with
  | O => hangs
  | S rounds' =>
      present ← driver_is_element_present;
      if (present : bool) then mret tt
      else
        _ ← driver_get;
        _ ← driver_sleep 2;
        wait_for_widget rounds'
  end.

(** The body of the [try] block of [_initialize_browser]. *)
Definition _initialize_browser_try : pyp unit :=
  d ← Driver;
  _ ← modify (set_driver (Some d));
  _ ← driver_get;
  _ ← driver_set_script_timeout;
  _ ← driver_sleep 2;
  o ← gets env;
  _ ← wait_for_widget (S (length (widget o) + length (page_loads o)));
  _ ← modify (set_browser_ready true);
  now ← time_time;
  modify (set_last_keepalive now).

Definition _initialize_browser : pyp unit :=
  try_except _initialize_browser_try
    (fun _ => modify (set_browser_ready false)).

(** [str(token) if token else None]: [null] and the empty string are
    falsy. *)
Definition truthy_str (token : option string) : option string :=
  match token with
  | Some s => if String.eqb s "" then None else Some s
  | None => None
  end.

Definition _generate_token : pyp (option string * Z) :=
  ready ← gets browser_ready;
  d ← gets driver;
  if negb (ready : bool) || negb (bool_decide (is_Some (d : option nat)))
  then mret (None, 0)
  else
    start_time ← time_time;
    try_except
      (token ← driver_execute_script;
       now ← time_time;
       mret (truthy_str token, now - start_time))
      (fun _ =>
         now ← time_time;
         let duration := now - start_time in
         _ ← modify (set_browser_ready false);
         d ← gets driver;
         _ ← (if (d : option nat) is Some _ then driver_quit else mret tt);
         _ ← _initialize_browser;
         mret (None, duration)).

Definition _refresh_page : pyp unit :=
  try_except
    (d ← gets driver;
     if (d : option nat) is Some _
     then _ ← driver_get; driver_sleep 2
     else mret tt)
    (fun _ => mret tt).

Record token_result := mk_token_result {
  token : string;
  duration : Z;
  timestamp : Z
}.

(** The two failures of [get_token], under the names the specification
    gives them. *)
Definition NotReady : exn := Exception "Browser not ready".
Definition GenerationFailed : exn :=
  Exception "Failed to generate token after retry".

Definition get_token : pyp token_result :=
  ready ← gets browser_ready;
  if negb (ready : bool) then raise NotReady
  else
    '(token, duration) ← _generate_token;
    '(token, duration) ←
      (if (token : option string) is Some _ then mret (token, duration)
       else _ ← _refresh_page; _generate_token);
    match token : option string with
    | None => raise GenerationFailed
    | Some tok =>
        now ← time_time;
        _ ← modify (set_last_keepalive now);
        now' ← time_time;
        mret (mk_token_result tok duration now')
    end.

Definition restart_browser : pyp bool :=
  d ← gets driver;
  _ ← (if (d : option nat) is Some _ then driver_quit else mret tt);
  _ ← modify (set_browser_ready false);
  _ ← modify (set_driver None);
  _ ← _initialize_browser;
  gets browser_ready.

(** One round of the [while True] loop of [keepalive_worker]. *)
Definition keepalive_round : pyp unit :=
  try_except
    (_ ← time_sleep 30;
     ready ← gets browser_ready;
     if negb (ready : bool) then mret tt
     else
       now ← time_time;
       last ← gets last_keepalive;
       interval ← gets keepalive_interval;
       if interval <=? now - last then
         try_except
           ('(token, duration) ← _generate_token;
            if (token : option string) is Some _ then
              now ← time_time;
              modify (set_last_keepalive now)
            else
              d ← gets driver;
              if (d : option nat) is Some _
              then _ ← driver_get; driver_sleep 2
              else raise (Exception "'NoneType' object has no attribute 'get'"))
           (fun _ =>
              _ ← modify (set_browser_ready false);
              d ← gets driver;
              _ ← (if (d : option nat) is Some _ then driver_quit else mret tt);
              _initialize_browser)
       else mret tt)
    (fun _ => mret tt).

(** *** What a run did *)

(** The number of [execute_script] calls and of [Driver(...)] calls made so
    far: the solves attempted and the (re)initializations started. *)
Definition solves (w : world) : nat :=
  length (filter (fun c => c = Call CallExecuteScript) (trace w)).
Definition inits (w : world) : nat :=
  length (filter (fun c => c = Call CallDriver) (trace w)).

(** [w'] comes after [w] without a solve, a new driver or a change of the
    server's attributes: only time and other driver calls went by. *)
Definition quiet (w w' : world) : Prop :=
  solves w' = solves w ∧ inits w' = inits w ∧ clock w ≤ clock w' ∧
  browser_ready w' = browser_ready w ∧ driver w' = driver w ∧
  last_keepalive w' = last_keepalive w ∧
  keepalive_interval w' = keepalive_interval w ∧
  scripts (env w') = scripts (env w) ∧
  new_driver (env w') = new_driver (env w) ∧
  widget_later (env w') = widget_later (env w) ∧
  ∃ rest, trace w' = (trace w ++ rest)%list.

(** [w'] comes after [w]: time has not gone back, what was recorded is
    still there, a driver that was set is still set, and the widget's
    answers in the long run and the interval are as they were. *)
Definition later (w w' : world) : Prop :=
  clock w ≤ clock w' ∧
  (solves w ≤ solves w')%nat ∧ (inits w ≤ inits w')%nat ∧
  (∃ rest, trace w' = (trace w ++ rest)%list) ∧
  (is_Some (driver w) -> is_Some (driver w')) ∧
  widget_later (env w') = widget_later (env w) ∧
  keepalive_interval w' = keepalive_interval w.

(** [w'] comes after [w] without a solve and without a new driver. *)
Definition idle (w w' : world) : Prop :=
  solves w' = solves w ∧ inits w' = inits w.

(** [w'] comes after [w] without a solve. *)
Definition no_solve (w w' : world) : Prop := solves w' = solves w.

(** Every run of [m] that returns is related by [R]. *)
Definition preserves {A} (R : world -> world -> Prop) (m : pyp A) : Prop :=
  ∀ w r w', m w = Some (r, w') -> R w w'.

(** The widget shows up in the long run. *)
Definition widget_shows (w : world) : Prop := widget_later (env w) = true.

(** [m] returns whenever the widget shows up in the long run (and it still
    does afterwards). *)
Definition ends {A} (m : pyp A) : Prop :=
  ∀ w, widget_shows w -> ∃ r w', m w = Some (r, w') ∧ widget_shows w'.

(** The server as [__init__] leaves it before it starts the browser. *)
Definition fresh (now : Z) (o : oracle) : world :=
  mk_world None false 0 300 now o [].

(** [OnDemandTokenServer()], without the keepalive thread. *)
Definition __init__ (now : Z) (o : oracle) : option world :=
  snd <$> _initialize_browser (fresh now o).

(** *** Sample sessions *)

(** A browser in which both solves return [null]. *)
Definition two_empty : oracle :=
  mk_oracle [] [] [] true [(JsValue None, 1%nat); (JsValue None, 1%nat)].

(** A browser whose first solve returns [null] and whose second solve
    returns a token. *)
Definition empty_then_token : oracle :=
  mk_oracle [] [] [] true
    [(JsValue None, 1%nat); (JsValue (Some "P1_token"), 2%nat)].


(** A browser that starts, raises at the first solve, starts again and
    then solves. *)
Definition error_then_token : oracle :=
  mk_oracle [] [] [false] true
    [(JsError, 1%nat); (JsValue (Some "P1_token"), 2%nat)].

(** A browser that starts, raises at the first solve, and in which the
    widget never shows up again. *)
Definition error_then_no_widget : oracle :=
  mk_oracle [] [] [true] false [(JsError, 1%nat)].

(** The server constructed at time 1000 on the browser [o]; with the
    sample browsers the construction ends. *)
Definition session (o : oracle) : world :=
  default (fresh 1000 o) (__init__ 1000 o).

End OnDemandTokenServer.

(** ** [server.py]: the routes that look at the store, and the sweeper *)

Module StoreAdmin.
Import RestTokenManager.

(** [DEL rest_token_sorted_set]: a sorted set with no member does not exist
    as a key, so deleting it counts for nothing. *)
Definition del_sorted_set (s : Redis.store token_data)
  : Z * Redis.store token_data :=
  ((if decide (Redis.zset s = ∅) then 0 else 1),
   Redis.mk_store (Redis.strings s) ∅).

(** [ZREVRANGE zkey 0 (n - 1) WITHSCORES]: the [n] members with the highest
    scores, highest first. *)
Fixpoint zrevrange_top (n : nat) (z : gmap string Z) : list (string * Z) :=
  match n with
  | O => []
  | S n' =>
      match Redis.zmax z with
      | None => []
      | Some (member, score) =>
          (member, score) :: zrevrange_top n' (delete member z)
      end
  end.

Definition client_delete_sorted_set : py world Z :=
  redis_call (fun _ s => del_sorted_set s).
Definition client_zrevrange_top (n : nat) : py world (list (string * Z)) :=
  redis_call (fun _ s => (zrevrange_top n (Redis.zset s), s)).
Definition client_ping : py world bool :=
  redis_call (fun _ s => (true, s)).

(** [time.sleep(d)]. *)
Definition time_sleep (d : Z) : py world unit := modify (tick d).

(** One round of the [while self.cleanup_active] loop of
    [_background_cleanup_worker]. *)
Definition _background_cleanup_worker_round : py world unit :=
  try_except
    (removed ← cleanup_stale_references;
     time_sleep 30)
    (fun _ => time_sleep 60).

Record clear_response := mk_clear_response {
  clr_status : string;
  clr_message : string;
  clr_previous_count : Z
}.

(** [DELETE /tokens]. *)
Definition clear_tokens : py world clear_response :=
  cleared ← client_delete_sorted_set;
  mret (mk_clear_response "cleared" "Cleared all tokens" cleared).

Record health_response := mk_health_response {
  hr_status : string;
  hr_redis : string;
  hr_generation_active : bool;
  hr_workers : Z
}.

(** [GET /health]; the pool fields of the manager are only read. *)
Definition health_check (m : WorkerPool.manager) : py world health_response :=
  try_except
    (_ ← client_ping;
     mret (mk_health_response "healthy" "connected"
             (WorkerPool.generation_active m) (WorkerPool.workers_running m)))
    (fun e => raise (HTTPException 503 ("Unhealthy: " +:+ exn_str e))).

(** One element of [sample_info] in [get_token_info], without its
    ["age_seconds"]: that field is [round(time.time() - timestamp, 1)], a
    float rounded to one decimal, which the integer times of the embedding
    cannot show. *)
Record sample := mk_sample {
  token_suffix : string;
  sample_worker_id : Z;
  sample_duration : Z;
  sample_timestamp : Z
}.

(** The [for] loop of [get_token_info].  It sits in a [try] whose handler
    only prints, and it appends to a list created before the [try]: when a
    client call raises, the loop stops and the list keeps what it has. *)
Fixpoint sample_loop (entries : list (string * Z)) (sample_info : list sample)
  : py world (list sample) :=
  match entries with
  | [] => mret sample_info
  | (token_key, timestamp) :: rest =>
      fun w =>
        match client_get token_key w with
        | (Raise _, w') => (Ok sample_info, w')
        | (Ok None, w') => sample_loop rest sample_info w'
        | (Ok (Some td), w') =>
            sample_loop rest
              (sample_info ++
               [mk_sample (py_suffix 10 (token td)) (worker_id td)
                  (duration td) timestamp])
              w'
        end
  end.

(** The [try] block of [get_token_info]: the five newest index entries,
    each looked up without being removed. *)
Definition get_token_info_sample : py world (list sample) :=
  fun w =>
    match client_zrevrange_top 5 w with
    | (Raise _, w') => (Ok [], w')
    | (Ok token_keys_with_scores, w') =>
        sample_loop token_keys_with_scores [] w'
    end.

(** [GET /tokens], as far as the count and the sample go (the response also
    carries the mean of the rounded ages, left out like the ages). *)
Definition get_token_info : py world (Z * list sample) :=
  token_count ← get_token_count;
  sample_info ← get_token_info_sample;
  mret (token_count, sample_info).

(** A record that some index entry leads to. *)
Definition poppable (s : Redis.store token_data) (td : token_data) : Prop :=
  ∃ k sc deadline,
    Redis.zset s !! k = Some sc ∧ Redis.strings s !! k = Some (td, deadline).

(** A store at time 200 with a record of timestamp 95 whose value lives
    until 220, and an index entry of score 10 whose value is gone. *)
Definition sweep_world : world :=
  let td := sample_record "P1_kept.0123456789" 95 in
  mk_world 120
    (Redis.mk_store {[ token_key_of td := (td, 220) ]}
                    {[ token_key_of td := 95;
                       "rest_token:gone000000" := 10 ]})
    200 [].

(** Every indexed value was written at most 60 seconds after the timestamp
    of its record: it expires at most [expiry + 60] after its score. *)
Definition prompt (expiry : Z) (s : Redis.store token_data) : Prop :=
  ∀ k sc td deadline,
    Redis.zset s !! k = Some sc ->
    Redis.strings s !! k = Some (td, deadline) ->
    deadline ≤ sc + expiry + 60.

End StoreAdmin.

(** ** [consumer.py] *)

Module Consumer.
Import RestTokenManager.

Definition get_one_token : py world (option string) :=
  try_except
    (result ← client_zpopmax;
     match result with
     | [] => mret None
     | (token_key, _) :: _ =>
         token_data_str ← client_get token_key;
         match token_data_str with
         | Some td =>
             _ ← client_delete token_key;
             mret (Some (token td))
         | None => mret None
         end
     end)
    (fun _ => mret None).

(** [count] calls of [get_one_token], one after the other: the module lock
    lets one call at a time through. *)
Fixpoint get_one_token_times (count : nat) : py world (list (option string)) :=
  match count with
  | O => mret []
  | S count' =>
      r ← get_one_token;
      rs ← get_one_token_times count';
      mret (r :: rs)
  end.

(** What [ThreadPoolExecutor(max_workers=n)] raises for [n <= 0]. *)
Definition ValueError : exn :=
  Exception "max_workers must be greater than 0".

(** [get_tokens_concurrent(count)]: the calls run under the lock in some
    order and [as_completed] yields their results in the order in which
    they finish, so the list returned is known up to its order; [if token]
    drops [None] and the empty string. *)
Definition get_tokens_concurrent (count : Z) (w : world)
    (r : outcome (list string)) (w' : world) : Prop :=
  if decide (count ≤ 0) then r = Raise ValueError ∧ w' = w
  else
    ∃ rs tokens,
      get_one_token_times (Z.to_nat count) w = (Ok rs, w') ∧
      r = Ok tokens ∧
      tokens ≡ₚ omap OnDemandTokenServer.truthy_str rs.

End Consumer.

(** ** Runs of the worker pool *)

Module PoolRuns.
Import WorkerPool.

(** What can happen to the manager: a call of [start_token_generation] or
    of [stop_token_generation], or a step of one of the executor's
    threads. *)
Inductive move : manager -> manager -> Prop :=
  | move_start m workers r m' :
      start_token_generation workers m = (r, m') -> move m m'
  | move_stop m r m' :
      stop_token_generation m = (r, m') -> move m m'
  | move_step m m' :
      step m m' -> move m m'.

(** The states a newly constructed manager can get to. *)
Definition reachable (m : manager) : Prop := rtc move init m.

(** Every shutdown event of the manager is in the heap. *)
Definition allocated (m : manager) : Prop :=
  Forall (fun e => (e < length (events m))%nat) (worker_shutdown_events m).

(** [workers_running] counts the calls of [token_worker] under way. *)
Definition counted (m : manager) : Prop :=
  workers_running m = Z.of_nat (length (running (executor m))).

(** A pool that was started with two workers on a new manager. *)
Definition started_two : manager :=
  snd (start_token_generation (Some 2) init).

End PoolRuns.

(** ** Runs and route of the on-demand server *)

Module OnDemandRuns.
Import OnDemandTokenServer.

(** [n] rounds of the loop of [keepalive_worker], one after the other. *)
Fixpoint keepalive_rounds (n : nat) : pyp unit :=
  match n with
  | O => mret tt
  | S n' => _ ← keepalive_round; keepalive_rounds n'
  end.

(** What the server is asked to do while it runs: a call of [get_token]
    (from [GET /token]) or a round of the keepalive loop. *)
Inductive activity :=
  | Request
  | Round.

#[global] Instance activity_eq_dec : EqDecision activity.
Proof. solve_decision. Defined.

(** A sequence of such calls, each begun when the one before is over; the
    outcomes of the requests are collected, oldest first.  [None]: one of
    the calls never returns. *)
Fixpoint serve (acts : list activity) (w : world)
  : option (list (outcome token_result) * world) :=
  match acts with
  | [] => Some ([], w)
  | Request :: rest =>
      match get_token w with
      | Some (r, w1) =>
          match serve rest w1 with
          | Some (rs, w2) => Some (r :: rs, w2)
          | None => None
          end
      | None => None
      end
  | Round :: rest =>
      match keepalive_round w with
      | Some (_, w1) => serve rest w1
      | None => None
      end
  end.

(** The time that [acts] takes at least: thirty seconds a round. *)
Definition rounds_time (acts : list activity) : Z :=
  30 * Z.of_nat (length (filter (fun a => a = Round) acts)).

(** [GET /token]; [TokenResponse] has the three fields of the dictionary
    that [get_token] returns. *)
Definition get_token_route : pyp token_result :=
  try_except
    (result ← get_token;
     mret (mk_token_result (token result) (duration result)
             (timestamp result)))
    (fun e =>
       raise (HTTPException 500
                ("Failed to generate token: " +:+ exn_str e))).

End OnDemandRuns.

(** ** [token_worker]: one worker of the pool *)

Module TokenWorker.
Import RestTokenManager.

Definition js_result := OnDemandTokenServer.js_result.
Definition driver_call := OnDemandTokenServer.driver_call.

(** selenium's [TimeoutException], the one class that the [except] clauses
    of [token_worker] tell from the others.  It is represented by the
    [Exception] with this text. *)
Definition TimeoutException : exn := Exception "TimeoutException".
Definition is_TimeoutException (e : exn) : bool :=
  if e is Exception msg then String.eqb msg "TimeoutException" else false.

(** The browser seen from a worker: for each coming [Driver(...)],
    [driver.get] and [driver.quit] call the exception it raises, if any,
    and for each coming [execute_script] what it yields and how long it
    takes.  Past the end of a list the call succeeds and the script times
    out. *)
Record browser := mk_browser {
  new_driver : list (option exn);
  page_loads : list (option exn);
  scripts : list (js_result * nat);
  quits : list (option exn)
}.

(** What a worker reads or writes: the store (with the wall clock), the
    counter [workers_running], its shutdown event, its local variable
    [driver], the browser, and the driver calls made so far.  The event is
    set by [stop_token_generation] in another thread and is never cleared:
    [shutdown_after] is the number of [is_set()] calls that still find it
    unset.  A world thus describes a run in which the event does get set;
    a worker whose event is never set stays in its loop for ever, and
    nothing is said here of such a run. *)
Record world := mk_world {
  store : RestTokenManager.world;
  workers_running : Z;
  shutdown_after : nat;
  driver : option nat;
  env : browser;
  trace : list driver_call
}.

Definition set_store (s : RestTokenManager.world) (w : world) : world :=
  mk_world s (workers_running w) (shutdown_after w) (driver w) (env w)
    (trace w).
Definition add_workers_running (d : Z) (w : world) : world :=
  mk_world (store w) (workers_running w + d) (shutdown_after w) (driver w)
    (env w) (trace w).
Definition set_shutdown_after (n : nat) (w : world) : world :=
  mk_world (store w) (workers_running w) n (driver w) (env w) (trace w).
Definition set_driver (d : option nat) (w : world) : world :=
  mk_world (store w) (workers_running w) (shutdown_after w) d (env w)
    (trace w).
Definition set_env (o : browser) (w : world) : world :=
  mk_world (store w) (workers_running w) (shutdown_after w) (driver w) o
    (trace w).
Definition record_call (c : driver_call) (w : world) : world :=
  mk_world (store w) (workers_running w) (shutdown_after w) (driver w)
    (env w) (trace w ++ [c]).

(** A method of the manager's store part, run from the worker. *)
Definition lift_store {A} (m : py RestTokenManager.world A) : py world A :=
  fun w => let '(r, s) := m (store w) in (r, set_store s w).

Definition time_time : py world Z := gets (fun w => clock (store w)).
Definition time_sleep (d : Z) : py world unit :=
  modify (fun w => set_store (tick d (store w)) w).

(** [shutdown_event.is_set()]. *)
Definition shutdown_event_is_set : py world bool :=
  fun w =>
    match shutdown_after w with
    | O => (Ok true, w)
    | S n => (Ok false, set_shutdown_after n w)
    end.

(** *** The driver *)

Definition Driver : py world nat :=
  fun w =>
    let o := env w in
    let w' := record_call OnDemandTokenServer.CallDriver
                (set_env (mk_browser (tail (new_driver o)) (page_loads o)
                            (scripts o) (quits o)) w) in
    match new_driver o with
    | Some e :: _ => (Raise e, w')
    | _ => (Ok (length (trace w)), w')
    end.

Definition driver_get : py world unit :=
  fun w =>
    let o := env w in
    let w' := record_call OnDemandTokenServer.CallGet
                (set_env (mk_browser (new_driver o) (tail (page_loads o))
                            (scripts o) (quits o)) w) in
    match page_loads o with
    | Some e :: _ => (Raise e, w')
    | _ => (Ok tt, w')
    end.

Definition driver_set_script_timeout : py world unit :=
  modify (record_call OnDemandTokenServer.CallSetScriptTimeout).

Definition driver_sleep (d : Z) : py world unit :=
  modify (fun w =>
    set_store (tick d (store w))
      (record_call OnDemandTokenServer.CallSleep w)).

Definition next_script (o : browser) : js_result * nat :=
  match scripts o with
  | [] => (OnDemandTokenServer.JsError, 0%nat)
  | r :: _ => r
  end.

(** The world once the next [execute_script] is over. *)
Definition after_script (w : world) : world :=
  let o := env w in
  set_store (tick (Z.of_nat (next_script o).2) (store w))
    (record_call OnDemandTokenServer.CallExecuteScript
       (set_env (mk_browser (new_driver o) (page_loads o)
                   (tail (scripts o)) (quits o)) w)).

Definition driver_execute_script : py world (option string) :=
  fun w =>
    match (next_script (env w)).1 with
    | OnDemandTokenServer.JsValue v => (Ok v, after_script w)
    | OnDemandTokenServer.JsError =>
        (Raise (Exception "script timeout"), after_script w)
    end.

(** The world once the next [quit] is over. *)
Definition after_quit (w : world) : world :=
  let o := env w in
  record_call OnDemandTokenServer.CallQuit
    (set_env (mk_browser (new_driver o) (page_loads o) (scripts o)
                (tail (quits o))) w).

(** [driver.quit()]; here it is not wrapped in a [try]. *)
Definition driver_quit : py world unit :=
  fun w =>
    match quits (env w) with
    | Some e :: _ => (Raise e, after_quit w)
    | _ => (Ok tt, after_quit w)
    end.

(** *** The methods *)

Definition BROWSER_RESTART_THRESHOLD : Z := 2.

(** [generate_token(self, driver)]. *)
Definition generate_token : py world (option string * Z) :=
  start_time ← time_time;
  try_except
    (token ← driver_execute_script;
     now ← time_time;
     mret (OnDemandTokenServer.truthy_str token, now - start_time))
    (fun _ =>
       now ← time_time;
       mret (None, now - start_time)).

(** [if driver: driver.quit(); driver = None]. *)
Definition quit_and_forget : py world unit :=
  d ← gets driver;
  if (d : option nat) is Some _
  then _ ← driver_quit; modify (set_driver None)
  else mret tt.

(** How a round of the [while] loop ends. *)
Inductive flow :=
  | Next
  | Break.

(** The body of the inner [try] block of [token_worker]. *)
Definition token_worker_try (worker_id : Z) : py world flow :=
  d ← gets driver;
  _ ← (if (d : option nat) is Some _ then mret tt
       else
         d' ← Driver;
         _ ← modify (set_driver (Some d'));
         _ ← driver_get;
         _ ← driver_set_script_timeout;
         driver_sleep 2);
  stop ← shutdown_event_is_set;
  if (stop : bool) then mret Break
  else
    '(token, duration) ← generate_token;
    _ ← (if (token : option string) is Some tok then
           now ← time_time;
           lift_store
             (add_token (mk_token_data tok duration worker_id now "rest_api"))
         else quit_and_forget);
    _ ← (if BROWSER_RESTART_THRESHOLD <? duration then quit_and_forget
         else mret tt);
    mret Next.

(** One round of the [while] loop, with its two [except] clauses. *)
Definition token_worker_round (worker_id : Z) : py world flow :=
  try_except (token_worker_try worker_id)
    (fun e =>
       if is_TimeoutException e then
         _ ← quit_and_forget;
         mret Next
       else
         _ ← quit_and_forget;
         _ ← time_sleep 1;
         mret Next).

(** [while not shutdown_event.is_set(): ...].  Every round begins with an
    [is_set()] call, so the loop makes at most [shutdown_after] rounds and
    [S (shutdown_after w)] rounds are always enough (lemma
    [token_worker_loop_enough]). *)
Fixpoint token_worker_loop (rounds : nat) (worker_id : Z) : py world unit :=
  match rounds with
  | O => mret tt
  | S rounds' =>
      stop ← shutdown_event_is_set;
      if (stop : bool) then mret tt
      else
        f ← token_worker_round worker_id;
        match f with
        | Break => mret tt
        | Next => token_worker_loop rounds' worker_id
        end
  end.

(** [try: body finally: final]. *)
Definition try_finally {W A} (body : py W A) (final : py W unit) : py W A :=
  fun w =>
    let '(r, w1) := body w in
    match final w1 with
    | (Ok _, w2) => (r, w2)
    | (Raise e, w2) => (Raise e, w2)
    end.

Definition token_worker (worker_id : Z) : py world unit :=
  _ ← modify (add_workers_running 1);
  _ ← modify (set_driver None);
  try_finally
    (n ← gets shutdown_after;
     token_worker_loop (S n) worker_id)
    (_ ← modify (add_workers_running (-1));
     d ← gets driver;
     if (d : option nat) is Some _ then driver_quit else mret tt).

(** *** What a run did *)

Definition solves (w : world) : nat :=
  length (filter (fun c => c = OnDemandTokenServer.CallExecuteScript)
            (trace w)).

(** No coming [driver.quit()] raises. *)
Definition quits_succeed (w : world) : Prop :=
  Forall (fun q => q = None) (quits (env w)).

(** The next [execute_script] returns a token. *)
Definition solves_next (tok : string) (dt : nat) (w : world) : Prop :=
  next_script (env w) = (OnDemandTokenServer.JsValue (Some tok), dt) ∧
  tok ≠ "".

(** The next [execute_script] raises, or returns [null] or the empty
    string. *)
Definition fails_next (dt : nat) (w : world) : Prop :=
  (next_script (env w)).2 = dt ∧
  match (next_script (env w)).1 with
  | OnDemandTokenServer.JsValue v => OnDemandTokenServer.truthy_str v = None
  | OnDemandTokenServer.JsError => True
  end.

(** [w'] comes after [w] in the life of one worker: the counter is as it
    was, the event has not been unset, and if no coming [quit] raised
    before, none does now. *)
Definition steady (w w' : world) : Prop :=
  workers_running w' = workers_running w ∧
  (shutdown_after w' ≤ shutdown_after w)%nat ∧
  (quits_succeed w -> quits_succeed w').

(** A computation all of whose runs are steady, one that does not raise
    as long as no [quit] does, and one that says [Break] only when the
    event is set. *)
Definition keeps {A} (m : py world A) : Prop :=
  ∀ w r w', m w = (r, w') -> steady w w'.
Definition safe {A} (m : py world A) : Prop :=
  ∀ w r w', m w = (r, w') -> quits_succeed w -> ∃ a, r = Ok a.
Definition break_means_set (m : py world flow) : Prop :=
  ∀ w w', m w = (Ok Break, w') -> shutdown_after w' = 0%nat.

(** A computation that makes no more solves than [is_set()] calls that
    find the event unset. *)
Definition thrifty {A} (m : py world A) : Prop :=
  ∀ w r w', m w = (r, w') ->
    (solves w' + shutdown_after w' ≤ solves w + shutdown_after w)%nat.

(** The next call decided by [l] does not raise. *)
Definition succeeds (l : list (option exn)) : Prop :=
  match l with
  | Some _ :: _ => False
  | _ => True
  end.

(** *** Sample workers *)

(** A worker with a browser at hand whose next solve takes [dt] seconds
    and returns a token, at time 1000 over an empty store. *)
Definition sample_worker (dt : nat) (fs : list bool) : world :=
  mk_world (init 1000 fs) 1 3 (Some 0%nat)
    (mk_browser [] []
       [(OnDemandTokenServer.JsValue (Some "P1_eyJ0eXAi.0123456789"), dt)] [])
    [OnDemandTokenServer.CallDriver].

(** A worker whose next solve returns [null]. *)
Definition sample_failing_worker : world :=
  mk_world (init 1000 []) 1 3 (Some 0%nat)
    (mk_browser [] [] [(OnDemandTokenServer.JsValue None, 1%nat)] [])
    [OnDemandTokenServer.CallDriver].

(** A call of [token_worker] that has not begun, with its event set
    already or set after two [is_set()] calls. *)
Definition sample_queued (n : nat) : world :=
  mk_world (init 1000 []) 2 n None
    (mk_browser [] []
       [(OnDemandTokenServer.JsValue (Some "P1_eyJ0eXAi.0123456789"), 1%nat)] [])
    [].

End TokenWorker.

(** * Properties *)

(** ** The sorted set *)

Module RedisFacts.
Import Redis.

Lemma zpick_fold_None (l : list (string * Z)) :
  foldr zpick None l = None -> l = [].
Proof.
  destruct l as [|e l]; [done|]. simpl.
  destruct (foldr zpick None l); discriminate.
Qed.

(** The fold returns an element of the list whose score bounds all the
    others. *)
Lemma zpick_fold_Some (l : list (string * Z)) (e : string * Z) :
  foldr zpick None l = Some e ->
  e ∈ l ∧ ∀ e', e' ∈ l -> e'.2 ≤ e.2.
Proof.
  revert e. induction l as [|x l IH]; intros e; simpl; [discriminate|].
  destruct (foldr zpick None l) as [a|] eqn:Hfold; simpl.
  - destruct (IH a eq_refl) as [Ha Hmax].
    unfold zentry_ltb.
    destruct (a.2 <? x.2) eqn:Hlt; simpl.
    + intros [= <-]. split; [left|].
      intros e' [->|He']%elem_of_cons; [lia|].
      apply Z.ltb_lt in Hlt. specialize (Hmax e' He'). lia.
    + apply Z.ltb_ge in Hlt.
      destruct (a.2 =? x.2) eqn:Heq; simpl.
      * apply Z.eqb_eq in Heq.
        destruct (String.ltb a.1 x.1); intros [= <-].
        -- split; [left|].
           intros e' [->|He']%elem_of_cons; [lia|].
           specialize (Hmax e' He'). lia.
        -- split; [by right|].
           intros e' [->|He']%elem_of_cons; [lia|by apply Hmax].
      * intros [= <-]. split; [by right|].
        intros e' [->|He']%elem_of_cons; [lia|by apply Hmax].
  - intros [= <-]. apply zpick_fold_None in Hfold as ->.
    split; [left|]. intros e' ->%list_elem_of_singleton. lia.
Qed.

Lemma zmax_empty : zmax ∅ = None.
Proof. unfold zmax. by rewrite map_to_list_empty. Qed.

Lemma zmax_None (z : gmap string Z) : zmax z = None -> z = ∅.
Proof.
  unfold zmax. intros H%zpick_fold_None. by apply map_to_list_empty_iff.
Qed.

Lemma zmax_Some (z : gmap string Z) (k : string) (sc : Z) :
  zmax z = Some (k, sc) ->
  z !! k = Some sc ∧ ∀ k' sc', z !! k' = Some sc' -> sc' ≤ sc.
Proof.
  unfold zmax. intros [Hin Hmax]%zpick_fold_Some. split.
  - by apply elem_of_map_to_list in Hin.
  - intros k' sc' H'. apply elem_of_map_to_list in H'.
    apply (Hmax (k', sc') H').
Qed.

Lemma zmax_is_Some (z : gmap string Z) (k : string) (sc : Z) :
  z !! k = Some sc -> is_Some (zmax z).
Proof.
  intros Hk. destruct (zmax z) eqn:Hz; [eauto|].
  apply zmax_None in Hz. subst. by rewrite lookup_empty in Hk.
Qed.

End RedisFacts.

(** ** The token store *)

Module StoreFacts.
Import Redis RedisFacts RestTokenManager.

(** The keys of the value entries and the key of the index are apart. *)
Lemma token_key_not_sorted_set_key (td : token_data) :
  token_key_of td ≠ token_sorted_set_key.
Proof. unfold token_key_of, token_sorted_set_key. simpl. discriminate. Qed.

Lemma redis_call_calm {A}
    (cmd : Z -> store token_data -> A * store token_data) (w : world) :
  calm w ->
  redis_call cmd w =
    (Ok (cmd (clock w) (redis w)).1,
     mk_world (token_expiry w) (cmd (clock w) (redis w)).2 (clock w) []).
Proof.
  unfold calm, redis_call. intros ->. by destruct (cmd _ _).
Qed.

(** The two writes of [add_token] when the connection holds. *)
Lemma add_token_calm (td : token_data) (w : world) :
  calm w -> 0 < token_expiry w ->
  add_token td w =
    (Ok tt,
     mk_world (token_expiry w)
       (zadd (token_key_of td) (timestamp td)
          (setex (token_key_of td) (token_expiry w) td (clock w) (redis w)))
       (clock w) []).
Proof.
  intros Hc He. unfold add_token, client_setex, client_zadd.
  unfold mbind, py_mbind, py_bind, gets. simpl.
  destruct (token_expiry w <=? 0) eqn:Hle; [apply Z.leb_le in Hle; lia|].
  rewrite redis_call_calm by done. simpl.
  by rewrite redis_call_calm.
Qed.

(** [get_newest_token] when the connection holds, case by case. *)
Lemma get_newest_token_calm (w : world) :
  calm w ->
  get_newest_token w =
    match zmax (zset (redis w)) with
    | None => (Ok None, w)
    | Some (k, sc) =>
        let s1 := mk_store (strings (redis w)) (delete k (zset (redis w))) in
        match get k (clock w) (redis w) with
        | None => (Ok None, mk_world (token_expiry w) s1 (clock w) [])
        | Some td =>
            (Ok (Some td),
             mk_world (token_expiry w)
               (mk_store (delete k (strings (redis w)))
                  (delete k (zset (redis w))))
               (clock w) [])
        end
    end.
Proof.
  intros Hc. unfold get_newest_token, get_newest_token_try, try_except.
  unfold client_zpopmax, client_get, client_delete.
  unfold mbind, py_mbind, py_bind.
  rewrite redis_call_calm by done. unfold zpopmax. simpl.
  destruct (zmax (zset (redis w))) as [[k sc]|] eqn:Hz; simpl.
  - unfold get. simpl.
    destruct (strings (redis w) !! k) as [[td dl]|] eqn:Hk; simpl; [|done].
    by destruct (clock w <? dl) eqn:Hlt.
  - destruct w as [e s c f]. unfold calm in Hc. simpl in *. subst.
    by destruct s.
Qed.

Lemma total_nonneg (ds : list Z) : Forall (fun d => 0 ≤ d) ds -> 0 ≤ total ds.
Proof. induction 1; simpl; lia. Qed.

Lemma total_app (ds1 ds2 : list Z) : total (ds1 ++ ds2) = total ds1 + total ds2.
Proof. induction ds1; simpl; lia. Qed.

(** *** Writing keeps the store coherent *)

Lemma add_coherent (T now e : Z) (td : token_data) (s : store token_data) :
  coherent T s ->
  (∀ k, zset s !! k ≠ Some (timestamp td)) ->
  T ≤ now + e ->
  coherent T (zadd (token_key_of td) (timestamp td)
                (setex (token_key_of td) e td now s)).
Proof.
  intros [Hval Hdist] Hfresh HT. split; simpl.
  - intros k sc Hk.
    destruct (decide (token_key_of td = k)) as [<-|Hne].
    + rewrite lookup_insert_eq in Hk. injection Hk as <-.
      exists td, (now + e). by rewrite lookup_insert_eq.
    + rewrite lookup_insert_ne in Hk by done.
      rewrite lookup_insert_ne by done. by apply Hval.
  - intros k1 k2 sc H1 H2.
    destruct (decide (token_key_of td = k1)) as [<-|Hne1];
      destruct (decide (token_key_of td = k2)) as [<-|Hne2]; [done|..].
    + rewrite lookup_insert_eq in H1. injection H1 as <-.
      rewrite lookup_insert_ne in H2 by done. by destruct (Hfresh k2).
    + rewrite lookup_insert_eq in H2. injection H2 as <-.
      rewrite lookup_insert_ne in H1 by done. by destruct (Hfresh k1).
    + rewrite lookup_insert_ne in H1, H2 by done. by eapply Hdist.
Qed.

Lemma add_stored (now e : Z) (td : token_data) (s : store token_data) :
  stored (zadd (token_key_of td) (timestamp td)
            (setex (token_key_of td) e td now s)) td.
Proof.
  split; simpl; [by rewrite lookup_insert_eq|].
  exists (now + e). by rewrite lookup_insert_eq.
Qed.

Lemma add_stored_other (now e : Z) (td td' : token_data) (s : store token_data) :
  token_key_of td ≠ token_key_of td' ->
  stored s td' ->
  stored (zadd (token_key_of td) (timestamp td)
            (setex (token_key_of td) e td now s)) td'.
Proof.
  intros Hne [Hz [dl Hs]]. split; simpl.
  - by rewrite lookup_insert_ne.
  - exists dl. by rewrite lookup_insert_ne.
Qed.

(** A run of [add_token] calls on a coherent store, the connection holding
    and no value written by the run expiring before [T]. *)
Lemma add_tokens_coherent (T : Z) (calls : list (Z * token_data)) :
  ∀ w : world,
    calm w -> 0 < token_expiry w -> coherent T (redis w) ->
    Forall (fun c => 0 ≤ c.1) calls ->
    T ≤ clock w + token_expiry w ->
    NoDup ((fun c => timestamp c.2) <$> calls) ->
    (∀ c k, c ∈ calls -> zset (redis w) !! k ≠ Some (timestamp c.2)) ->
    ∃ w',
      add_tokens calls w = (Ok tt, w') ∧
      calm w' ∧ token_expiry w' = token_expiry w ∧
      clock w' = clock w + total (fst <$> calls) ∧
      coherent T (redis w') ∧
      (∀ k sc, zset (redis w') !! k = Some sc ->
         zset (redis w) !! k = Some sc ∨ ∃ c, c ∈ calls ∧ timestamp c.2 = sc) ∧
      (∀ td, stored (redis w) td ->
         (∀ c, c ∈ calls -> token_key_of c.2 ≠ token_key_of td) ->
         stored (redis w') td) ∧
      (NoDup ((fun c => token_key_of c.2) <$> calls) ->
       ∀ c, c ∈ calls -> stored (redis w') c.2) ∧
      (size (zset (redis w')) ≤ size (zset (redis w)) + length calls)%nat ∧
      (∀ td, stored (redis w') td ->
         stored (redis w) td ∨ ∃ c, c ∈ calls ∧ c.2 = td).
Proof.
  induction calls as [|[d td] calls IH]; intros w Hc He Hcoh Hd HT Hnd Hfresh.
  - exists w. simpl. split_and!; try done; try lia.
    + intros k sc Hk. by left.
    + intros _ c Hin. by apply elem_of_nil in Hin.
    + intros td Hst. by left.
  - apply Forall_cons in Hd as [Hd0 Hd]. simpl in Hd0.
    rewrite fmap_cons in Hnd. apply NoDup_cons in Hnd as [Hts Hnd].
    pose (w0 := tick d w).
    pose (w1 := mk_world (token_expiry w)
                  (zadd (token_key_of td) (timestamp td)
                     (setex (token_key_of td) (token_expiry w) td
                        (clock w + d) (redis w)))
                  (clock w + d) []).
    assert (Hrun : add_token td w0 = (Ok tt, w1)).
    { rewrite add_token_calm; done. }
    destruct (IH w1)
      as (w' & Hrun' & Hc' & He' & Hclk & Hcoh' & Hsc & Hkeep & Hall & Hsize & Hfrom).
    + done.
    + done.
    + apply add_coherent; [done| |simpl; lia].
      intros k. apply (Hfresh (d, td)). left.
    + done.
    + simpl. lia.
    + done.
    + intros c k Hin. simpl.
      destruct (decide (token_key_of td = k)) as [<-|Hne].
      * rewrite lookup_insert_eq. intros [= Heq].
        apply Hts. apply list_elem_of_fmap. by exists c.
      * rewrite lookup_insert_ne by done. apply Hfresh. by right.
    + exists w'. split_and!; [|done|done| |done|..].
      * simpl. unfold mbind, py_mbind, py_bind, modify. fold w0.
        rewrite Hrun. exact Hrun'.
      * rewrite Hclk, fmap_cons. unfold w1, total. cbn [clock foldr fst]. lia.
      * intros k sc Hk. destruct (Hsc k sc Hk) as [Hold|(c & Hin & Heq)].
        -- simpl in Hold.
           destruct (decide (token_key_of td = k)) as [<-|Hne].
           ++ rewrite lookup_insert_eq in Hold. injection Hold as <-.
              right. exists (d, td). split; [left|done].
           ++ rewrite lookup_insert_ne in Hold by done. by left.
        -- right. exists c. split; [by right|done].
      * intros td0 Hst Hkeys. apply Hkeep.
        -- apply add_stored_other; [|done]. apply (Hkeys (d, td)). left.
        -- intros c Hin. apply Hkeys. by right.
      * intros Hndk c Hin. rewrite fmap_cons in Hndk.
        apply NoDup_cons in Hndk as [Hk Hndk].
        apply elem_of_cons in Hin as [->|Hin].
        -- apply Hkeep; [apply add_stored|].
           intros c Hin Heq. apply Hk.
           apply list_elem_of_fmap. exists c. by rewrite Heq.
        -- by apply Hall.
      * etrans; [exact Hsize|]. simpl.
        rewrite map_size_insert.
        destruct (zset (redis w) !! token_key_of td); simpl; lia.
      * intros td0 Hst. destruct (Hfrom td0 Hst) as [Hst1|(c & Hin & Heq)].
        -- destruct (decide (token_key_of td = token_key_of td0)) as [Heq|Hne].
           ++ right. exists (d, td). split; [left|].
              destruct Hst1 as [_ [dl Hs]]. unfold w1 in Hs. simpl in Hs.
              rewrite <- Heq, lookup_insert_eq in Hs. by injection Hs.
           ++ left. destruct Hst1 as [Hz [dl Hs]].
              unfold w1 in Hz, Hs. simpl in Hz, Hs.
              rewrite lookup_insert_ne in Hz by done.
              rewrite lookup_insert_ne in Hs by done.
              split; [done|by exists dl].
        -- right. exists c. split; [by right|done].
Qed.

(** *** Reading a coherent store *)

(** One [get_newest_token] on a coherent store whose index is not empty:
    the record with the highest score comes back and both its entries go. *)
Lemma get_newest_token_coherent (T : Z) (w : world) (k : string) (sc : Z) :
  calm w -> coherent T (redis w) -> clock w < T ->
  zmax (zset (redis w)) = Some (k, sc) ->
  ∃ td deadline,
    strings (redis w) !! k = Some (td, deadline) ∧
    k = token_key_of td ∧ timestamp td = sc ∧
    get_newest_token w =
      (Ok (Some td),
       mk_world (token_expiry w)
         (mk_store (delete k (strings (redis w))) (delete k (zset (redis w))))
         (clock w) []).
Proof.
  intros Hc [Hval _] HT Hz.
  destruct (zmax_Some _ _ _ Hz) as [Hk _].
  destruct (Hval k sc Hk) as (td & dl & Hs & Hkey & Hts & Hdl).
  exists td, dl. split_and!; try done.
  rewrite get_newest_token_calm by done. rewrite Hz. simpl.
  unfold get. rewrite Hs.
  destruct (clock w <? dl) eqn:Hlt; [done|]. apply Z.ltb_ge in Hlt. lia.
Qed.

Lemma coherent_delete (T : Z) (k : string) (s : store token_data) :
  coherent T s ->
  coherent T (mk_store (delete k (strings s)) (delete k (zset s))).
Proof.
  intros [Hval Hdist]. split; simpl.
  - intros k' sc Hk'. apply lookup_delete_Some in Hk' as [Hne Hk'].
    destruct (Hval k' sc Hk') as (td & dl & Hs & ?).
    exists td, dl. by rewrite lookup_delete_ne.
  - intros k1 k2 sc [_ H1]%lookup_delete_Some [_ H2]%lookup_delete_Some.
    by eapply Hdist.
Qed.

Lemma stored_delete (k : string) (s : store token_data) (td : token_data) :
  stored (mk_store (delete k (strings s)) (delete k (zset s))) td ->
  token_key_of td ≠ k ∧ stored s td.
Proof.
  intros [Hz [dl Hs]]. simpl in Hz, Hs.
  apply lookup_delete_Some in Hz as [Hne Hz].
  apply lookup_delete_Some in Hs as [_ Hs].
  split; [done|]. split; [done|by exists dl].
Qed.

(** A run of [get_newest_token] calls on a coherent store, all of them
    before [T]. *)
Lemma pop_tokens_coherent (T : Z) (delays : list Z) :
  ∀ w : world,
    calm w -> coherent T (redis w) ->
    Forall (fun d => 0 ≤ d) delays ->
    clock w + total delays < T ->
    ∃ out w',
      pop_tokens delays w =
        (Ok ((Some <$> out) ++
             replicate (length delays - length out)%nat None)%list, w') ∧
      length out = (length delays `min` size (zset (redis w)))%nat ∧
      StronglySorted (fun a b => timestamp b < timestamp a) out ∧
      (∀ td, td ∈ out -> stored (redis w) td) ∧
      size (zset (redis w')) = (size (zset (redis w)) - length out)%nat ∧
      (∀ td, stored (redis w) td -> td ∈ out ∨ stored (redis w') td).
Proof.
  induction delays as [|d delays IH]; intros w Hc Hcoh Hd HT.
  - exists [], w. simpl. split_and!; try done; try lia.
    + constructor.
    + intros td Hin. by apply elem_of_nil in Hin.
    + intros td Hst. by right.
  - apply Forall_cons in Hd as [Hd0 Hd].
    pose proof (total_nonneg _ Hd) as Hnn. simpl in HT.
    pose (w0 := tick d w).
    assert (Hc0 : calm w0) by done.
    cbn [pop_tokens]. unfold mbind, py_mbind, py_bind, modify. fold w0.
    destruct (zmax (zset (redis w0))) as [[k sc]|] eqn:Hz.
    + destruct (get_newest_token_coherent T w0 k sc) as
        (td & dl & Hs & Hkey & Hts & Hrun); [done|done|simpl; lia|done|].
      rewrite Hrun.
      destruct (zmax_Some _ _ _ Hz) as [Hk Hmax].
      unfold w0 in Hk, Hmax, Hs. simpl in Hk, Hmax, Hs.
      match goal with |- context [pop_tokens delays ?w1] =>
        destruct (IH w1) as (out & w' & Hrun' & Hlen & Hsort & Hin & Hsize & Hall)
      end; [done|by apply coherent_delete|done|simpl; lia|].
      simpl in Hlen, Hin, Hsize, Hall.
      assert (Hsz : size (zset (redis w)) = S (size (delete k (zset (redis w))))).
      { rewrite <- (insert_id _ _ _ Hk) at 1. rewrite <- insert_delete_eq.
        apply map_size_insert_None, lookup_delete_eq. }
      exists (td :: out), w'. rewrite Hrun'. split_and!.
      * done.
      * simpl. rewrite Hlen, Hsz. lia.
      * constructor; [done|]. apply Forall_forall. intros b Hb.
        destruct (stored_delete _ _ _ (Hin b Hb)) as [Hne [Hzb _]].
        pose proof (Hmax _ _ Hzb) as Hle.
        destruct Hcoh as [_ Hdist].
        destruct (decide (timestamp b = sc)) as [Heq|Hneq]; [|lia].
        exfalso. apply Hne. eapply Hdist; [exact Hzb|]. by rewrite Heq.
      * intros b [->|Hb]%elem_of_cons.
        -- split; [by rewrite <- Hkey, Hts|]. exists dl. by rewrite <- Hkey.
        -- by apply (stored_delete k), Hin.
      * rewrite Hsize. simpl. rewrite Hsz. lia.
      * intros b Hst.
        destruct (decide (token_key_of b = k)) as [Heq|Hne].
        -- left. destruct Hst as [_ [dl' Hs']]. rewrite Heq in Hs'.
           rewrite Hs in Hs'. injection Hs' as -> _. left.
        -- destruct (Hall b) as [Hb|Hb]; [|left; by right|by right].
           destruct Hst as [Hzb [dl' Hs']]. split; simpl.
           ++ by rewrite lookup_delete_ne.
           ++ exists dl'. by rewrite lookup_delete_ne.
    + rewrite get_newest_token_calm by done. rewrite Hz.
      destruct (IH w0) as (out & w' & Hrun' & Hlen & Hsort & Hin & Hsize & Hall);
        [done|done|done|simpl; lia|].
      apply zmax_None in Hz. simpl in Hz, Hlen, Hin, Hsize, Hall.
      rewrite Hz, map_size_empty in Hlen.
      assert (out = []) as -> by (destruct out; [done|simpl in Hlen; lia]).
      exists [], w'. rewrite Hrun'. simpl. rewrite Hz. simpl.
      split_and!; try done; try lia.
      * by rewrite Nat.sub_0_r.
      * rewrite Hsize, Hz. simpl. lia.
Qed.

Lemma coherent_empty (T : Z) : coherent T Redis.empty.
Proof.
  split; simpl; intros *; by rewrite lookup_empty.
Qed.

Lemma strictly_decreasing_NoDup (l : list token_data) :
  StronglySorted (fun a b => timestamp b < timestamp a) l -> NoDup l.
Proof.
  induction 1 as [|a l _ IH Hall]; constructor; [|done].
  intros Hin. rewrite Forall_forall in Hall. specialize (Hall a Hin). lia.
Qed.

(** Pops only remove, and what a run of pops leaves in the store is older
    than everything the run returned. *)
Lemma pop_tokens_leaves_older (T : Z) (delays : list Z) :
  ∀ (w w' : world) (rs : list (option token_data)),
    calm w -> coherent T (redis w) ->
    Forall (fun d => 0 ≤ d) delays ->
    clock w + total delays < T ->
    pop_tokens delays w = (Ok rs, w') ->
    (∀ td, stored (redis w') td -> stored (redis w) td) ∧
    (∀ td td', Some td ∈ rs -> stored (redis w') td' ->
       timestamp td' < timestamp td).
Proof.
  induction delays as [|d delays IH]; intros w w' rs Hc Hcoh Hd HT.
  - intros [= <- <-]. split; [done|].
    intros td td' Hin. by apply elem_of_nil in Hin.
  - apply Forall_cons in Hd as [Hd0 Hd].
    pose proof (total_nonneg _ Hd) as Hnn. simpl in HT.
    pose (w0 := tick d w).
    assert (Hc0 : calm w0) by done.
    cbn [pop_tokens]. unfold mbind, py_mbind, py_bind, modify. fold w0.
    destruct (zmax (zset (redis w0))) as [[k sc]|] eqn:Hz.
    + destruct (get_newest_token_coherent T w0 k sc) as
        (td & dl & Hs & Hkey & Hts & Hrun); [done|done|simpl; lia|done|].
      rewrite Hrun.
      destruct (zmax_Some _ _ _ Hz) as [Hk Hmax].
      unfold w0 in Hk, Hmax, Hs. simpl in Hk, Hmax, Hs.
      match goal with |- context [pop_tokens delays ?w1] =>
        destruct (pop_tokens delays w1) as [[rs'|e] w''] eqn:Hrest;
        [apply IH in Hrest as [Hmono Hold];
         [|done|by apply coherent_delete|done|simpl; lia]|]
      end; [|done].
      intros [= <- <-]. simpl in Hmono, Hold.
      assert (Hmono' : ∀ x, stored (redis w'') x ->
                token_key_of x ≠ k ∧ stored (redis w) x).
      { intros x Hx. by apply stored_delete, Hmono. }
      split; [intros x Hx; by apply Hmono'|].
      intros x y [[= <-]|Hin]%elem_of_cons Hy; [|by eapply Hold].
      destruct (Hmono' y Hy) as [Hne [Hzy _]].
      pose proof (Hmax _ _ Hzy) as Hle.
      destruct Hcoh as [_ Hdist].
      destruct (decide (timestamp y = sc)) as [Heq|Hneq]; [|lia].
      exfalso. apply Hne. eapply Hdist; [exact Hzy|]. by rewrite Heq.
    + rewrite get_newest_token_calm by done. rewrite Hz.
      destruct (pop_tokens delays w0) as [[rs'|e] w''] eqn:Hrest; [|done].
      apply IH in Hrest as [Hmono Hold]; [|done|done|done|simpl; lia].
      intros [= <- <-]. split; [done|].
      intros x y [[=]|Hin]%elem_of_cons Hy. by eapply Hold.
Qed.

(** Distinct members of the index count towards its size. *)
Lemma index_size_ge (z : gmap string Z) (keys : list string) :
  NoDup keys -> (∀ k, k ∈ keys -> is_Some (z !! k)) ->
  (length keys ≤ size z)%nat.
Proof.
  intros Hnd Hin. rewrite <- (length_map_to_list z).
  rewrite <- (length_fmap fst (map_to_list z)).
  apply submseteq_length, NoDup_submseteq; [done|].
  intros k [sc Hk]%Hin. apply list_elem_of_fmap. exists (k, sc).
  split; [done|]. by apply elem_of_map_to_list.
Qed.

(** C1.  A run of [add_token] calls with pairwise distinct timestamps and
    pairwise distinct keys on an empty store, followed by
    [get_newest_token] calls (the connection holding, and the whole run
    shorter than the expiry of a value): the calls return records that
    were written, in strictly decreasing timestamp order and newest first
    (every written record that was not returned is older than every
    record returned), one record per call until all are returned, and
    nothing afterwards.  With at least as many calls as records, every
    written record is returned and the index is empty at the end. *)
Theorem pops_return_newest_first
    (adds : list (Z * token_data)) (pops : list Z) (w0 : world) :
  redis w0 = Redis.empty -> calm w0 ->
  NoDup ((fun c => timestamp c.2) <$> adds) ->
  NoDup ((fun c => token_key_of c.2) <$> adds) ->
  Forall (fun d => 0 ≤ d) ((fst <$> adds) ++ pops) ->
  total ((fst <$> adds) ++ pops) < token_expiry w0 ->
  ∃ w1 out w2,
    add_tokens adds w0 = (Ok tt, w1) ∧
    pop_tokens pops w1 =
      (Ok ((Some <$> out) ++
           replicate (length pops - length out)%nat None)%list, w2) ∧
    StronglySorted (fun a b => timestamp b < timestamp a) out ∧
    length out = (length pops `min` length adds)%nat ∧
    (∀ td, td ∈ out -> td ∈ snd <$> adds) ∧
    (∀ td td', td ∈ out -> td' ∈ snd <$> adds -> td' ∉ out ->
       timestamp td' < timestamp td) ∧
    ((length adds ≤ length pops)%nat ->
       out ≡ₚ snd <$> adds ∧ zcard (redis w2) = 0).
Proof.
  intros Hempty Hc Hnd Hkeys Hd Htot.
  apply Forall_app in Hd as [Hda Hdp]. rewrite total_app in Htot.
  pose proof (total_nonneg _ Hda) as Hna.
  pose proof (total_nonneg _ Hdp) as Hnp.
  set (T := clock w0 + total (fst <$> adds) + total pops + 1).
  destruct (add_tokens_coherent T adds w0)
    as (w1 & Hrun1 & Hc1 & He1 & Hclk1 & Hcoh1 & _ & _ & Hall1 & Hsize1 & Hfrom1).
  { done. } { lia. } { rewrite Hempty. apply coherent_empty. }
  { apply Forall_forall. intros c Hin. rewrite Forall_forall in Hda.
    apply Hda, list_elem_of_fmap. by exists c. }
  { unfold T. lia. } { done. }
  { intros c k _. rewrite Hempty. simpl. by rewrite lookup_empty. }
  specialize (Hall1 Hkeys).
  destruct (pop_tokens_coherent T pops w1)
    as (out & w2 & Hrun2 & Hlen & Hsort & Hin & Hsize2 & Hall2);
    [done|done|done|unfold T; lia|].
  destruct (pop_tokens_leaves_older T pops _ _ _ Hc1 Hcoh1 Hdp
              ltac:(unfold T; lia) Hrun2) as [_ Hold].
  rewrite Hempty in Hsize1, Hfrom1. simpl in Hsize1, Hfrom1.
  rewrite map_size_empty in Hsize1.
  assert (Hadded : ∀ td, stored (redis w1) td -> td ∈ snd <$> adds).
  { intros td Hst. destruct (Hfrom1 td Hst) as [[Hz _]|(c & Hc' & <-)].
    - simpl in Hz. by rewrite lookup_empty in Hz.
    - apply list_elem_of_fmap. by exists c. }
  assert (Hstored : ∀ td, td ∈ snd <$> adds -> stored (redis w1) td).
  { intros td (c & -> & Hc')%list_elem_of_fmap. by apply Hall1. }
  assert (Hsize : size (zset (redis w1)) = length adds).
  { apply Nat.le_antisymm; [lia|].
    rewrite <- (length_fmap (fun c => token_key_of c.2) adds).
    apply index_size_ge; [done|].
    intros k (c & -> & Hc')%list_elem_of_fmap.
    destruct (Hall1 c Hc') as [Hz _]. by eexists. }
  exists w1, out, w2. split_and!; try done.
  - by rewrite Hlen, Hsize.
  - intros td Htd. by apply Hadded, Hin.
  - intros td td' Htd Htd' Hnot. apply (Hold td td').
    + apply elem_of_app. left. apply list_elem_of_fmap. by exists td.
    + destruct (Hall2 td' (Hstored td' Htd')) as [?|?]; done.
  - intros Hle.
    assert (Hz2 : size (zset (redis w2)) = 0%nat) by lia.
    split; [|unfold zcard; by rewrite Hz2].
    apply NoDup_Permutation.
    + by apply strictly_decreasing_NoDup.
    + apply (NoDup_fmap_1 timestamp). by rewrite <- list_fmap_compose.
    + intros td. split; [intros Htd; by apply Hadded, Hin|].
      intros Htd. destruct (Hall2 td (Hstored td Htd)) as [?|[Hz _]]; [done|].
      apply map_size_empty_inv in Hz2. rewrite Hz2 in Hz.
      by rewrite lookup_empty in Hz.
Qed.

Lemma pops_return_newest_first_witness :
  ∃ w1 out w2,
    add_tokens sample_adds (init 106 []) = (Ok tt, w1) ∧
    pop_tokens [1; 1; 1; 1] w1 =
      (Ok ((Some <$> out) ++ replicate (4 - length out)%nat None)%list, w2) ∧
    StronglySorted (fun a b => timestamp b < timestamp a) out ∧
    length out = (4 `min` 3)%nat ∧
    (∀ td, td ∈ out -> td ∈ snd <$> sample_adds) ∧
    (∀ td td', td ∈ out -> td' ∈ snd <$> sample_adds -> td' ∉ out ->
       timestamp td' < timestamp td) ∧
    ((3 ≤ 4)%nat -> out ≡ₚ snd <$> sample_adds ∧ zcard (redis w2) = 0).
Proof.
  apply (pops_return_newest_first sample_adds [1; 1; 1; 1] (init 106 [])).
  - reflexivity.
  - reflexivity.
  - apply (bool_decide_unpack _). vm_compute. reflexivity.
  - apply (bool_decide_unpack _). vm_compute. reflexivity.
  - repeat constructor; simpl; lia.
  - vm_compute. reflexivity.
Defined.

(** The claim without the provisos fails.  Two records with distinct
    timestamps whose tokens end in the same ten characters: the second
    write replaces the first, and two pops return the record of 105 and
    then nothing; the record of 100 is never returned.  Two records with
    distinct keys popped 121 seconds after they were written: both pops
    return nothing although the index had two entries.  A connection that
    fails at the first pop: that pop returns nothing although two records
    are stored, and the next one returns the newest.  A store that begins
    with an index entry whose value has expired: the first pop returns
    nothing although the record just added is stored. *)
Lemma pops_miss_records :
  (let a := sample_record "P1_first.0123456789" 100 in
   let b := sample_record "P1_second.0123456789" 105 in
   timestamp a ≠ timestamp b ∧
   (_ ← add_tokens [(0, a); (0, b)]; pop_tokens [0; 0]) (init 106 []) =
     (Ok [Some b; None], mk_world 120 Redis.empty 106 [])) ∧
  (let a := sample_record "P1_first.aaaaaaaaaa" 100 in
   let b := sample_record "P1_second.bbbbbbbbbb" 105 in
   timestamp a ≠ timestamp b ∧ token_key_of a ≠ token_key_of b ∧
   ((_ ← add_tokens [(0, a); (0, b)]; get_token_count) (init 106 [])).1 =
     Ok 2 ∧
   ((_ ← add_tokens [(0, a); (0, b)]; pop_tokens [121; 0]) (init 106 [])).1 =
     Ok [None; None] ∧
   ((_ ← add_tokens [(0, a); (0, b)]; pop_tokens [0; 0])
      (init 106 [false; false; false; false; true])).1 =
     Ok [None; Some b]) ∧
  (let a := sample_record "P1_first.aaaaaaaaaa" 50 in
   (get_token_count stale_world).1 = Ok 1 ∧
   ((_ ← add_tokens [(0, a)]; pop_tokens [0; 0]) stale_world).1 =
     Ok [None; Some a]).
Proof. split_and!; vm_compute; split_and!; done. Qed.

(** The scenario of the specification, run: timestamps 100, 105, 103 go in
    and come out as 105, 103, 100; a fourth call finds nothing. *)
Example pops_scenario :
  (_ ← add_tokens sample_adds; pop_tokens [1; 1; 1; 1]) (init 106 []) =
    (Ok [Some (sample_record "P1_eyJ0eXAiOiJKV1QiLCJhbGciOiJIUzI1NiJ9.bbb" 105);
         Some (sample_record "P1_eyJ0eXAiOiJKV1QiLCJhbGciOiJIUzI1NiJ9.ccc" 103);
         Some (sample_record "P1_eyJ0eXAiOiJKV1QiLCJhbGciOiJIUzI1NiJ9.aaa" 100);
         None],
     mk_world 120 Redis.empty 112 []).
Proof. vm_compute. reflexivity. Qed.

(** *** Misses *)

Lemma get_newest_token_empty (w : world) :
  zset (redis w) = ∅ ->
  ∃ w', get_newest_token w = (Ok None, w') ∧ redis w' = redis w.
Proof.
  intros Hz.
  unfold get_newest_token, get_newest_token_try, try_except, client_zpopmax.
  unfold mbind, py_mbind, py_bind, redis_call, zpopmax.
  rewrite Hz, zmax_empty.
  destruct (faults w) as [|[|] fs]; simpl; eexists; (split; [done|]);
    simpl; by destruct (redis w).
Qed.

Lemma get_newest_token_stale (w : world) (k : string) (sc : Z) :
  calm w ->
  zmax (zset (redis w)) = Some (k, sc) ->
  get k (clock w) (redis w) = None ->
  ∃ w', get_newest_token w = (Ok None, w') ∧
    zset (redis w') = delete k (zset (redis w)) ∧
    strings (redis w') = strings (redis w) ∧
    zcard (redis w') = zcard (redis w) - 1.
Proof.
  intros Hc Hmax Hget.
  rewrite get_newest_token_calm by done. rewrite Hmax. simpl.
  rewrite Hget. eexists. split; [done|]. simpl. split_and!; try done.
  destruct (zmax_Some _ _ _ Hmax) as [Hk _]. unfold zcard. simpl.
  rewrite <- (insert_id _ _ _ Hk) at 2. rewrite <- insert_delete_eq.
  rewrite map_size_insert_None by apply lookup_delete_eq. lia.
Qed.

(** C8.  On a store whose index is empty [get_newest_token] returns [None]
    and does not raise, whatever the connection does, and leaves the store
    as it is.  When the entry it takes from the index has no live value
    (expired or gone), it returns [None] as well, takes nothing else from
    the index (no second attempt) and leaves the value entries alone: the
    stale index entry is the only thing removed. *)
Theorem get_newest_token_miss (w : world) :
  (zset (redis w) = ∅ ->
     ∃ w', get_newest_token w = (Ok None, w') ∧ redis w' = redis w) ∧
  (∀ k sc,
     calm w ->
     zmax (zset (redis w)) = Some (k, sc) ->
     get k (clock w) (redis w) = None ->
     ∃ w', get_newest_token w = (Ok None, w') ∧
       zset (redis w') = delete k (zset (redis w)) ∧
       strings (redis w') = strings (redis w) ∧
       zcard (redis w') = zcard (redis w) - 1).
Proof.
  split; [apply get_newest_token_empty|].
  intros k sc. apply get_newest_token_stale.
Qed.

Lemma get_newest_token_miss_witness :
  (∃ w', get_newest_token (init 5 [true]) = (Ok None, w') ∧
     redis w' = redis (init 5 [true])) ∧
  (∃ w', get_newest_token stale_world = (Ok None, w') ∧
     zset (redis w') = delete "rest_token:0123456789" (zset (redis stale_world)) ∧
     strings (redis w') = strings (redis stale_world) ∧
     zcard (redis w') = zcard (redis stale_world) - 1).
Proof.
  split.
  - apply (proj1 (get_newest_token_miss (init 5 [true]))). reflexivity.
  - apply (proj2 (get_newest_token_miss stale_world) "rest_token:0123456789" 100).
    + reflexivity.
    + vm_compute. reflexivity.
    + vm_compute. reflexivity.
Defined.

(** *** Two records under one key *)

Lemma keyed_add (now e : Z) (td : token_data) (s : store token_data) :
  keyed s ->
  keyed (zadd (token_key_of td) (timestamp td)
           (setex (token_key_of td) e td now s)).
Proof.
  intros Hk k td' dl. simpl.
  destruct (decide (token_key_of td = k)) as [<-|Hne].
  - rewrite lookup_insert_eq. by intros [= <- _].
  - rewrite lookup_insert_ne by done. apply Hk.
Qed.

(** Whatever the connection does, [get_newest_token] returns only a record
    that some value entry held, and writes no value entry. *)
Lemma get_newest_token_holds (w w' : world) (r : outcome (option token_data)) :
  get_newest_token w = (r, w') ->
  (∀ td, r = Ok (Some td) -> holds (redis w) td) ∧
  (∀ td, holds (redis w') td -> holds (redis w) td).
Proof.
  unfold get_newest_token, get_newest_token_try, try_except.
  unfold client_zpopmax, client_get, client_delete.
  unfold mbind, py_mbind, py_bind, redis_call, zpopmax, get, del.
  destruct (faults w) as [|[|] fs]; cbn -[zmax];
    try (intros [= <- <-]; split; [discriminate|done]);
    (destruct (zmax (zset (redis w))) as [[k sc]|]; cbn -[zmax];
     [|intros [= <- <-]; split; [discriminate|done]]).
  all: try destruct fs as [|[|] fs]; cbn -[zmax];
    try (intros [= <- <-]; split; [discriminate|done]).
  all: destruct (strings (redis w) !! k) as [[td dl]|] eqn:Hk; cbn -[zmax];
    try (intros [= <- <-]; split; [discriminate|done]).
  all: destruct (clock w <? dl); cbn -[zmax];
    try (intros [= <- <-]; split; [discriminate|done]).
  all: try destruct fs as [|[|] fs]; cbn -[zmax];
    try (intros [= <- <-]; split; [discriminate|done]).
  all: intros [= <- <-];
    (split; [first [discriminate|intros ? [= <-]; by exists k, dl]|]);
    intros td' (k' & dl' & H'); simpl in H';
    first [by exists k', dl'
          |apply lookup_delete_Some in H' as [_ H']; by exists k', dl'].
Qed.

Lemma pop_tokens_holds (delays : list Z) :
  ∀ (w w' : world) (rs : list (option token_data)),
    pop_tokens delays w = (Ok rs, w') ->
    ∀ td, Some td ∈ rs -> holds (redis w) td.
Proof.
  induction delays as [|d delays IH]; intros w w' rs; simpl.
  - intros [= <- _] td Hin. by apply elem_of_nil in Hin.
  - unfold mbind, py_mbind, py_bind, modify.
    destruct (get_newest_token (tick d w)) as [r w1] eqn:Hpop.
    destruct (get_newest_token_holds _ _ _ Hpop) as [Hret Hkeep].
    destruct r as [r|e]; [|discriminate].
    destruct (pop_tokens delays w1) as [[rs'|e] w2] eqn:Hrest; [|discriminate].
    intros [= <- _] td [Heq|Hin]%elem_of_cons.
    + apply (Hret td). by rewrite Heq.
    + apply Hkeep. by eapply IH.
Qed.

(** [keyed] is an invariant of the store methods, whatever the connection
    does: they write a value entry only under the key of its record. *)
Lemma add_token_keyed (td : token_data) (w w' : world) (r : outcome unit) :
  add_token td w = (r, w') -> keyed (redis w) -> keyed (redis w').
Proof.
  intros Hrun Hk. revert Hrun.
  unfold add_token, client_setex, client_zadd.
  unfold mbind, py_mbind, py_bind, gets, raise, redis_call.
  pose proof (keyed_add (clock w) (token_expiry w) td (redis w) Hk) as Hk'.
  destruct (token_expiry w <=? 0);
    destruct (faults w) as [|[|] [|[|] fs]]; simpl;
    intros [= _ <-]; simpl; try done.
Qed.

Lemma get_newest_token_keyed (w w' : world) (r : outcome (option token_data)) :
  get_newest_token w = (r, w') -> keyed (redis w) -> keyed (redis w').
Proof.
  intros Hrun Hk k td dl Hs. apply (Hk k td dl). revert Hrun Hs.
  unfold get_newest_token, get_newest_token_try, try_except.
  unfold client_zpopmax, client_get, client_delete.
  unfold mbind, py_mbind, py_bind, redis_call, zpopmax, get, del.
  destruct (faults w) as [|[|] fs]; cbn -[zmax];
    try (by intros [= _ <-]);
    (destruct (zmax (zset (redis w))) as [[k0 sc]|]; cbn -[zmax];
     [|by intros [= _ <-]]).
  all: try destruct fs as [|[|] fs]; cbn -[zmax]; try (by intros [= _ <-]).
  all: destruct (strings (redis w) !! k0) as [[td0 dl0]|]; cbn -[zmax];
    try (by intros [= _ <-]).
  all: destruct (clock w <? dl0); cbn -[zmax]; try (by intros [= _ <-]).
  all: try destruct fs as [|[|] fs]; cbn -[zmax]; try (by intros [= _ <-]).
  all: intros [= _ <-]; simpl; try done;
    by intros [_ ?]%lookup_delete_Some.
Qed.

Lemma cleanup_stale_references_keyed (w w' : world) (r : outcome Z) :
  cleanup_stale_references w = (r, w') -> keyed (redis w) -> keyed (redis w').
Proof.
  unfold cleanup_stale_references, try_except, time_time.
  unfold client_zremrangebyscore_neg_inf, mbind, py_mbind, py_bind, gets.
  unfold redis_call.
  destruct (faults w) as [|[|] fs]; simpl; by intros [= _ <-].
Qed.

Lemma get_token_count_calm (w : world) :
  calm w ->
  get_token_count w =
    (Ok (zcard (redis w)), mk_world (token_expiry w) (redis w) (clock w) []).
Proof.
  intros Hc. unfold get_token_count, try_except, client_zcard.
  by rewrite redis_call_calm.
Qed.

(** *** The key of a record *)

Lemma string_length_app (p s : string) :
  String.length (p +:+ s) = (String.length p + String.length s)%nat.
Proof. induction p as [|c p IH]; simpl; [done|]. by rewrite IH. Qed.

Lemma substring_0_all (n : nat) (s : string) :
  (String.length s ≤ n)%nat -> substring 0 n s = s.
Proof.
  revert n. induction s as [|c s IH]; intros [|n] Hle; simpl in *;
    try done; try lia.
  rewrite IH by lia. done.
Qed.

Lemma substring_skip (p s : string) (n : nat) :
  substring (String.length p) n (p +:+ s) = substring 0 n s.
Proof. induction p as [|c p IH]; simpl; [done|]. exact IH. Qed.

(** [s[-n:]] is the string itself when it has at most [n] characters, and
    otherwise its last [n] characters. *)
Lemma py_suffix_short (n : nat) (s : string) :
  (String.length s ≤ n)%nat -> py_suffix n s = s.
Proof.
  intros Hle. unfold py_suffix.
  replace (String.length s - n)%nat with 0%nat by lia.
  by apply substring_0_all.
Qed.

Lemma py_suffix_app (p s : string) :
  py_suffix (String.length s) (p +:+ s) = s.
Proof.
  unfold py_suffix. rewrite string_length_app.
  replace (String.length p + String.length s - String.length s)%nat
    with (String.length p) by lia.
  rewrite substring_skip. by apply substring_0_all.
Qed.

Lemma token_key_of_suffix (td : token_data) (p s : string) :
  token td = p +:+ s -> String.length s = 10%nat ->
  token_key_of td = "rest_token:" +:+ s.
Proof.
  intros Htok Hlen. unfold token_key_of. rewrite Htok, <- Hlen.
  by rewrite py_suffix_app.
Qed.

(** C9.  The key of a record is ["rest_token:"] followed by the last ten
    characters of its token.  When two records whose tokens end in the same
    ten characters [s] are written one after the other (the connection
    holding), both go under the key ["rest_token:" ++ s] and the second
    write replaces the value entry and the index entry of the first: one
    record is stored for that suffix, the count is the same after the
    second write as after the first, and the first record, if it differs
    from the second, is not stored any more and no later
    [get_newest_token] returns it. *)
Theorem add_token_same_suffix_overwrites
    (td1 td2 : token_data) (p1 p2 s : string) (d : Z) (w : world) :
  calm w -> 0 < token_expiry w -> keyed (redis w) ->
  token td1 = p1 +:+ s -> token td2 = p2 +:+ s ->
  String.length s = 10%nat ->
  ∃ w1 w2,
    add_token td1 w = (Ok tt, w1) ∧
    add_token td2 (tick d w1) = (Ok tt, w2) ∧
    token_key_of td1 = "rest_token:" +:+ s ∧
    token_key_of td2 = "rest_token:" +:+ s ∧
    strings (redis w2) !! ("rest_token:" +:+ s) =
      Some (td2, clock w + d + token_expiry w) ∧
    zset (redis w2) !! ("rest_token:" +:+ s) = Some (timestamp td2) ∧
    (get_token_count w2).1 = (get_token_count w1).1 ∧
    (∀ a b pa pb s',
       stored (redis w2) a -> stored (redis w2) b ->
       token a = pa +:+ s' -> token b = pb +:+ s' ->
       String.length s' = 10%nat -> a = b) ∧
    (td1 ≠ td2 ->
       ¬ stored (redis w2) td1 ∧
       ∀ delays w' rs w'',
         redis w' = redis w2 ->
         pop_tokens delays w' = (Ok rs, w'') -> Some td1 ∉ rs).
Proof.
  intros Hc He Hkeyed Htok1 Htok2 Hlen.
  pose proof (token_key_of_suffix _ _ _ Htok1 Hlen) as Hkey1.
  pose proof (token_key_of_suffix _ _ _ Htok2 Hlen) as Hkey2.
  assert (Hkey : token_key_of td2 = token_key_of td1) by congruence.
  eexists _, _. split; [by apply add_token_calm|].
  split; [by apply add_token_calm|]. rewrite Hkey, <- Hkey1.
  cbn [redis strings zset zadd setex tick clock token_expiry].
  split_and!; try done.
  - by rewrite lookup_insert_eq.
  - by rewrite lookup_insert_eq.
  - rewrite !get_token_count_calm by done. simpl. unfold zcard. simpl.
    f_equal. f_equal. apply map_size_insert_Some.
    rewrite lookup_insert_eq. eauto.
  - intros a b pa pb s' [_ [dla Ha]] [_ [dlb Hb]] Htoka Htokb Hlen'.
    assert (Hk : token_key_of a = token_key_of b).
    { rewrite (token_key_of_suffix _ _ _ Htoka Hlen').
      by rewrite (token_key_of_suffix _ _ _ Htokb Hlen'). }
    rewrite Hk in Ha. rewrite Ha in Hb. by injection Hb.
  - intros Hne.
    assert (Hnot : ¬ holds
              (zadd (token_key_of td1) (timestamp td2)
                 (setex (token_key_of td1) (token_expiry w) td2 (clock w + d)
                    (zadd (token_key_of td1) (timestamp td1)
                       (setex (token_key_of td1) (token_expiry w) td1
                          (clock w) (redis w))))) td1).
    { intros (k & dl & Hk).
      pose proof (keyed_add (clock w) (token_expiry w) td1 _ Hkeyed) as Hk1.
      pose proof (keyed_add (clock w + d) (token_expiry w) td2 _ Hk1) as Hk2.
      rewrite Hkey in Hk2. pose proof (Hk2 _ _ _ Hk) as ->.
      simpl in Hk. rewrite lookup_insert_eq in Hk. by injection Hk as ->. }
    split.
    + intros [_ [dl Hs]]. apply Hnot. by exists (token_key_of td1), dl.
    + intros delays w' rs w'' Hw' Hrun Hin. apply Hnot.
      apply (pop_tokens_holds _ _ _ _ Hrun) in Hin. by rewrite Hw' in Hin.
Qed.

Lemma add_token_same_suffix_overwrites_witness :
  let td1 := sample_record "P1_first.0123456789" 100 in
  let td2 := sample_record "P1_second.0123456789" 105 in
  ∃ w1 w2,
    add_token td1 (init 106 []) = (Ok tt, w1) ∧
    add_token td2 (tick 1 w1) = (Ok tt, w2) ∧
    token_key_of td1 = "rest_token:" +:+ "0123456789" ∧
    token_key_of td2 = "rest_token:" +:+ "0123456789" ∧
    strings (redis w2) !! ("rest_token:" +:+ "0123456789") =
      Some (td2, 106 + 1 + 120) ∧
    zset (redis w2) !! ("rest_token:" +:+ "0123456789") =
      Some (timestamp td2) ∧
    (get_token_count w2).1 = (get_token_count w1).1 ∧
    (∀ a b pa pb s',
       stored (redis w2) a -> stored (redis w2) b ->
       token a = pa +:+ s' -> token b = pb +:+ s' ->
       String.length s' = 10%nat -> a = b) ∧
    (td1 ≠ td2 ->
       ¬ stored (redis w2) td1 ∧
       ∀ delays w' rs w'',
         redis w' = redis w2 ->
         pop_tokens delays w' = (Ok rs, w'') -> Some td1 ∉ rs).
Proof.
  intros td1 td2.
  apply (add_token_same_suffix_overwrites td1 td2 "P1_first." "P1_second."
           "0123456789" 1 (init 106 [])).
  - reflexivity.
  - reflexivity.
  - intros k td dl H. simpl in H. by rewrite lookup_empty in H.
  - reflexivity.
  - reflexivity.
  - reflexivity.
Defined.

End StoreFacts.

(** ** Errors of the store at the HTTP interface *)

Module RouteFacts.
Import Redis RedisFacts RestTokenManager StoreFacts.

(** [get_newest_token] has caught whatever its [try] block raised. *)
Lemma get_newest_token_total (w : world) :
  ∃ r w', RestTokenManager.get_newest_token w = (Ok r, w').
Proof.
  unfold RestTokenManager.get_newest_token, try_except.
  destruct (get_newest_token_try w) as [[r|e] w']; by eauto.
Qed.

(** C10.  Every exception raised inside [get_newest_token], a failure of
    the connection to the store included, is caught and turned into [None];
    the route [GET /token] then answers 404 "No tokens available", which is
    also its answer on an empty store: the caller cannot tell the two
    apart. *)
Theorem get_newest_token_swallows_errors (w w' : world) (e : exn) :
  get_newest_token_try w = (Raise e, w') ->
  RestTokenManager.get_newest_token w = (Ok None, w') ∧
  Routes.get_newest_token w =
    (Raise (HTTPException 404 "No tokens available"), w') ∧
  (∀ w0, ∃ r w0', RestTokenManager.get_newest_token w0 = (Ok r, w0')) ∧
  (∀ w0, zset (redis w0) = ∅ ->
     (Routes.get_newest_token w0).1 = (Routes.get_newest_token w).1).
Proof.
  intros Htry.
  assert (Hm : RestTokenManager.get_newest_token w = (Ok None, w')).
  { unfold RestTokenManager.get_newest_token, try_except. by rewrite Htry. }
  assert (Hr : Routes.get_newest_token w =
                 (Raise (HTTPException 404 "No tokens available"), w')).
  { unfold Routes.get_newest_token, mbind, py_mbind, py_bind. by rewrite Hm. }
  split_and!; [done|done|apply get_newest_token_total|].
  intros w0 Hz. rewrite Hr.
  destruct (get_newest_token_empty w0 Hz) as (w0' & Hm0 & _).
  unfold Routes.get_newest_token, mbind, py_mbind, py_bind. by rewrite Hm0.
Qed.

Lemma get_newest_token_swallows_errors_witness :
  let w := mk_world 120 (redis stale_world) 150 [false; true] in
  let w' := mk_world 120
              (mk_store (strings (redis stale_world)) ∅) 150 [] in
  RestTokenManager.get_newest_token w = (Ok None, w') ∧
  Routes.get_newest_token w =
    (Raise (HTTPException 404 "No tokens available"), w') ∧
  (∀ w0, ∃ r w0', RestTokenManager.get_newest_token w0 = (Ok r, w0')) ∧
  (∀ w0, zset (redis w0) = ∅ ->
     (Routes.get_newest_token w0).1 = (Routes.get_newest_token w).1).
Proof.
  intros w w'.
  apply (get_newest_token_swallows_errors w w'
           (ConnectionError "Error connecting to Redis")).
  vm_compute. reflexivity.
Defined.

(** *** The sweep *)

(** The sweep when the connection holds: exactly the index entries with a
    score above the cutoff stay, and the value entries are not touched. *)
Lemma cleanup_stale_references_calm (w : world) :
  calm w ->
  let cutoff := clock w - token_expiry w - 60 in
  ∃ w',
    cleanup_stale_references w =
      (Ok (zcard (redis w) - zcard (redis w')), w') ∧
    strings (redis w') = strings (redis w) ∧
    ∀ k sc, zset (redis w') !! k = Some sc ↔
            zset (redis w) !! k = Some sc ∧ cutoff < sc.
Proof.
  intros Hc cutoff. unfold cleanup_stale_references, try_except, time_time.
  unfold client_zremrangebyscore_neg_inf, mbind, py_mbind, py_bind, gets.
  rewrite redis_call_calm by done. simpl.
  exists (mk_world (token_expiry w)
            (mk_store (strings (redis w))
               (filter (fun e : string * Z => cutoff < e.2) (zset (redis w))))
            (clock w) []).
  split; [reflexivity|]. simpl. split; [done|].
  intros k sc. by rewrite map_lookup_filter_Some.
Qed.

(** C2, at the boundary.  A sweep at time 1000 with an expiry of 120 has
    its cutoff at 820.  The index entry whose score is 820, which is not
    below the cutoff, is removed along with the older ones; the entry at
    821 stays. *)
Theorem cleanup_removes_entry_at_cutoff :
  clock boundary_world - token_expiry boundary_world - 60 = 820 ∧
  zset (redis boundary_world) !! "rest_token:0123456789" = Some 820 ∧
  ∃ w',
    cleanup_stale_references boundary_world = (Ok 1, w') ∧
    zset (redis w') !! "rest_token:0123456789" = None ∧
    zset (redis w') !! "rest_token:abcdefghij" = Some 821.
Proof.
  split; [reflexivity|]. split; [vm_compute; reflexivity|].
  eexists. split; [vm_compute; reflexivity|].
  split; vm_compute; reflexivity.
Qed.

(** *** [POST /cleanup] *)

(** [cleanup_stale_references] has caught whatever the sweep raised. *)
Lemma cleanup_stale_references_total (w : world) :
  ∃ removed w', cleanup_stale_references w = (Ok removed, w').
Proof.
  unfold cleanup_stale_references, try_except.
  match goal with |- context [match ?body w with _ => _ end] =>
    destruct (body w) as [[r|e] w1]
  end; by eauto.
Qed.

(** C5, on the code.  [POST /cleanup] never answers 500: the sweep catches
    its own errors and returns 0, so the [except] branch of the route is
    never taken.  With the connection to the store down, the route answers
    200 with ["status": "success"] and ["removed": 0]. *)
Theorem cleanup_route_reports_success_on_error :
  (∀ w, Routes.http_status (Routes.cleanup_stale_tokens w).1 = 200) ∧
  Routes.cleanup_stale_tokens (init 1000 [true]) =
    (Ok (Routes.mk_cleanup_response "success"
           "Cleaned 0 stale token references" 0),
     init 1000 []).
Proof.
  split; [|vm_compute; reflexivity].
  intros w. unfold Routes.cleanup_stale_tokens, try_except.
  unfold mbind, py_mbind, py_bind.
  destruct (cleanup_stale_references_total w) as (removed & w' & ->). done.
Qed.

End RouteFacts.

(** ** The worker pool *)

Module PoolFacts.
Import WorkerPool.

Lemma step_pool_size (m m' : manager) :
  step m m' -> pool_size (executor m') = pool_size (executor m).
Proof. by destruct 1. Qed.

Lemma step_bounded (m m' : manager) : step m m' -> bounded m -> bounded m'.
Proof.
  unfold bounded. destruct 1 as [m t q Hq Hfree|m r1 t r2 Hr]; simpl.
  - rewrite length_app. simpl. lia.
  - rewrite Hr. rewrite !length_app. simpl. lia.
Qed.

Lemma steps_bounded (m m' : manager) :
  steps m m' -> bounded m ->
  bounded m' ∧ pool_size (executor m') = pool_size (executor m).
Proof.
  induction 1 as [m|m m1 m2 Hstep _ IH]; [done|].
  intros Hb. destruct (IH (step_bounded _ _ Hstep Hb)) as [Hb' Hsz].
  split; [done|]. rewrite Hsz. by apply step_pool_size.
Qed.

(** *** Starting an inactive pool *)

Lemma new_events_spec (n : nat) :
  ∀ m : manager,
    new_events n m =
      (Ok (seq (length (events m)) n),
       mk_manager (max_workers m) (workers_running m) (executor m)
         (worker_shutdown_events m) (generation_active m)
         (events m ++ replicate n false)).
Proof.
  induction n as [|n IH]; intros m; simpl.
  - rewrite app_nil_r. by destruct m.
  - unfold mbind, py_mbind, py_bind, new_event. rewrite IH. simpl.
    rewrite length_app, Nat.add_1_r. simpl.
    by rewrite <- app_assoc.
Qed.

Lemma submit_workers_spec (indices : list nat) :
  ∀ m : manager,
    Forall (fun i => (i < length (worker_shutdown_events m))%nat) indices ->
    submit_workers indices m =
      (Ok tt,
       mk_manager (max_workers m) (workers_running m)
         (mk_thread_pool (pool_size (executor m)) (running (executor m))
            (work_queue (executor m) ++
             ((fun i => mk_task (Z.of_nat i + 1)
                          (nth i (worker_shutdown_events m) 0%nat)) <$> indices))%list)
         (worker_shutdown_events m) (generation_active m) (events m)).
Proof.
  induction indices as [|i indices IH]; intros m Hall; simpl.
  - rewrite app_nil_r. destruct m as [? ? [? ? ?] ? ? ?]. done.
  - apply Forall_cons in Hall as [Hi Hall].
    unfold mbind, py_mbind, py_bind, gets, executor_submit, modify.
    destruct (worker_shutdown_events m !! i) as [ev|] eqn:Hev.
    + rewrite IH by done. simpl. rewrite <- app_assoc. simpl.
      by rewrite (nth_lookup_Some _ _ _ _ Hev).
    + apply lookup_ge_None in Hev. lia.
Qed.

(** An inactive pool started with a positive worker count records the count,
    creates that many new events, all distinct, and submits that many
    workers, the worker numbered [i + 1] holding the event at position [i];
    the workers that already run and the size of the executor are as
    before. *)
Lemma start_token_generation_inactive (n : Z) (m : manager) :
  generation_active m = false -> 0 < n ->
  ∃ m',
    start_token_generation (Some n) m =
      (Ok (true, "Started " +:+ show_Z n +:+ " workers"), m') ∧
    generation_active m' = true ∧ max_workers m' = n ∧
    worker_shutdown_events m' = seq (length (events m)) (Z.to_nat n) ∧
    NoDup (worker_shutdown_events m') ∧
    events m' = (events m ++ replicate (Z.to_nat n) false)%list ∧
    work_queue (executor m') =
      (work_queue (executor m) ++
       ((fun i => mk_task (Z.of_nat i + 1) (length (events m) + i)%nat)
          <$> seq 0 (Z.to_nat n)))%list ∧
    running (executor m') = running (executor m) ∧
    pool_size (executor m') = pool_size (executor m).
Proof.
  intros Ha Hn.
  unfold start_token_generation, mbind, py_mbind, py_bind, gets, modify.
  assert (Hw : workers_or (Some n) (max_workers m) = n).
  { unfold workers_or. destruct (n =? 0) eqn:H0; [|done].
    apply Z.eqb_eq in H0. lia. }
  rewrite Ha. cbn -[workers_or new_events submit_workers show_Z seq Z.to_nat].
  rewrite Hw, new_events_spec.
  cbn -[workers_or new_events submit_workers show_Z seq Z.to_nat].
  rewrite submit_workers_spec;
    cbn -[workers_or new_events submit_workers show_Z seq Z.to_nat].
  - eexists. split; [reflexivity|]. simpl.
    split_and!; try done; [apply NoDup_seq|].
    f_equal. apply list_fmap_ext. intros j i Hj.
    apply lookup_seq in Hj as [-> Hlt]. f_equal.
    by rewrite seq_nth.
  - rewrite length_seq. apply Forall_seq. lia.
Qed.

(** C7.  While the pool is active a further start returns the
    already-active failure and changes nothing in the manager, so no call
    is submitted and the workers that run are the same; while the pool is
    inactive a stop returns the not-active failure, again without touching
    the manager. *)
Theorem start_stop_rejected (m : manager) :
  (generation_active m = true ->
     ∀ workers,
       start_token_generation workers m =
         (Ok (false, "Token generation already active"), m)) ∧
  (generation_active m = false ->
     stop_token_generation m =
       (Ok (false, "Token generation not active"), m)).
Proof.
  split; intros Ha.
  - intros workers. unfold start_token_generation, mbind, py_mbind, py_bind, gets.
    by rewrite Ha.
  - unfold stop_token_generation, mbind, py_mbind, py_bind, gets.
    by rewrite Ha.
Qed.

Lemma start_stop_rejected_witness :
  let m := (start_token_generation None init).2 in
  (start_token_generation (Some 3) m =
     (Ok (false, "Token generation already active"), m) ∧
   running (executor (start_token_generation (Some 3) m).2) =
     running (executor m)) ∧
  stop_token_generation init =
    (Ok (false, "Token generation not active"), init).
Proof.
  intros m. split.
  - pose proof (proj1 (start_stop_rejected m) eq_refl (Some 3)) as H.
    split; [exact H|]. by rewrite H.
  - exact (proj2 (start_stop_rejected init) eq_refl).
Defined.

(** C6, on the code.  [start_token_generation(5)] on a new manager records
    5, creates five distinct events and submits five workers, one event
    each; but the executor was built for three threads, so however the
    threads proceed at most three workers run at a time: once workers 1, 2
    and 3 have started, workers 4 and 5 stay in the queue of the executor. *)
Theorem start_five_runs_three :
  ∃ m,
    start_token_generation (Some 5) init = (Ok (true, "Started 5 workers"), m) ∧
    max_workers m = 5 ∧
    worker_shutdown_events m = [0; 1; 2; 3; 4]%nat ∧
    work_queue (executor m) =
      [mk_task 1 0; mk_task 2 1; mk_task 3 2; mk_task 4 3; mk_task 5 4]%nat ∧
    pool_size (executor m) = 3 ∧
    (∀ m', steps m m' -> (length (running (executor m')) ≤ 3)%nat) ∧
    ∃ m3,
      steps m m3 ∧ workers_running m3 = 3 ∧
      running (executor m3) = [mk_task 1 0; mk_task 2 1; mk_task 3 2]%nat ∧
      work_queue (executor m3) = [mk_task 4 3; mk_task 5 4]%nat ∧
      ∀ m', step m3 m' ->
        (length (running (executor m')) < 3)%nat ∧
        work_queue (executor m') = work_queue (executor m3).
Proof.
  eexists. split; [vm_compute; reflexivity|]. simpl.
  split_and!; try reflexivity.
  - intros m' Hsteps. apply steps_bounded in Hsteps as [Hb Hsz].
    + unfold bounded in Hb. rewrite Hsz in Hb. simpl in Hb. lia.
    + unfold bounded. simpl. lia.
  - eexists. split.
    + do 3 (eapply rtc_l;
            [eapply thread_takes_task; [reflexivity|simpl; lia]|simpl]).
      apply rtc_refl.
    + simpl. split_and!; try reflexivity.
      intros m' Hstep. inversion Hstep as [m t q Hq Hfree|m r1 t r2 Hr];
        subst; simpl in *; [lia|].
      split; [|done].
      apply (f_equal length) in Hr. rewrite length_app in Hr. simpl in Hr.
      rewrite length_app. lia.
Qed.

(** A worker count of 0 is falsy: the count kept from before is used. *)
Example start_zero_uses_default :
  ∃ m,
    start_token_generation (Some 0) init = (Ok (true, "Started 3 workers"), m) ∧
    max_workers m = 3 ∧
    length (work_queue (executor m)) = 3%nat.
Proof. eexists. split; [vm_compute; reflexivity|]. by split. Qed.

End PoolFacts.

(** ** The on-demand session *)

Module OnDemandFacts.
Import OnDemandTokenServer.

Ltac pyp_unfold :=
  unfold mbind, pyp_mbind, pyp_bind, mret, pyp_mret, pyp_ret, gets, modify,
    raise, try_except, time_time.

(** *** Calls one after the other *)

Lemma bind_inv {A B} (m : pyp A) (f : A -> pyp B) (w w' : world)
    (r : outcome B) :
  (m ≫= f) w = Some (r, w') ->
  (∃ a w1, m w = Some (Ok a, w1) ∧ f a w1 = Some (r, w')) ∨
  (∃ e, m w = Some (Raise e, w') ∧ r = Raise e).
Proof.
  unfold mbind, pyp_mbind, pyp_bind.
  destruct (m w) as [[[a|e] w1]|]; [eauto| |done].
  intros [= <- <-]. eauto.
Qed.

Lemma try_inv {A} (body : pyp A) (h : exn -> pyp A) (w w' : world)
    (r : outcome A) :
  try_except body h w = Some (r, w') ->
  (∃ a, body w = Some (Ok a, w') ∧ r = Ok a) ∨
  (∃ e w1, body w = Some (Raise e, w1) ∧ h e w1 = Some (r, w')).
Proof.
  unfold try_except.
  destruct (body w) as [[[a|e] w1]|]; [|eauto|done].
  intros [= <- <-]. eauto.
Qed.

Lemma bind_Ok {A B} (m : pyp A) (f : A -> pyp B) (w w1 : world) (a : A) :
  m w = Some (Ok a, w1) -> (m ≫= f) w = f a w1.
Proof. unfold mbind, pyp_mbind, pyp_bind. by intros ->. Qed.

Section relations.
Context (R : world -> world -> Prop) `{!PreOrder R}.

Lemma preserves_ret {A} (a : A) : preserves R (mret a).
Proof. intros w r w' [= _ <-]. reflexivity. Qed.

Lemma preserves_raise {A} (e : exn) : preserves R (raise (A:=A) e).
Proof. intros w r w' [= _ <-]. reflexivity. Qed.

Lemma preserves_gets {A} (f : world -> A) : preserves R (gets f).
Proof. intros w r w' [= _ <-]. reflexivity. Qed.

Lemma preserves_modify (f : world -> world) :
  (∀ w, R w (f w)) -> preserves R (modify f).
Proof. intros Hf w r w' [= _ <-]. apply Hf. Qed.

Lemma preserves_bind {A B} (m : pyp A) (f : A -> pyp B) :
  preserves R m -> (∀ a, preserves R (f a)) -> preserves R (m ≫= f).
Proof.
  intros Hm Hf w r w' [(a & w1 & H1 & H2)|(e & H1 & _)]%bind_inv.
  - etrans; [by eapply Hm|by eapply Hf].
  - by eapply Hm.
Qed.

Lemma preserves_try {A} (body : pyp A) (h : exn -> pyp A) :
  preserves R body -> (∀ e, preserves R (h e)) ->
  preserves R (try_except body h).
Proof.
  intros Hm Hh w r w' [(a & H1 & _)|(e & w1 & H1 & H2)]%try_inv.
  - by eapply Hm.
  - etrans; [by eapply Hm|by eapply Hh].
Qed.

End relations.

Lemma preserves_weaken {A} (R R' : world -> world -> Prop) (m : pyp A) :
  (∀ w w', R w w' -> R' w w') -> preserves R m -> preserves R' m.
Proof. intros HR Hm w r w' H. eapply HR, Hm, H. Qed.

(** *** Calls that end *)

Lemma ends_ret {A} (a : A) : ends (mret a).
Proof. intros w Hw. by eexists _, _. Qed.

Lemma ends_raise {A} (e : exn) : ends (raise (A:=A) e).
Proof. intros w Hw. by eexists _, _. Qed.

Lemma ends_gets {A} (f : world -> A) : ends (gets f).
Proof. intros w Hw. by eexists _, _. Qed.

Lemma ends_modify (f : world -> world) :
  (∀ w, widget_later (env (f w)) = widget_later (env w)) -> ends (modify f).
Proof.
  intros Hf w Hw. eexists _, _. split; [done|].
  unfold widget_shows. by rewrite Hf.
Qed.

Lemma ends_bind {A B} (m : pyp A) (f : A -> pyp B) :
  ends m -> (∀ a, ends (f a)) -> ends (m ≫= f).
Proof.
  intros Hm Hf w Hw. destruct (Hm w Hw) as (r & w1 & H1 & Hw1).
  unfold mbind, pyp_mbind, pyp_bind. rewrite H1.
  destruct r as [a|e]; [by apply Hf|by eexists _, _].
Qed.

Lemma ends_try {A} (body : pyp A) (h : exn -> pyp A) :
  ends body -> (∀ e, ends (h e)) -> ends (try_except body h).
Proof.
  intros Hm Hh w Hw. destruct (Hm w Hw) as (r & w1 & H1 & Hw1).
  unfold try_except. rewrite H1.
  destruct r as [a|e]; [by eexists _, _|by apply Hh].
Qed.

Lemma ends_is_Some {A} (m : pyp A) (w : world) :
  ends m -> widget_shows w -> is_Some (m w).
Proof. intros Hm Hw. destruct (Hm w Hw) as (r & w' & -> & _). eauto. Qed.

(** *** Counting *)

Lemma solves_record_call (c : driver_call) (w : world) :
  solves (record_call c w) =
    if decide (c = CallExecuteScript) then S (solves w) else solves w.
Proof.
  unfold solves. simpl. rewrite filter_app, length_app.
  destruct c; simpl; lia.
Qed.

Lemma inits_record_call (c : driver_call) (w : world) :
  inits (record_call c w) =
    if decide (c = CallDriver) then S (inits w) else inits w.
Proof.
  unfold inits. simpl. rewrite filter_app, length_app.
  destruct c; simpl; lia.
Qed.

Lemma solves_set_browser_ready (b : bool) (w : world) :
  solves (set_browser_ready b w) = solves w.
Proof.
  unfold solves. simpl. rewrite filter_app, length_app. simpl. lia.
Qed.

Lemma inits_set_browser_ready (b : bool) (w : world) :
  inits (set_browser_ready b w) = inits w.
Proof.
  unfold inits. simpl. rewrite filter_app, length_app. simpl. lia.
Qed.

Lemma solves_extends (w w' : world) (rest : list event) :
  trace w' = (trace w ++ rest)%list -> (solves w ≤ solves w')%nat.
Proof. unfold solves. intros ->. rewrite filter_app, length_app. lia. Qed.

Lemma inits_extends (w w' : world) (rest : list event) :
  trace w' = (trace w ++ rest)%list -> (inits w ≤ inits w')%nat.
Proof. unfold inits. intros ->. rewrite filter_app, length_app. lia. Qed.

(** *** The two orders on states *)

#[local] Instance quiet_preorder : PreOrder quiet.
Proof.
  split.
  - intros w. unfold quiet. split_and!; try done. exists []. by rewrite app_nil_r.
  - intros w1 w2 w3 (?&?&?&?&?&?&?&?&?&?&[r1 ?]) (?&?&?&?&?&?&?&?&?&?&[r2 ?]).
    unfold quiet. split_and!; try congruence; try lia.
    exists (r1 ++ r2)%list. rewrite app_assoc. congruence.
Qed.

#[local] Instance later_preorder : PreOrder later.
Proof.
  split.
  - intros w. unfold later. split_and!; try done. exists []. by rewrite app_nil_r.
  - intros w1 w2 w3 (?&?&?&[r1 ?]&?&?&?) (?&?&?&[r2 ?]&?&?&?).
    unfold later. split_and!; try congruence; try lia; [|tauto].
    exists (r1 ++ r2)%list. rewrite app_assoc. congruence.
Qed.

Lemma quiet_later (w w' : world) : quiet w w' -> later w w'.
Proof.
  intros (Hs&Hi&?&?&Hd&?&?&?&?&?&?). unfold later.
  split_and!; try done; try lia. by rewrite Hd.
Qed.

Lemma later_record_call (c : driver_call) (w : world) :
  later w (record_call c w).
Proof.
  unfold later. rewrite solves_record_call, inits_record_call.
  split_and!; try done; try (case_decide; lia). by eexists.
Qed.

Lemma later_set_browser_ready (b : bool) (w : world) :
  later w (set_browser_ready b w).
Proof.
  unfold later. rewrite solves_set_browser_ready, inits_set_browser_ready.
  split_and!; try done. by eexists.
Qed.

(** *** The driver *)

Lemma driver_get_world (w w' : world) (r : outcome unit) :
  driver_get w = Some (r, w') ->
  w' = record_call CallGet
         (set_env (mk_oracle (new_driver (env w)) (tail (page_loads (env w)))
                     (widget (env w)) (widget_later (env w))
                     (scripts (env w))) w).
Proof.
  unfold driver_get. destruct (page_loads (env w)) as [|[] ?]; by intros [= _ <-].
Qed.

Lemma driver_get_quiet : preserves quiet driver_get.
Proof.
  intros w r w' ->%driver_get_world.
  unfold quiet. rewrite solves_record_call, inits_record_call.
  split_and!; try done. by eexists.
Qed.

Lemma driver_get_trace (w w' : world) (r : outcome unit) :
  driver_get w = Some (r, w') -> trace w' = (trace w ++ [Call CallGet])%list.
Proof. by intros ->%driver_get_world. Qed.

Lemma driver_get_ends : ends driver_get.
Proof.
  intros w Hw. unfold driver_get.
  destruct (page_loads (env w)) as [|[] ?]; by eexists _, _.
Qed.

Lemma driver_sleep_quiet (d : Z) : 0 ≤ d -> preserves quiet (driver_sleep d).
Proof.
  intros Hd w r w' [= _ <-].
  unfold quiet, solves, inits. simpl. rewrite !filter_app, !length_app. simpl.
  split_and!; try done; try lia. by eexists.
Qed.

Lemma driver_sleep_ends (d : Z) : ends (driver_sleep d).
Proof. by apply ends_modify. Qed.

Lemma driver_set_script_timeout_quiet : preserves quiet driver_set_script_timeout.
Proof.
  intros w r w' [= _ <-].
  unfold quiet. rewrite solves_record_call, inits_record_call.
  split_and!; try done. by eexists.
Qed.

Lemma driver_is_element_present_quiet : preserves quiet driver_is_element_present.
Proof.
  intros w r w' H.
  assert (w' = record_call CallIsElementPresent
                 (set_env (mk_oracle (new_driver (env w)) (page_loads (env w))
                             (tail (widget (env w))) (widget_later (env w))
                             (scripts (env w))) w)) as ->.
  { unfold driver_is_element_present in H.
    destruct (widget (env w)) as [|[] ?]; by injection H. }
  unfold quiet. rewrite solves_record_call, inits_record_call.
  split_and!; try done. by eexists.
Qed.

Lemma driver_quit_later : preserves later driver_quit.
Proof. apply preserves_modify. apply later_record_call. Qed.

(** *** Waiting for the widget *)

Lemma wait_for_widget_quiet (rounds : nat) : preserves quiet (wait_for_widget rounds).
Proof.
  induction rounds as [|n IH]; simpl; [done|].
  apply preserves_bind; [apply _|apply driver_is_element_present_quiet|].
  intros [|]; [apply preserves_ret, _|].
  apply preserves_bind; [apply _|apply driver_get_quiet|]. intros _.
  apply preserves_bind; [apply _|by apply driver_sleep_quiet|]. intros _.
  exact IH.
Qed.

(** Once the answers are used up and the widget is absent for good, the
    loop goes on for ever. *)
Lemma wait_for_widget_hangs (rounds : nat) :
  ∀ w : world,
    widget (env w) = [] -> page_loads (env w) = [] ->
    widget_later (env w) = false ->
    wait_for_widget rounds w = None.
Proof.
  induction rounds as [|n IH]; intros w Hw Hp Hl; [done|].
  simpl. pyp_unfold. unfold driver_is_element_present, driver_get, driver_sleep.
  rewrite Hw, Hl. simpl. rewrite Hp. simpl. by apply IH.
Qed.

(** [S (length widget + length page_loads)] rounds are enough: with that
    many the model never stops for lack of rounds when the loop would go
    on, so more rounds change nothing. *)
Lemma wait_for_widget_enough (rounds extra : nat) :
  ∀ w : world,
    (length (widget (env w)) + length (page_loads (env w)) < rounds)%nat ->
    wait_for_widget (rounds + extra) w = wait_for_widget rounds w.
Proof.
  induction rounds as [|n IH]; intros w Hlen; [lia|].
  simpl. pyp_unfold. unfold driver_is_element_present, driver_get, driver_sleep.
  destruct (widget (env w)) as [|b ws] eqn:Hw.
  - destruct (widget_later (env w)) eqn:Hl; [done|].
    destruct (page_loads (env w)) as [|[] ps] eqn:Hp; simpl; try done.
    + rewrite !wait_for_widget_hangs; done.
    + apply IH. simpl in *. lia.
  - destruct b; [done|].
    destruct (page_loads (env w)) as [|[] ps] eqn:Hp; simpl; try done.
    + apply IH. simpl in *. lia.
    + apply IH. simpl in *. lia.
Qed.

(** When the widget shows up in the long run the loop comes to an end. *)
Lemma wait_for_widget_ends (rounds : nat) :
  ∀ w : world,
    widget_shows w -> (length (widget (env w)) < rounds)%nat ->
    ∃ r w', wait_for_widget rounds w = Some (r, w') ∧ widget_shows w'.
Proof.
  unfold widget_shows.
  induction rounds as [|n IH]; intros w Hl Hlen; [lia|].
  simpl. pyp_unfold. unfold driver_is_element_present, driver_get, driver_sleep.
  destruct (widget (env w)) as [|b ws] eqn:Hw.
  - rewrite Hl. by eexists _, _.
  - destruct b; [by eexists _, _|].
    destruct (page_loads (env w)) as [|[] ps] eqn:Hp; simpl;
      try (by eexists _, _); apply IH; simpl in *; try done; lia.
Qed.

Lemma wait_for_the_widget_ends :
  ends (o ← gets env;
        wait_for_widget (S (length (widget o) + length (page_loads o)))).
Proof.
  intros w Hw. pyp_unfold. apply wait_for_widget_ends; [done|lia].
Qed.

#[local] Instance idle_preorder : PreOrder idle.
Proof.
  split; [by intros w|].
  intros w1 w2 w3 [? ?] [? ?]. unfold idle. split; congruence.
Qed.

Lemma quiet_idle (w w' : world) : quiet w w' -> idle w w'.
Proof. by intros (?&?&_). Qed.

Lemma later_set_driver (d : nat) (w : world) : later w (set_driver (Some d) w).
Proof.
  unfold later. split_and!; try done. exists []. by rewrite app_nil_r.
Qed.

Lemma later_set_last_keepalive (t : Z) (w : world) :
  later w (set_last_keepalive t w).
Proof.
  unfold later. split_and!; try done. exists []. by rewrite app_nil_r.
Qed.

Lemma later_advance (d : Z) (w : world) : 0 ≤ d -> later w (advance d w).
Proof.
  intros Hd. unfold later. split_and!; try done; [simpl; lia|].
  exists []. by rewrite app_nil_r.
Qed.

Lemma idle_set_browser_ready (b : bool) (w : world) :
  idle w (set_browser_ready b w).
Proof.
  split; [apply solves_set_browser_ready|apply inits_set_browser_ready].
Qed.

Lemma idle_record_call (c : driver_call) (w : world) :
  c ≠ CallExecuteScript -> c ≠ CallDriver -> idle w (record_call c w).
Proof.
  intros H1 H2. split; [rewrite solves_record_call|rewrite inits_record_call];
    by case_decide.
Qed.

Lemma Driver_world (w w' : world) (r : outcome nat) :
  Driver w = Some (r, w') ->
  w' = record_call CallDriver
         (set_env (mk_oracle (tail (new_driver (env w))) (page_loads (env w))
                     (widget (env w)) (widget_later (env w))
                     (scripts (env w))) w).
Proof.
  unfold Driver. destruct (new_driver (env w)) as [|[] ?]; by intros [= _ <-].
Qed.

Lemma Driver_later : preserves later Driver.
Proof.
  intros w r w' ->%Driver_world.
  unfold later. rewrite solves_record_call, inits_record_call.
  split_and!; try done; try (unfold inits, solves; simpl; lia). by eexists.
Qed.

Lemma Driver_ends : ends Driver.
Proof.
  intros w Hw. unfold Driver.
  destruct (new_driver (env w)) as [|[] ?]; by eexists _, _.
Qed.

Lemma after_script_facts (w : world) :
  solves (after_script w) = S (solves w) ∧
  inits (after_script w) = inits w ∧
  clock (after_script w) = clock w + Z.of_nat (next_script (env w)).2 ∧
  browser_ready (after_script w) = browser_ready w ∧
  driver (after_script w) = driver w ∧
  last_keepalive (after_script w) = last_keepalive w ∧
  trace (after_script w) = (trace w ++ [Call CallExecuteScript])%list.
Proof.
  unfold after_script.
  cbn [advance clock browser_ready driver last_keepalive].
  split_and!; try done.
  - unfold solves. simpl. rewrite filter_app, length_app. simpl. lia.
  - unfold inits. simpl. rewrite filter_app, length_app. simpl. lia.
Qed.

Lemma later_after_script (w : world) : later w (after_script w).
Proof.
  destruct (after_script_facts w) as (Hs & Hi & Hc & _ & Hd & _ & Ht).
  unfold later. rewrite Hs, Hi, Hc, Hd, Ht.
  split_and!; try done; try lia. by eexists.
Qed.

Lemma driver_execute_script_world (w w' : world) (r : outcome (option string)) :
  driver_execute_script w = Some (r, w') -> w' = after_script w.
Proof.
  unfold driver_execute_script.
  destruct (next_script (env w)).1; by intros [= _ <-].
Qed.

Lemma driver_execute_script_later : preserves later driver_execute_script.
Proof. intros w r w' ->%driver_execute_script_world. apply later_after_script. Qed.

Lemma driver_execute_script_ends : ends driver_execute_script.
Proof.
  intros w Hw. unfold driver_execute_script.
  destruct (next_script (env w)).1; by eexists _, _.
Qed.

(** The relations are carried through a method call by call. *)
Ltac through_calls leaf :=
  repeat
    lazymatch goal with
    | |- preserves _ (mbind _ _) =>
        apply preserves_bind; [typeclasses eauto| |intros ?]
    | |- preserves _ (try_except _ _) =>
        apply preserves_try; [typeclasses eauto| |intros ?]
    | |- preserves _ (mret _) => apply preserves_ret; typeclasses eauto
    | |- preserves _ (raise _) => apply preserves_raise; typeclasses eauto
    | |- preserves _ (gets _) => apply preserves_gets; typeclasses eauto
    | |- preserves _ time_time => apply preserves_gets; typeclasses eauto
    | |- preserves _ (if ?b then _ else _) => destruct b
    | |- preserves _ (match ?x with _ => _ end) => destruct x
    | |- ends (mbind _ _) => apply ends_bind; [|intros ?]
    | |- ends (try_except _ _) => apply ends_try; [|intros ?]
    | |- ends (mret _) => apply ends_ret
    | |- ends (raise _) => apply ends_raise
    | |- ends (gets _) => apply ends_gets
    | |- ends time_time => apply ends_gets
    | |- ends (modify _) => by apply ends_modify
    | |- ends (if ?b then _ else _) => destruct b
    | |- ends (match ?x with _ => _ end) => destruct x
    | |- _ => leaf
    end.

Ltac later_leaf :=
  first
    [ apply Driver_later
    | apply driver_execute_script_later
    | apply driver_quit_later
    | apply (preserves_weaken quiet later _ quiet_later);
      first [ apply driver_get_quiet
            | apply driver_set_script_timeout_quiet
            | apply driver_is_element_present_quiet
            | apply wait_for_widget_quiet
            | apply driver_sleep_quiet; lia ]
    | apply preserves_modify; intros ?;
      first [ apply later_set_driver
            | apply later_set_browser_ready
            | apply later_set_last_keepalive
            | apply later_advance; lia ] ].

Ltac idle_leaf :=
  first
    [ apply (preserves_weaken quiet idle _ quiet_idle);
      first [ apply driver_get_quiet
            | apply driver_set_script_timeout_quiet
            | apply driver_is_element_present_quiet
            | apply wait_for_widget_quiet
            | apply driver_sleep_quiet; lia ]
    | apply preserves_modify; intros ?;
      first [ apply idle_set_browser_ready
            | by apply idle_record_call
            | done ] ].

Ltac ends_leaf :=
  first
    [ apply Driver_ends
    | apply driver_get_ends
    | apply driver_sleep_ends
    | apply driver_execute_script_ends
    | by apply ends_modify ].

(** *** Initialization *)

Lemma initialize_browser_try_later : preserves later _initialize_browser_try.
Proof. unfold _initialize_browser_try. through_calls later_leaf. Qed.

Lemma initialize_browser_later : preserves later _initialize_browser.
Proof.
  unfold _initialize_browser.
  apply preserves_try; [apply _|apply initialize_browser_try_later|].
  intros _. through_calls later_leaf.
Qed.

Lemma ends_wait {A} (k : pyp A) :
  ends k ->
  ends (o ← gets env;
        _ ← wait_for_widget (S (length (widget o) + length (page_loads o)));
        k).
Proof.
  intros Hk w Hw. pyp_unfold.
  destruct (wait_for_widget_ends
              (S (length (widget (env w)) + length (page_loads (env w)))) w)
    as (r & w' & -> & Hw'); [done|lia|].
  destruct r; [by apply Hk|by eexists _, _].
Qed.

Lemma initialize_browser_ends : ends _initialize_browser.
Proof.
  unfold _initialize_browser, _initialize_browser_try, driver_set_script_timeout.
  apply ends_try; [|intros _; by apply ends_modify].
  do 5 (apply ends_bind; [first [ends_leaf|by apply ends_modify]|intros ?]).
  apply ends_wait. through_calls ends_leaf.
Qed.

Lemma bind_Ok_inv {A B} (m : pyp A) (f : A -> pyp B) (w w' : world) (b : B) :
  (m ≫= f) w = Some (Ok b, w') ->
  ∃ a w1, m w = Some (Ok a, w1) ∧ f a w1 = Some (Ok b, w').
Proof. by intros [(a & w1 & H1 & H2)|(e & _ & [=])]%bind_inv; eauto. Qed.

(** The [try] block of [_initialize_browser] starts one new driver and
    makes no solve; when it comes to its end the session is ready, has a
    driver, and the keepalive timer starts anew. *)
Lemma initialize_browser_try_spec (w w' : world) (r : outcome unit) :
  _initialize_browser_try w = Some (r, w') ->
  solves w' = solves w ∧ inits w' = S (inits w) ∧
  (∃ rest, trace w' = (trace w ++ Call CallDriver :: rest)%list) ∧
  (r = Ok tt ->
     browser_ready w' = true ∧ is_Some (driver w') ∧
     last_keepalive w' = clock w' ∧
     last (trace w') = Some (WriteReady true)).
Proof.
  unfold _initialize_browser_try. intros H.
  apply bind_inv in H as [(d & wd & HD & H)|(e & HD & ->)].
  2: { apply Driver_world in HD as ->.
       rewrite solves_record_call, inits_record_call. simpl.
       split_and!; try done. by exists []. }
  apply Driver_world in HD. 
  assert (Hwd : solves wd = solves w ∧ inits wd = S (inits w) ∧
                trace wd = (trace w ++ [Call CallDriver])%list).
  { subst wd. rewrite solves_record_call, inits_record_call. done. }
  destruct Hwd as (Hs & Hi & Ht). clear HD.
  apply bind_inv in H as [(? & w2 & Hset & H)|(e & [=] & _)].
  assert (w2 = set_driver (Some d) wd) as -> by (by injection Hset).
  clear Hset.
  match type of H with
  | ?m _ = _ =>
      assert (Hidle : preserves idle m) by through_calls idle_leaf;
      assert (Hlater : preserves later m) by through_calls later_leaf
  end.
  destruct (Hidle _ _ _ H) as [Hs' Hi'].
  destruct (Hlater _ _ _ H) as (_ & _ & _ & [rest Ht'] & Hd' & _).
  change (solves (set_driver (Some d) wd)) with (solves wd) in Hs'.
  change (inits (set_driver (Some d) wd)) with (inits wd) in Hi'.
  change (trace (set_driver (Some d) wd)) with (trace wd) in Ht'.
  split_and!; try congruence.
  { exists rest. rewrite Ht', Ht, <-app_assoc. done. }
  intros ->. split_and!.
  - do 5 (apply bind_Ok_inv in H as (? & ? & _ & H)).
    by injection H as <-.
  - apply Hd'. simpl. eauto.
  - do 5 (apply bind_Ok_inv in H as (? & ? & _ & H)).
    by injection H as <-.
  - do 5 (apply bind_Ok_inv in H as (? & ? & _ & H)).
    injection H as <-. simpl. by rewrite last_snoc.
Qed.

(** [_initialize_browser] never raises; it starts one new driver, makes no
    solve, and its last write of [browser_ready] is the value it leaves. *)
Lemma initialize_browser_spec (w w' : world) (r : outcome unit) :
  _initialize_browser w = Some (r, w') ->
  r = Ok tt ∧ later w w' ∧
  solves w' = solves w ∧ inits w' = S (inits w) ∧
  (∃ rest, trace w' = (trace w ++ Call CallDriver :: rest)%list) ∧
  last (trace w') = Some (WriteReady (browser_ready w')) ∧
  (browser_ready w' = true ->
     is_Some (driver w') ∧ last_keepalive w' = clock w').
Proof.
  intros H. pose proof (initialize_browser_later _ _ _ H) as Hlater.
  unfold _initialize_browser in H.
  apply try_inv in H as [([] & H & ->)|(e & w1 & H & [= <- <-])];
    apply initialize_browser_try_spec in H as (Hs & Hi & [rest Ht] & Hok).
  - destruct (Hok eq_refl) as (Hr & Hd & Hk & Hl).
    rewrite Hr. split_and!; eauto.
  - rewrite solves_set_browser_ready, inits_set_browser_ready.
    split_and!; try done.
    + exists (rest ++ [WriteReady false])%list. simpl. rewrite Ht.
      by rewrite <-app_assoc.
    + simpl. by rewrite last_snoc.
Qed.

(** A new driver that cannot be started leaves the session not ready. *)
Lemma initialize_browser_no_driver (w w' : world) (r : outcome unit) (bs : list bool) :
  new_driver (env w) = false :: bs ->
  _initialize_browser w = Some (r, w') -> browser_ready w' = false.
Proof.
  intros Hn. unfold _initialize_browser, _initialize_browser_try, Driver.
  pyp_unfold. rewrite Hn. by intros [= _ <-].
Qed.

Lemma refresh_page_spec (w : world) :
  ∃ w',
    _refresh_page w = Some (Ok tt, w') ∧ quiet w w' ∧
    (is_Some (driver w) ->
     ∃ rest, trace w' = (trace w ++ Call CallGet :: rest)%list).
Proof.
  unfold _refresh_page. pyp_unfold.
  destruct (driver w) as [d|] eqn:Hd; cycle 1.
  { eexists. split_and!; [done|reflexivity|]. by intros [? ?]. }
  destruct (driver_get w) as [[[[]|e] w1]|] eqn:Hget.
  - pose proof (driver_get_quiet _ _ _ Hget) as Hq.
    apply driver_get_trace in Hget.
    eexists. split; [reflexivity|]. split.
    + etrans; [exact Hq|]. by eapply (driver_sleep_quiet 2).
    + intros _. exists [Call CallSleep]. simpl. rewrite Hget.
      by rewrite <-app_assoc.
  - pose proof (driver_get_quiet _ _ _ Hget) as Hq.
    apply driver_get_trace in Hget.
    eexists. split_and!; [reflexivity|done|]. intros _. by exists [].
  - unfold driver_get in Hget. by destruct (page_loads (env w)) as [|[] ?].
Qed.

#[local] Instance no_solve_preorder : PreOrder no_solve.
Proof.
  split; [by intros w|].
  intros w1 w2 w3 ? ?. unfold no_solve in *. congruence.
Qed.

Lemma idle_no_solve (w w' : world) : idle w w' -> no_solve w w'.
Proof. by intros [? _]. Qed.

Lemma initialize_browser_no_solve : preserves no_solve _initialize_browser.
Proof. intros w r w' H. by apply initialize_browser_spec in H as (_&_&?&_). Qed.

Ltac no_solve_leaf :=
  first
    [ apply initialize_browser_no_solve
    | apply (preserves_weaken idle no_solve _ idle_no_solve); idle_leaf ].

Ltac later_leaf' := first [apply initialize_browser_later | later_leaf].
Ltac ends_leaf' := first [apply initialize_browser_ends | ends_leaf].

(** *** Solving *)

Lemma truthy_str_nonempty (v : option string) (s : string) :
  truthy_str v = Some s -> s ≠ "".
Proof.
  destruct v as [s'|]; simpl; [|done].
  destruct (String.eqb s' "") eqn:Heq; [done|].
  intros [= <-]. by apply String.eqb_neq.
Qed.

(** Without a ready session or without a driver the generator does
    nothing. *)
Lemma generate_token_idle (w : world) :
  browser_ready w = false ∨ driver w = None ->
  _generate_token w = Some (Ok (None, 0), w).
Proof.
  intros H. unfold _generate_token. pyp_unfold.
  destruct H as [-> | ->]; [done|]. by destruct (browser_ready w).
Qed.

(** The solve inside [_generate_token] returns a value: the generator hands
    it on ([None] when it is empty) and touches nothing else. *)
Lemma generate_token_value (w : world) (v : option string) :
  browser_ready w = true -> is_Some (driver w) ->
  (next_script (env w)).1 = JsValue v ->
  _generate_token w =
    Some (Ok (truthy_str v, Z.of_nat (next_script (env w)).2), after_script w).
Proof.
  intros Hr [d Hd] Hnext.
  destruct (after_script_facts w) as (_ & _ & Hc & _).
  unfold _generate_token. pyp_unfold. rewrite Hr, Hd. simpl.
  unfold driver_execute_script. rewrite Hnext.
  do 3 f_equal. f_equal. lia.
Qed.

(** The solve inside [_generate_token] raises: the session is marked not
    ready, the driver is quit, and the generator returns when
    [_initialize_browser] does. *)
Lemma generate_token_error (w : world) :
  browser_ready w = true -> is_Some (driver w) ->
  (next_script (env w)).1 = JsError ->
  _generate_token w =
    (_ ← _initialize_browser; mret (None, Z.of_nat (next_script (env w)).2))
      (record_call CallQuit (set_browser_ready false (after_script w))).
Proof.
  intros Hr [d Hd] Hnext.
  destruct (after_script_facts w) as (_ & _ & Hc & _ & Hd' & _).
  unfold _generate_token. pyp_unfold. rewrite Hr, Hd. simpl.
  unfold driver_execute_script. rewrite Hnext.
  cbn [set_browser_ready driver]. rewrite Hd', Hd.
  cbn [driver_quit modify].
  replace (clock (after_script w) - clock w)
    with (Z.of_nat (next_script (env w)).2) by lia.
  done.
Qed.

Lemma generate_token_later : preserves later _generate_token.
Proof. unfold _generate_token. through_calls later_leaf'. Qed.

Lemma refresh_page_later : preserves later _refresh_page.
Proof. unfold _refresh_page. through_calls later_leaf'. Qed.

Ltac method_later :=
  first [apply generate_token_later | apply refresh_page_later | later_leaf'].

(** The relation between the state in which [H] says a run began and the
    one in which it ended. *)
Ltac later_of H Hl :=
  match type of H with
  | ?m ?w = Some (?r, ?w') =>
      assert (Hl : later w w');
      [ let Hp := fresh in
        assert (Hp : preserves later m) by through_calls method_later;
        exact (Hp _ _ _ H) |]
  end.

Ltac no_solve_of H Hl :=
  match type of H with
  | ?m ?w = Some (?r, ?w') =>
      assert (Hl : no_solve w w');
      [ let Hp := fresh in
        assert (Hp : preserves no_solve m) by through_calls no_solve_leaf;
        exact (Hp _ _ _ H) |]
  end.

Lemma generate_token_ends : ends _generate_token.
Proof. unfold _generate_token. through_calls ends_leaf'. Qed.

(** The events of a solve that raises, up to the start of the new
    driver. *)
Lemma failed_solve_trace (w : world) :
  trace (record_call CallQuit (set_browser_ready false (after_script w))) =
    (trace w ++ [Call CallExecuteScript; WriteReady false; Call CallQuit])%list.
Proof.
  destruct (after_script_facts w) as (_ & _ & _ & _ & _ & _ & Ht).
  cbn [record_call set_browser_ready trace]. rewrite Ht, <-!app_assoc. done.
Qed.

(** What a solve that raises does to the session. *)
Lemma generate_token_error_spec (w w' : world) (r : outcome (option string * Z)) :
  browser_ready w = true -> is_Some (driver w) ->
  (next_script (env w)).1 = JsError ->
  _generate_token w = Some (r, w') ->
  r = Ok (None, Z.of_nat (next_script (env w)).2) ∧
  (∃ rest,
     trace w' =
       (trace w ++ [Call CallExecuteScript; WriteReady false; Call CallQuit;
                    Call CallDriver] ++ rest)%list) ∧
  inits w' = S (inits w) ∧ solves w' = S (solves w) ∧
  last (trace w') = Some (WriteReady (browser_ready w')) ∧
  (browser_ready w' = true ->
     is_Some (driver w') ∧ last_keepalive w' = clock w') ∧
  (∀ bs, new_driver (env w) = false :: bs -> browser_ready w' = false).
Proof.
  intros Hr Hd Hnext H.
  rewrite generate_token_error in H by done.
  destruct (after_script_facts w) as (Hs & Hi & _).
  apply bind_inv in H as [([] & w1 & H1 & H2)|(e & H1 & ->)];
    pose proof (initialize_browser_spec _ _ _ H1)
      as (Hok & _ & Hs1 & Hi1 & [rest Ht1] & Hlast & Hready); [|done].
  injection H2 as <- <-.
  rewrite failed_solve_trace in Ht1.
  rewrite solves_record_call, solves_set_browser_ready in Hs1.
  rewrite inits_record_call, inits_set_browser_ready in Hi1.
  simpl in Hs1, Hi1.
  split_and!; try done; try congruence.
  - exists rest. rewrite Ht1, <-!app_assoc. done.
  - intros bs Hbs. eapply initialize_browser_no_driver; [|exact H1]. exact Hbs.
Qed.

(** What one call of [_generate_token] does to the session. *)
Lemma generate_token_spec (w w' : world) (r : outcome (option string * Z)) :
  _generate_token w = Some (r, w') ->
  ∃ tok dur,
    r = Ok (tok, dur) ∧ later w w' ∧
    (browser_ready w = true -> is_Some (driver w) ->
       solves w' = S (solves w) ∧
       ∃ rest, trace w' = (trace w ++ Call CallExecuteScript :: rest)%list) ∧
    (browser_ready w = false -> w' = w ∧ tok = None) ∧
    (∀ s, tok = Some s ->
       s ≠ "" ∧ w' = after_script w ∧ browser_ready w = true) ∧
    (browser_ready w = true -> browser_ready w' = false ->
       inits w' = S (inits w)).
Proof.
  intros H. pose proof (generate_token_later _ _ _ H) as Hlater.
  destruct (browser_ready w) eqn:Hr; cycle 1.
  { rewrite generate_token_idle in H by auto. injection H as <- <-.
    exists None, 0. split_and!; done. }
  destruct (driver w) as [d|] eqn:Hd; cycle 1.
  { rewrite generate_token_idle in H by auto. injection H as <- <-.
    exists None, 0. split_and!; try done; congruence. }
  assert (Hdw : is_Some (driver w)) by (rewrite Hd; eauto).
  destruct (after_script_facts w) as (Hs & Hi & Hc & Hr' & Hd' & Hk & Ht).
  destruct (next_script (env w)).1 as [v|] eqn:Hnext.
  - rewrite (generate_token_value w v) in H by done. injection H as <- <-.
    eexists _, _. split_and!; try done.
    + intros _ _. split; [done|]. exists []. done.
    + intros s Hv. split_and!; try done. by eapply truthy_str_nonempty.
    + congruence.
  - apply generate_token_error_spec in H
      as (-> & [rest Ht'] & Hi' & Hs' & _); try done.
    eexists _, _. split_and!; try done.
    intros _ _. split; [done|]. eexists. rewrite Ht'. simpl. done.
Qed.

(** *** [get_token] *)

Lemma get_token_not_ready (w : world) :
  browser_ready w = false -> get_token w = Some (Raise NotReady, w).
Proof. intros Hr. unfold get_token. pyp_unfold. by rewrite Hr. Qed.

Lemma get_token_ends : ends get_token.
Proof.
  unfold get_token. through_calls ltac:(first [apply generate_token_ends|idtac]).
  all: try (intros w Hw; destruct (refresh_page_spec w) as (w' & H & Hq & _);
            eexists _, _; split; [exact H|];
            destruct Hq as (_&_&_&_&_&_&_&_&_&Hl&_);
            unfold widget_shows; by rewrite Hl).
Qed.

Lemma bind_gets {A B} (f : world -> A) (k : A -> pyp B) (w : world) :
  (gets f ≫= k) w = k (f w) w.
Proof. done. Qed.

Lemma bind_modify {B} (f : world -> world) (k : unit -> pyp B) (w : world) :
  (modify f ≫= k) w = k tt (f w).
Proof. done. Qed.

Lemma try_pass_inv (body : pyp unit) (w w' : world) (r : outcome unit) :
  try_except body (fun _ => mret tt) w = Some (r, w') ->
  r = Ok tt ∧ ∃ x, body w = Some (x, w').
Proof.
  intros [([] & H & ->)|(e & w1 & H & [= <- <-])]%try_inv; eauto.
Qed.


(** *** The keepalive loop *)

Lemma keepalive_round_not_ready (w : world) :
  browser_ready w = false -> keepalive_round w = Some (Ok tt, advance 30 w).
Proof.
  intros Hr. unfold keepalive_round, time_sleep. pyp_unfold. simpl.
  by rewrite Hr.
Qed.

(** A round that finds the interval not yet over. *)
Lemma keepalive_round_early (w : world) :
  clock w + 30 - last_keepalive w < keepalive_interval w ->
  keepalive_round w = Some (Ok tt, advance 30 w).
Proof.
  intros Hearly. unfold keepalive_round, time_sleep. pyp_unfold. simpl.
  destruct (browser_ready w); simpl; [|done].
  destruct (Z.leb_spec (keepalive_interval w) (clock w + 30 - last_keepalive w));
    [lia|done].
Qed.

(** A round that finds the interval over on a ready session: it calls the
    generator once, thirty seconds on, and makes no other solve. *)
Lemma keepalive_round_due (w w' : world) (r : outcome unit) :
  browser_ready w = true ->
  keepalive_interval w ≤ clock w + 30 - last_keepalive w ->
  keepalive_round w = Some (r, w') ->
  r = Ok tt ∧
  ∃ tok dur wg,
    _generate_token (advance 30 w) = Some (Ok (tok, dur), wg) ∧
    later wg w' ∧ no_solve wg w'.
Proof.
  intros Hr Hdue H. unfold keepalive_round in H.
  apply try_pass_inv in H as [-> [x H]]. split; [done|].
  unfold time_sleep, time_time in H.
  rewrite bind_modify, bind_gets in H.
  change (browser_ready (advance 30 w)) with (browser_ready w) in H.
  rewrite Hr in H. cbn [negb] in H. rewrite !bind_gets in H.
  change (keepalive_interval (advance 30 w)) with (keepalive_interval w) in H.
  change (last_keepalive (advance 30 w)) with (last_keepalive w) in H.
  change (clock (advance 30 w)) with (clock w + 30) in H.
  destruct (Z.leb_spec (keepalive_interval w) (clock w + 30 - last_keepalive w));
    [|lia].
  apply try_inv in H as [(a & H & _)|(e & w1 & H & Hh)].
  - apply bind_inv in H as [([tok dur] & wg & Hgen & H)|(e & Hgen & _)];
      [|by apply generate_token_spec in Hgen as (? & ? & ? & _)].
    later_of H Hl. no_solve_of H Hn. by eexists _, _, _.
  - later_of Hh Hl'. no_solve_of Hh Hn'.
    apply bind_inv in H as [([tok dur] & wg & Hgen & H)|(e' & Hgen & _)];
      [|by apply generate_token_spec in Hgen as (? & ? & ? & _)].
    later_of H Hl. no_solve_of H Hn.
    eexists _, _, _. split; [exact Hgen|]. split; by etrans.
Qed.

Lemma keepalive_round_ends : ends keepalive_round.
Proof.
  unfold keepalive_round, time_sleep.
  through_calls ltac:(first [apply generate_token_ends|ends_leaf']).
Qed.



(** The witness's session, run: the solve raises, the flag is cleared, the
    driver is quit and a new one started, and the session is ready again
    at the end; the same events under [get_token], which then reloads and
    solves again, and in a keepalive round. *)
Example solve_failure_run :
  let w := advance 300 (session error_then_token) in
  (∃ w',
     _generate_token w = Some (Ok (None, 1), w') ∧
     trace w' =
       (trace w ++
        [Call CallExecuteScript; WriteReady false; Call CallQuit;
         Call CallDriver; Call CallGet; Call CallSetScriptTimeout;
         Call CallSleep; Call CallIsElementPresent; WriteReady true])%list ∧
     browser_ready w' = true) ∧
  (∃ w',
     get_token w = Some (Ok (mk_token_result "P1_token" 2 1311), w') ∧
     trace w' =
       (trace w ++
        [Call CallExecuteScript; WriteReady false; Call CallQuit;
         Call CallDriver; Call CallGet; Call CallSetScriptTimeout;
         Call CallSleep; Call CallIsElementPresent; WriteReady true;
         Call CallGet; Call CallSleep; Call CallExecuteScript])%list) ∧
  (∃ w',
     keepalive_round w = Some (Ok tt, w') ∧
     trace w' =
       (trace w ++
        [Call CallExecuteScript; WriteReady false; Call CallQuit;
         Call CallDriver; Call CallGet; Call CallSetScriptTimeout;
         Call CallSleep; Call CallIsElementPresent; WriteReady true;
         Call CallGet; Call CallSleep])%list ∧
     browser_ready w' = true).
Proof.
  split_and!; eexists; (split; [vm_compute; reflexivity|]);
    try split; reflexivity.
Qed.

(** A solve that raises in a browser where the widget never shows up
    again: the generator never returns, nor does [get_token]. *)
Example solve_failure_hangs :
  let w := session error_then_no_widget in
  browser_ready w = true ∧ _generate_token w = None ∧ get_token w = None.
Proof. split_and!; reflexivity. Qed.





(** The scenario of the specification, run: the first solve gives nothing,
    the page is reloaded, the solve after the reload gives a token; the
    call succeeds and [last_keepalive] moves from 1002 to 1007. *)
Example get_token_retry_scenario :
  let w := session empty_then_token in
  last_keepalive w = 1002 ∧
  ∃ w', get_token w = Some (Ok (mk_token_result "P1_token" 2 1007), w') ∧
        last_keepalive w' = 1007 ∧ browser_ready w' = true ∧
        trace w' =
          (trace w ++
           [Call CallExecuteScript; Call CallGet; Call CallSleep;
            Call CallExecuteScript])%list.
Proof.
  split; [reflexivity|]. eexists. split; [vm_compute; reflexivity|].
  split_and!; reflexivity.
Qed.

(** A first solve that gives a token at once: one solve, and nothing
    else. *)
Example get_token_first_solve :
  let w := session (mk_oracle [] [] [] true [(JsValue (Some "P1_token"), 2%nat)]) in
  ∃ w', get_token w = Some (Ok (mk_token_result "P1_token" 2 1004), w') ∧
        trace w' = (trace w ++ [Call CallExecuteScript])%list.
Proof. eexists. split; [vm_compute; reflexivity|reflexivity]. Qed.

End OnDemandFacts.

(** ** More on the token store *)

Module StoreMoreFacts.
Import Redis RedisFacts RestTokenManager StoreFacts StoreAdmin.

Lemma tick_0 (w : world) : tick 0 w = w.
Proof. destruct w as [e s c f]. unfold tick. simpl. f_equal. lia. Qed.

(** A member written with a score above all the others is the maximum. *)
Lemma zmax_insert_newest (z : gmap string Z) (k : string) (ts : Z) :
  (∀ k' sc, z !! k' = Some sc -> k' ≠ k -> sc < ts) ->
  zmax (<[k := ts]> z) = Some (k, ts).
Proof.
  intros Hnew.
  destruct (zmax_is_Some (<[k := ts]> z) k ts) as [[k' sc'] Hmax];
    [by rewrite lookup_insert_eq|].
  destruct (zmax_Some _ _ _ Hmax) as [Hk' Hle].
  destruct (decide (k' = k)) as [->|Hne].
  - rewrite lookup_insert_eq in Hk'. by injection Hk' as <-.
  - rewrite lookup_insert_ne in Hk' by done.
    pose proof (Hnew _ _ Hk' Hne).
    pose proof (Hle k ts (lookup_insert_eq _ _ _)). lia.
Qed.

(** X1.  Written and read back: a record whose timestamp is above every
    score of the index, added and then popped before its value expires (the
    connection holding), is the record the pop returns; afterwards neither
    the index nor the values hold anything under its key, and every other
    entry is as it was before the two calls. *)
Theorem add_then_pop_returns_record (td : token_data) (d : Z) (w : world) :
  calm w -> 0 ≤ d -> d < token_expiry w ->
  (∀ k sc, zset (redis w) !! k = Some sc -> sc < timestamp td) ->
  ∃ w1 w2,
    add_token td w = (Ok tt, w1) ∧
    get_newest_token (tick d w1) = (Ok (Some td), w2) ∧
    strings (redis w2) = delete (token_key_of td) (strings (redis w)) ∧
    zset (redis w2) = delete (token_key_of td) (zset (redis w)) ∧
    clock w2 = clock w + d.
Proof.
  intros Hc Hd He Hnew.
  eexists _, _. split; [apply add_token_calm; [done|lia]|].
  rewrite get_newest_token_calm by done.
  cbn [tick redis clock token_expiry zadd setex zset strings].
  rewrite zmax_insert_newest by (intros k' sc Hk' _; by eapply Hnew).
  unfold get, zadd, setex. cbn [strings zset]. rewrite lookup_insert_eq.
  destruct (clock w + d <? clock w + token_expiry w) eqn:Hlt;
    [|apply Z.ltb_ge in Hlt; lia].
  split; [reflexivity|]. cbn [redis strings zset clock].
  by rewrite !delete_insert_eq.
Qed.

Lemma add_then_pop_returns_record_witness :
  let td := sample_record "P1_newest.0123456789" 900 in
  ∃ w1 w2,
    add_token td boundary_world = (Ok tt, w1) ∧
    get_newest_token (tick 5 w1) = (Ok (Some td), w2) ∧
    strings (redis w2) = delete (token_key_of td) (strings (redis boundary_world)) ∧
    zset (redis w2) = delete (token_key_of td) (zset (redis boundary_world)) ∧
    clock w2 = clock boundary_world + 5.
Proof.
  intros td.
  apply (add_then_pop_returns_record td 5 boundary_world).
  - reflexivity.
  - lia.
  - reflexivity.
  - intros k sc Hk. change (sc < 900).
    assert (Hin : (k, sc) ∈ map_to_list (zset (redis boundary_world)))
      by by apply elem_of_map_to_list.
    vm_compute in Hin.
    apply elem_of_cons in Hin as [[= _ ->]|Hin]; [lia|].
    apply elem_of_cons in Hin as [[= _ ->]|Hin]; [lia|].
    by apply elem_of_nil in Hin.
Defined.

(** X2.  A value that outlives nothing: when the expiry has gone by after
    [add_token], the record is still counted by [get_token_count], but the
    pop that meets its index entry returns [None]; that pop removes the
    index entry, so the count is back to what it was before the write, and
    the expired value entry itself is left to the server. *)
Theorem expired_record_is_counted_but_not_returned
    (td : token_data) (d : Z) (w : world) :
  calm w -> 0 < token_expiry w -> token_expiry w ≤ d ->
  zset (redis w) !! token_key_of td = None ->
  (∀ k sc, zset (redis w) !! k = Some sc -> sc < timestamp td) ->
  ∃ w1 w2,
    add_token td w = (Ok tt, w1) ∧
    (get_token_count (tick d w1)).1 = Ok (zcard (redis w) + 1) ∧
    get_newest_token (tick d w1) = (Ok None, w2) ∧
    zset (redis w2) = zset (redis w) ∧
    strings (redis w2) !! token_key_of td =
      Some (td, clock w + token_expiry w) ∧
    (get_token_count w2).1 = Ok (zcard (redis w)).
Proof.
  intros Hc He Hd Hfresh Hnew.
  eexists _, _. split; [by apply add_token_calm|].
  rewrite get_newest_token_calm by done.
  rewrite get_token_count_calm by done.
  cbn [tick redis clock token_expiry zadd setex zset strings fst].
  rewrite zmax_insert_newest by (intros k' sc Hk' _; by eapply Hnew).
  unfold get, zadd, setex. cbn [strings zset]. rewrite lookup_insert_eq.
  destruct (clock w + d <? clock w + token_expiry w) eqn:Hlt;
    [apply Z.ltb_lt in Hlt; lia|].
  split_and!.
  - unfold zcard. cbn [zset]. rewrite map_size_insert_None by done.
    f_equal. lia.
  - reflexivity.
  - cbn [redis zset]. rewrite delete_insert_eq. by apply delete_id.
  - cbn [redis strings]. by rewrite lookup_insert_eq.
  - rewrite get_token_count_calm by done. cbn [fst redis]. unfold zcard.
    cbn [zset]. rewrite delete_insert_eq. by rewrite delete_id.
Qed.

Lemma expired_record_is_counted_but_not_returned_witness :
  let td := sample_record "P1_late.0123456789" 100 in
  ∃ w1 w2,
    add_token td (init 100 []) = (Ok tt, w1) ∧
    (get_token_count (tick 120 w1)).1 = Ok (zcard (redis (init 100 [])) + 1) ∧
    get_newest_token (tick 120 w1) = (Ok None, w2) ∧
    zset (redis w2) = zset (redis (init 100 [])) ∧
    strings (redis w2) !! token_key_of td = Some (td, 100 + 120) ∧
    (get_token_count w2).1 = Ok (zcard (redis (init 100 []))).
Proof.
  intros td.
  apply (expired_record_is_counted_but_not_returned td 120 (init 100 [])).
  - reflexivity.
  - reflexivity.
  - reflexivity.
  - reflexivity.
  - intros k sc Hk. simpl in Hk. by rewrite lookup_empty in Hk.
Defined.

(** *** Writes and reads that a failing connection cuts in two *)

(** Whatever the connection does, [get_newest_token] returns only a record
    that an index entry led to, and makes no record reachable that was not. *)
Lemma get_newest_token_poppable (w w' : world) (r : outcome (option token_data)) :
  get_newest_token w = (r, w') ->
  (∀ td, r = Ok (Some td) -> poppable (redis w) td) ∧
  (∀ td, poppable (redis w') td -> poppable (redis w) td).
Proof.
  unfold get_newest_token, get_newest_token_try, try_except.
  unfold client_zpopmax, client_get, client_delete.
  unfold mbind, py_mbind, py_bind, redis_call, zpopmax, get, del.
  destruct (faults w) as [|[|] fs]; cbn -[zmax];
    try (intros [= <- <-]; split; [discriminate|done]);
    (destruct (zmax (zset (redis w))) as [[k sc]|] eqn:Hz; cbn -[zmax];
     [|intros [= <- <-]; split; [discriminate|done]]);
    destruct (zmax_Some _ _ _ Hz) as [Hk _].
  all: assert (Hdel : ∀ td,
         poppable (mk_store (strings (redis w)) (delete k (zset (redis w)))) td ->
         poppable (redis w) td)
    by (intros td (k' & sc' & dl' & H1 & H2); simpl in H1, H2;
        apply lookup_delete_Some in H1 as [_ H1]; by exists k', sc', dl').
  all: assert (Hdel2 : ∀ td,
         poppable (mk_store (delete k (strings (redis w)))
                     (delete k (zset (redis w)))) td ->
         poppable (redis w) td)
    by (intros td (k' & sc' & dl' & H1 & H2); simpl in H1, H2;
        apply lookup_delete_Some in H1 as [_ H1];
        apply lookup_delete_Some in H2 as [_ H2]; by exists k', sc', dl').
  all: try destruct fs as [|[|] fs]; cbn -[zmax];
    try (intros [= <- <-]; split; [discriminate|done]).
  all: destruct (strings (redis w) !! k) as [[td dl]|] eqn:Hs; cbn -[zmax];
    try (intros [= <- <-]; split; [discriminate|done]).
  all: destruct (clock w <? dl); cbn -[zmax];
    try (intros [= <- <-]; split; [discriminate|done]).
  all: try destruct fs as [|[|] fs]; cbn -[zmax];
    try (intros [= <- <-]; split; [discriminate|done]).
  all: intros [= <- <-];
    (split; [first [discriminate|intros ? [= <-]; by exists k, sc, dl]|done]).
Qed.

Lemma pop_tokens_poppable (delays : list Z) :
  ∀ (w w' : world) (rs : list (option token_data)),
    pop_tokens delays w = (Ok rs, w') ->
    ∀ td, Some td ∈ rs -> poppable (redis w) td.
Proof.
  induction delays as [|d delays IH]; intros w w' rs; simpl.
  - intros [= <- _] td Hin. by apply elem_of_nil in Hin.
  - unfold mbind, py_mbind, py_bind, modify.
    destruct (get_newest_token (tick d w)) as [r w1] eqn:Hpop.
    destruct (get_newest_token_poppable _ _ _ Hpop) as [Hret Hkeep].
    destruct r as [r|e]; [|discriminate].
    destruct (pop_tokens delays w1) as [[rs'|e] w2] eqn:Hrest; [|discriminate].
    intros [= <- _] td [Heq|Hin]%elem_of_cons.
    + apply (Hret td). by rewrite Heq.
    + apply Hkeep. by eapply IH.
Qed.

(** X3.  The two writes of [add_token] are separate calls.  When the
    connection fails between them, [add_token] raises; the value entry has
    been written and the index has not been touched, so the count is
    unchanged.  If the index had no entry for the key, the record is stored
    but out of reach: no run of [get_newest_token] calls returns it. *)
Theorem add_token_cut_leaves_unreachable_value
    (td : token_data) (w : world) (fs : list bool) :
  faults w = false :: true :: fs -> 0 < token_expiry w ->
  ∃ e w1,
    add_token td w = (Raise e, w1) ∧
    strings (redis w1) !! token_key_of td =
      Some (td, clock w + token_expiry w) ∧
    zset (redis w1) = zset (redis w) ∧
    faults w1 = fs ∧
    (keyed (redis w) -> zset (redis w) !! token_key_of td = None ->
     ∀ delays w' rs w'',
       redis w' = redis w1 ->
       pop_tokens delays w' = (Ok rs, w'') -> Some td ∉ rs).
Proof.
  intros Hf He.
  unfold add_token, client_setex, client_zadd.
  unfold mbind, py_mbind, py_bind, gets, redis_call.
  destruct (token_expiry w <=? 0) eqn:Hle; [apply Z.leb_le in Hle; lia|].
  rewrite Hf. simpl.
  eexists _, _. split; [reflexivity|]. simpl.
  split_and!; try done; [by rewrite lookup_insert_eq|].
  intros Hkeyed Hnone delays w' rs w'' Hw' Hrun Hin.
  apply (pop_tokens_poppable _ _ _ _ Hrun) in Hin.
  rewrite Hw' in Hin. destruct Hin as (k & sc & dl & Hz & Hs).
  simpl in Hz, Hs.
  destruct (decide (token_key_of td = k)) as [<-|Hne]; [congruence|].
  rewrite lookup_insert_ne in Hs by done.
  by destruct (Hne (eq_sym (Hkeyed _ _ _ Hs))).
Qed.

Lemma add_token_cut_leaves_unreachable_value_witness :
  let td := sample_record "P1_cut.0123456789" 100 in
  let w := init 100 [false; true] in
  ∃ e w1,
    add_token td w = (Raise e, w1) ∧
    strings (redis w1) !! token_key_of td = Some (td, 100 + 120) ∧
    zset (redis w1) = zset (redis w) ∧
    faults w1 = [] ∧
    (keyed (redis w) -> zset (redis w) !! token_key_of td = None ->
     ∀ delays w' rs w'',
       redis w' = redis w1 ->
       pop_tokens delays w' = (Ok rs, w'') -> Some td ∉ rs).
Proof.
  intros td w.
  apply (add_token_cut_leaves_unreachable_value td w []); reflexivity.
Defined.

(** X4.  [get_newest_token] takes the index entry first and reads the
    value afterwards.  When the connection fails between the two, the call
    returns [None] like a miss, the index entry is gone and the value entry
    is still there: the record can no longer be popped by anyone. *)
Theorem get_newest_token_cut_loses_record
    (w : world) (fs : list bool) (k : string) (sc : Z)
    (td : token_data) (deadline : Z) :
  faults w = false :: true :: fs ->
  zmax (zset (redis w)) = Some (k, sc) ->
  strings (redis w) !! k = Some (td, deadline) ->
  ∃ w1,
    get_newest_token w = (Ok None, w1) ∧
    zset (redis w1) = delete k (zset (redis w)) ∧
    strings (redis w1) = strings (redis w) ∧
    (keyed (redis w) ->
     ∀ delays w' rs w'',
       redis w' = redis w1 ->
       pop_tokens delays w' = (Ok rs, w'') -> Some td ∉ rs).
Proof.
  intros Hf Hmax Hs.
  unfold get_newest_token, get_newest_token_try, try_except.
  unfold client_zpopmax, client_get.
  unfold mbind, py_mbind, py_bind, redis_call, zpopmax.
  rewrite Hf, Hmax. simpl.
  eexists. split; [reflexivity|]. simpl. split_and!; try done.
  intros Hkeyed delays w' rs w'' Hw' Hrun Hin.
  apply (pop_tokens_poppable _ _ _ _ Hrun) in Hin.
  rewrite Hw' in Hin. destruct Hin as (k' & sc' & dl' & Hz' & Hs').
  simpl in Hz', Hs'.
  apply lookup_delete_Some in Hz' as [Hne _].
  apply Hne. rewrite (Hkeyed _ _ _ Hs). by rewrite (Hkeyed _ _ _ Hs').
Qed.

Lemma get_newest_token_cut_loses_record_witness :
  let w := mk_world 120 (redis stale_world) 150 [false; true] in
  ∃ w1,
    get_newest_token w = (Ok None, w1) ∧
    zset (redis w1) = delete "rest_token:0123456789" (zset (redis w)) ∧
    strings (redis w1) = strings (redis w) ∧
    (keyed (redis w) ->
     ∀ delays w' rs w'',
       redis w' = redis w1 ->
       pop_tokens delays w' = (Ok rs, w'') ->
       Some (mk_token_data "P1_0123456789" 1 2 100 "rest_api") ∉ rs).
Proof.
  intros w.
  apply (get_newest_token_cut_loses_record w [] "rest_token:0123456789" 100
           (mk_token_data "P1_0123456789" 1 2 100 "rest_api") 220).
  - reflexivity.
  - vm_compute. reflexivity.
  - vm_compute. reflexivity.
Defined.

(** *** The sweep and the values *)

(** [add_token] keeps the store prompt when it is called at most 60 seconds
    after the timestamp of the record. *)
Lemma prompt_add (now e : Z) (td : token_data) (s : store token_data) :
  prompt e s -> now ≤ timestamp td + 60 ->
  prompt e (zadd (token_key_of td) (timestamp td)
              (setex (token_key_of td) e td now s)).
Proof.
  intros Hp Hnow k sc td' dl. simpl.
  destruct (decide (token_key_of td = k)) as [<-|Hne].
  - rewrite !lookup_insert_eq. intros [= <-] [= <- <-]. lia.
  - rewrite !lookup_insert_ne by done. apply Hp.
Qed.

(** X5.  The sweep never takes the index entry of a value that can still be
    read, as long as every value was written within 60 seconds of the
    timestamp of its record (the buffer of the cutoff): an entry that the
    sweep removes has a value that has expired already. *)
Theorem sweep_spares_readable_records (w : world) :
  calm w -> prompt (token_expiry w) (redis w) ->
  ∃ removed w',
    cleanup_stale_references w = (Ok removed, w') ∧
    strings (redis w') = strings (redis w) ∧
    ∀ k sc td,
      zset (redis w) !! k = Some sc ->
      get k (clock w) (redis w) = Some td ->
      zset (redis w') !! k = Some sc.
Proof.
  intros Hc Hp.
  destruct (RouteFacts.cleanup_stale_references_calm w Hc)
    as (w' & Hrun & Hs & Hz).
  eexists _, w'. split; [exact Hrun|]. split; [done|].
  intros k sc td Hk Hget. apply Hz. split; [done|].
  unfold get in Hget.
  destruct (strings (redis w) !! k) as [[td' dl]|] eqn:Hv; [|done].
  destruct (clock w <? dl) eqn:Hlt; [|done]. apply Z.ltb_lt in Hlt.
  pose proof (Hp _ _ _ _ Hk Hv). lia.
Qed.

Lemma sweep_spares_readable_records_witness :
  let td := sample_record "P1_kept.0123456789" 95 in
  (get (token_key_of td) (clock sweep_world) (redis sweep_world) = Some td ∧
   zset (redis sweep_world) !! token_key_of td = Some 95 ∧
   (cleanup_stale_references sweep_world).1 = Ok 1) ∧
  ∃ removed w',
    cleanup_stale_references sweep_world = (Ok removed, w') ∧
    strings (redis w') = strings (redis sweep_world) ∧
    ∀ k sc td,
      zset (redis sweep_world) !! k = Some sc ->
      get k (clock sweep_world) (redis sweep_world) = Some td ->
      zset (redis w') !! k = Some sc.
Proof.
  intros td. split; [by vm_compute|].
  apply (sweep_spares_readable_records sweep_world).
  - reflexivity.
  - intros k sc td' dl Hk Hs. cbn [sweep_world redis strings zset] in Hk, Hs.
    apply lookup_singleton_Some in Hs as [<- [= <- <-]].
    rewrite lookup_insert_eq in Hk. injection Hk as <-. simpl. lia.
Defined.

(** X6.  The sweep returns the number of index entries it removed, and a
    second sweep at the same instant finds nothing to remove and changes
    nothing. *)
Theorem sweep_twice_removes_nothing_more (w : world) :
  calm w ->
  ∃ removed w1 w2,
    cleanup_stale_references w = (Ok removed, w1) ∧
    removed = zcard (redis w) - zcard (redis w1) ∧ 0 ≤ removed ∧
    cleanup_stale_references w1 = (Ok 0, w2) ∧
    w2 = w1.
Proof.
  intros Hc.
  unfold cleanup_stale_references, try_except, time_time.
  unfold client_zremrangebyscore_neg_inf, mbind, py_mbind, py_bind, gets.
  rewrite redis_call_calm by done.
  cbn [fst snd zremrangebyscore_neg_inf].
  set (P := fun e : string * Z => clock w - token_expiry w - 60 < e.2).
  eexists _, _, _. split; [reflexivity|].
  rewrite redis_call_calm by done.
  cbn [fst snd zremrangebyscore_neg_inf redis clock token_expiry zset strings].
  fold P.
  assert (Hid : filter P (filter P (zset (redis w))) = filter P (zset (redis w))).
  { apply map_filter_id. intros k sc Hk.
    by apply map_lookup_filter_Some in Hk as [_ ?]. }
  rewrite Hid. unfold zcard. cbn [zset].
  pose proof (map_size_filter P (zset (redis w))) as Hle.
  split_and!; try done; try lia.
  rewrite Z.sub_diag. reflexivity.
Qed.

Lemma sweep_twice_removes_nothing_more_witness :
  ∃ removed w1 w2,
    cleanup_stale_references boundary_world = (Ok removed, w1) ∧
    removed = zcard (redis boundary_world) - zcard (redis w1) ∧ 0 ≤ removed ∧
    cleanup_stale_references w1 = (Ok 0, w2) ∧
    w2 = w1.
Proof.
  apply (sweep_twice_removes_nothing_more boundary_world). reflexivity.
Defined.

(** X7.  A round of the background sweeper always ends with the sleep of 30
    seconds: [cleanup_stale_references] catches its own errors, so the
    handler of the round, with its sleep of 60 seconds, is never run, not
    even while the connection to the store is down. *)
Theorem background_cleanup_round_sleeps_30 (w : world) :
  ∃ w',
    _background_cleanup_worker_round w = (Ok tt, w') ∧
    clock w' = clock w + 30.
Proof.
  unfold _background_cleanup_worker_round, try_except, time_sleep.
  unfold mbind, py_mbind, py_bind, modify.
  destruct (RouteFacts.cleanup_stale_references_total w) as (removed & w1 & Hrun).
  rewrite Hrun. eexists. split; [reflexivity|]. simpl. f_equal.
  revert Hrun.
  unfold cleanup_stale_references, try_except, time_time.
  unfold client_zremrangebyscore_neg_inf, mbind, py_mbind, py_bind, gets.
  unfold redis_call.
  destruct (faults w) as [|[|] fs]; simpl; by intros [= _ <-].
Qed.

(** *** What the routes show of the store *)

(** X8.  While the connection to the store is down, [get_token_count]
    returns 0, as it does for an empty store, and [GET /health] is the route
    that tells: it answers 503, with the text of the exception that [ping]
    raised after ["Unhealthy: "].  While the connection holds, the count is
    the number of index entries and [GET /health] answers 200. *)
Theorem unreachable_store_counts_as_empty
    (m : WorkerPool.manager) (w : world) :
  (∀ fs, faults w = true :: fs ->
     (get_token_count w).1 = Ok 0 ∧
     redis (get_token_count w).2 = redis w ∧
     ∃ e, (client_ping w).1 = Raise e ∧
          (health_check m w).1 =
            Raise (HTTPException 503 ("Unhealthy: " +:+ exn_str e))) ∧
  (calm w ->
     (get_token_count w).1 = Ok (Z.of_nat (size (zset (redis w)))) ∧
     Routes.http_status (health_check m w).1 = 200).
Proof.
  split.
  - intros fs Hf.
    unfold get_token_count, health_check, try_except, client_zcard, client_ping.
    unfold mbind, py_mbind, py_bind, redis_call. rewrite Hf. simpl.
    split_and!; try done. by eexists.
  - intros Hc. rewrite get_token_count_calm by done.
    unfold health_check, try_except, client_ping, mbind, py_mbind, py_bind.
    rewrite redis_call_calm by done. by simpl.
Qed.

Lemma unreachable_store_counts_as_empty_witness :
  ((get_token_count (init 5 [true])).1 = Ok 0 ∧
   redis (get_token_count (init 5 [true])).2 = redis (init 5 [true]) ∧
   ∃ e, (client_ping (init 5 [true])).1 = Raise e ∧
        (health_check WorkerPool.init (init 5 [true])).1 =
          Raise (HTTPException 503 ("Unhealthy: " +:+ exn_str e))) ∧
  ((get_token_count boundary_world).1 =
     Ok (Z.of_nat (size (zset (redis boundary_world)))) ∧
   Routes.http_status (health_check WorkerPool.init boundary_world).1 = 200).
Proof.
  split.
  - apply (proj1 (unreachable_store_counts_as_empty WorkerPool.init
                    (init 5 [true])) []).
    reflexivity.
  - apply (proj2 (unreachable_store_counts_as_empty WorkerPool.init
                    boundary_world)).
    reflexivity.
Defined.

(** X9.  [DELETE /tokens] deletes the index and nothing else.  Afterwards
    the count is 0 and a pop finds nothing, but every value entry is still
    in the store until it expires; and the [previous_count] of the answer is
    the number of keys deleted, 1 when the index had entries and 0 when it
    had none, whatever the number of tokens was. *)
Theorem clear_tokens_deletes_index_only (w : world) :
  calm w ->
  ∃ w',
    clear_tokens w =
      (Ok (mk_clear_response "cleared" "Cleared all tokens"
             (if decide (zset (redis w) = ∅) then 0 else 1)), w') ∧
    zset (redis w') = ∅ ∧
    strings (redis w') = strings (redis w) ∧
    (get_token_count w').1 = Ok 0 ∧
    (get_newest_token w').1 = Ok None.
Proof.
  intros Hc. unfold clear_tokens, client_delete_sorted_set.
  unfold mbind, py_mbind, py_bind. rewrite redis_call_calm by done.
  eexists. split; [reflexivity|]. cbn [snd del_sorted_set redis zset strings].
  by split_and!.
Qed.

Lemma clear_tokens_deletes_index_only_witness :
  ∃ w',
    clear_tokens boundary_world =
      (Ok (mk_clear_response "cleared" "Cleared all tokens"
             (if decide (zset (redis boundary_world) = ∅) then 0 else 1)), w') ∧
    zset (redis w') = ∅ ∧
    strings (redis w') = strings (redis boundary_world) ∧
    (get_token_count w').1 = Ok 0 ∧
    (get_newest_token w').1 = Ok None.
Proof.
  apply (clear_tokens_deletes_index_only boundary_world). reflexivity.
Defined.

(** The members [ZREVRANGE] returns are members of the set, with their
    scores, highest score first, and there are at most as many as asked
    for. *)
Lemma zrevrange_top_spec (n : nat) :
  ∀ z : gmap string Z,
    (length (zrevrange_top n z) ≤ n)%nat ∧
    (∀ k sc, (k, sc) ∈ zrevrange_top n z -> z !! k = Some sc) ∧
    StronglySorted (fun a b => b ≤ a) (snd <$> zrevrange_top n z).
Proof.
  induction n as [|n IH]; intros z; simpl.
  - split_and!; [lia| |constructor].
    intros k sc Hin. by apply elem_of_nil in Hin.
  - destruct (zmax z) as [[k sc]|] eqn:Hz; simpl.
    + destruct (zmax_Some _ _ _ Hz) as [Hk Hmax].
      destruct (IH (delete k z)) as (Hlen & Hmem & Hsort).
      split_and!; [lia| |].
      * intros k' sc' [[= -> ->]|Hin]%elem_of_cons; [done|].
        by apply Hmem, lookup_delete_Some in Hin as [_ ?].
      * constructor; [done|]. apply Forall_forall.
        intros sc' ([k' sc''] & -> & Hin)%list_elem_of_fmap. simpl.
        apply Hmem, lookup_delete_Some in Hin as [_ Hin]. by eapply Hmax.
    + split_and!; [lia| |constructor].
      intros k sc Hin. by apply elem_of_nil in Hin.
Qed.

Lemma StronglySorted_sublist {A} (R : relation A) (l1 l2 : list A) :
  l1 `sublist_of` l2 -> StronglySorted R l2 -> StronglySorted R l1.
Proof.
  induction 1 as [|x l1 l2 Hsub IH|x l1 l2 Hsub IH]; intros Hs.
  - constructor.
  - apply StronglySorted_inv in Hs as [Hs Hall]. constructor; [by apply IH|].
    rewrite Forall_forall in Hall. apply Forall_forall.
    intros y Hy. apply Hall. by eapply elem_of_sublist.
  - apply StronglySorted_inv in Hs as [Hs _]. by apply IH.
Qed.

(** What the loop of [get_token_info] adds to the list, whatever the
    connection does. *)
Lemma sample_loop_spec (entries : list (string * Z)) :
  ∀ (acc : list sample) (w : world),
    ∃ l w',
      sample_loop entries acc w = (Ok (acc ++ l)%list, w') ∧
      redis w' = redis w ∧ clock w' = clock w ∧
      (sample_timestamp <$> l) `sublist_of` (snd <$> entries) ∧
      ∀ s, s ∈ l ->
        ∃ k td,
          (k, sample_timestamp s) ∈ entries ∧
          Redis.get k (clock w) (redis w) = Some td ∧
          token_suffix s = py_suffix 10 (token td) ∧
          sample_worker_id s = worker_id td ∧
          sample_duration s = duration td.
Proof.
  induction entries as [|[k ts] entries IH]; intros acc w; simpl.
  - exists [], w. rewrite app_nil_r. split_and!; try done.
    intros s Hs. by apply elem_of_nil in Hs.
  - unfold client_get, redis_call.
    destruct (faults w) as [|[|] fs] eqn:Hf; simpl.
    2: { eexists [], _. rewrite app_nil_r. split; [reflexivity|]. simpl.
         split_and!; try done; [apply sublist_nil_l|].
         intros s Hs. by apply elem_of_nil in Hs. }
    all: destruct (get k (clock w) (redis w)) as [td|] eqn:Hget.
    all: match goal with |- context [sample_loop _ ?a ?w0] =>
           destruct (IH a w0) as (l & w' & Hrun & Hr & Hc & Hsub & Hall)
         end; simpl in Hr, Hc, Hall.
    all: rewrite Hrun.
    all: try rewrite <- app_assoc.
    1,3: eexists (_ :: l), w'; (split; [reflexivity|]);
      split; [done|]; split; [done|]; split; [by apply sublist_skip|];
      intros s [->|Hs]%elem_of_cons;
      [exists k, td; simpl; split_and!; try done; by left|].
    3,4: exists l, w'; (split; [reflexivity|]);
      split; [done|]; split; [done|]; split; [by apply sublist_cons|];
      intros s Hs.
    all: destruct (Hall s Hs) as (k' & td' & ? & ? & ? & ? & ?);
      exists k', td'; split_and!; try done; by right.
Qed.

(** The [try] block of [get_token_info], whatever the connection does. *)
Lemma get_token_info_sample_spec (w : world) :
  ∃ sample_info w',
    get_token_info_sample w = (Ok sample_info, w') ∧
    redis w' = redis w ∧ clock w' = clock w ∧
    (length sample_info ≤ 5)%nat ∧
    StronglySorted (fun a b => b ≤ a) (sample_timestamp <$> sample_info) ∧
    ∀ s, s ∈ sample_info ->
      ∃ k td,
        zset (redis w) !! k = Some (sample_timestamp s) ∧
        Redis.get k (clock w) (redis w) = Some td ∧
        token_suffix s = py_suffix 10 (token td) ∧
        sample_worker_id s = worker_id td ∧
        sample_duration s = duration td.
Proof.
  unfold get_token_info_sample, client_zrevrange_top, redis_call.
  destruct (zrevrange_top_spec 5 (zset (redis w))) as (Hlen & Hmem & Hsort).
  destruct (faults w) as [|[|] fs]; cbn -[zrevrange_top].
  2: { eexists [], _. split; [reflexivity|]. simpl.
       split_and!; try done; [lia|constructor|].
       intros s Hs. by apply elem_of_nil in Hs. }
  all: match goal with |- context [sample_loop ?es [] ?w0] =>
         destruct (sample_loop_spec es [] w0)
           as (l & w' & Hrun & Hr & Hc & Hsub & Hall)
       end; cbn -[zrevrange_top] in Hrun, Hr, Hc, Hall.
  all: exists l, w'; split; [exact Hrun|]; split; [done|]; split; [done|].
  all: split;
    [apply sublist_length in Hsub; rewrite !length_fmap in Hsub; lia|].
  all: split; [by eapply StronglySorted_sublist|].
  all: intros s Hs; destruct (Hall s Hs) as (k & td & Hin & Hget & ? & ? & ?);
    exists k, td; split_and!; try done; by apply Hmem.
Qed.

Lemma get_token_count_looks (w : world) :
  ∃ n w1, get_token_count w = (Ok n, w1) ∧
    redis w1 = redis w ∧ clock w1 = clock w.
Proof.
  unfold get_token_count, try_except, client_zcard, redis_call.
  destruct (faults w) as [|[|] fs]; simpl; by eexists _, _.
Qed.

(** X10.  [GET /tokens] only looks: whatever the connection does, it
    answers and the store is left as it is.  Its sample has at most five
    entries, newest first; each describes an index entry whose value can be
    read at that moment, by the last ten characters of its token and its
    age, and index entries whose value has expired are passed over. *)
Theorem get_token_info_only_looks (w : world) :
  ∃ token_count sample_info w',
    get_token_info w = (Ok (token_count, sample_info), w') ∧
    redis w' = redis w ∧ clock w' = clock w ∧
    (length sample_info ≤ 5)%nat ∧
    StronglySorted (fun a b => b ≤ a) (sample_timestamp <$> sample_info) ∧
    ∀ s, s ∈ sample_info ->
      ∃ k td,
        zset (redis w) !! k = Some (sample_timestamp s) ∧
        Redis.get k (clock w) (redis w) = Some td ∧
        token_suffix s = py_suffix 10 (token td) ∧
        sample_worker_id s = worker_id td ∧
        sample_duration s = duration td.
Proof.
  unfold get_token_info, mbind, py_mbind, py_bind.
  destruct (get_token_count_looks w) as (n & w1 & -> & Hr1 & Hc1).
  destruct (get_token_info_sample_spec w1)
    as (l & w' & -> & Hr & Hc & Hlen & Hsort & Hall).
  exists n, l, w'. simpl. rewrite <- Hr1, <- Hc1.
  split_and!; try done; congruence.
Qed.

End StoreMoreFacts.

(** ** The consumer script *)

Module ConsumerFacts.
Import Redis RedisFacts RestTokenManager StoreFacts StoreMoreFacts Consumer.

(** The consumer pops as the server does and keeps the token of the
    record. *)
Lemma get_one_token_server (w : world) :
  get_one_token w =
    (match (get_newest_token w).1 with
     | Ok r => Ok (token <$> r)
     | Raise e => Raise e
     end, (get_newest_token w).2).
Proof.
  unfold get_one_token, get_newest_token, get_newest_token_try, try_except,
    mbind, py_mbind, py_bind, client_zpopmax, client_get, client_delete,
    redis_call, zpopmax.
  destruct (faults w) as [|[|] [|[|] [|[|] fs]]]; simpl;
    destruct (zmax (zset (redis w))) as [[k sc]|]; simpl; try done;
    destruct (get k (clock w) _) as [td|]; simpl; done.
Qed.

Lemma get_newest_token_returns (w : world) :
  ∃ r w', get_newest_token w = (Ok r, w').
Proof.
  unfold get_newest_token, try_except.
  destruct (get_newest_token_try w) as [[r|e] w']; by eexists _, _.
Qed.

Lemma get_one_token_times_pops (count : nat) :
  ∀ w : world,
    get_one_token_times count w =
      (match (pop_tokens (replicate count 0) w).1 with
       | Ok rs => Ok (fmap (M:=list) (fmap (M:=option) token) rs)
       | Raise e => Raise e
       end, (pop_tokens (replicate count 0) w).2).
Proof.
  induction count as [|count IH]; intros w; simpl; [done|].
  unfold mbind, py_mbind, py_bind, modify. rewrite tick_0.
  rewrite get_one_token_server.
  destruct (get_newest_token_returns w) as (r & w1 & ->). simpl.
  rewrite IH.
  by destruct (pop_tokens (replicate count 0) w1) as [[rs|e] w2].
Qed.

Lemma total_replicate_0 (n : nat) : total (replicate n 0) = 0.
Proof. induction n as [|n IH]; [done|]. unfold total in *. simpl. by rewrite IH. Qed.

Lemma omap_truthy_tokens (out : list token_data) (n : nat) :
  omap OnDemandTokenServer.truthy_str
    (fmap (M:=list) (fmap (M:=option) token) ((Some <$> out) ++ replicate n None))%list =
  filter (fun s => s ≠ "") (token <$> out).
Proof.
  induction out as [|td out IH]; simpl.
  - induction n as [|n IHn]; [done|]. exact IHn.
  - rewrite filter_cons. destruct (String.eqb_spec (token td) "") as [He|He].
    + rewrite decide_False by (intros Hne; by apply Hne). exact IH.
    + rewrite decide_True by done. f_equal. exact IH.
Qed.

(** X11.  [get_one_token] of the consumer script is the server's
    [get_newest_token] followed by taking the token out of the record:
    whatever the connection does, neither raises, the script returns a
    token exactly when the server's method would return a record, and both
    leave the store in the same state.  So the script and [GET /token]
    take records from the same stock. *)
Theorem consumer_pops_like_the_server (w : world) :
  ∃ r w',
    get_newest_token w = (Ok r, w') ∧
    get_one_token w = (Ok (token <$> r), w').
Proof.
  destruct (get_newest_token_returns w) as (r & w' & Hrun).
  exists r, w'. split; [done|].
  rewrite get_one_token_server. by rewrite Hrun.
Qed.

(** X12.  A batch of the consumer script, asked for at least one token
    while the connection holds and every indexed value is alive: every
    possible run returns, as a list in some order, the non-empty tokens of
    the [min count size] newest records: the records taken are removed
    from the store, every other record stays, and every record that stays
    is older than every record taken. *)
Theorem get_tokens_concurrent_takes_newest (count T : Z) (w : world) :
  0 < count -> calm w -> coherent T (redis w) -> clock w < T ->
  (∃ r w', get_tokens_concurrent count w r w') ∧
  ∀ r w',
    get_tokens_concurrent count w r w' ->
    ∃ out tokens,
      r = Ok tokens ∧
      tokens ≡ₚ filter (fun s => s ≠ "") (token <$> out) ∧
      length out = (Z.to_nat count `min` size (zset (redis w)))%nat ∧
      StronglySorted (fun a b => timestamp b < timestamp a) out ∧
      (∀ td, td ∈ out -> stored (redis w) td ∧ ¬ stored (redis w') td) ∧
      (∀ td, stored (redis w) td -> td ∈ out ∨ stored (redis w') td) ∧
      (∀ td td', td ∈ out -> stored (redis w') td' ->
         timestamp td' < timestamp td) ∧
      size (zset (redis w')) = (size (zset (redis w)) - length out)%nat.
Proof.
  intros Hcount Hcalm Hcoh Hclock.
  assert (Hnn : Forall (fun d => 0 ≤ d) (replicate (Z.to_nat count) 0))
    by by apply Forall_replicate.
  assert (Htot : clock w + total (replicate (Z.to_nat count) 0) < T)
    by (rewrite total_replicate_0; lia).
  destruct (pop_tokens_coherent T (replicate (Z.to_nat count) 0) w)
    as (out & w1 & Hpop & Hlen & Hsort & Hst & Hsize & Hrest); try done.
  rewrite length_replicate in Hpop, Hlen.
  destruct (pop_tokens_leaves_older T _ _ _ _ Hcalm Hcoh Hnn Htot Hpop)
    as [_ Hold].
  assert (Hrun : get_one_token_times (Z.to_nat count) w =
            (Ok (fmap (M:=list) (fmap (M:=option) token) ((Some <$> out) ++
                   replicate (Z.to_nat count - length out) None))%list, w1)).
  { rewrite get_one_token_times_pops. by rewrite Hpop. }
  assert (Hin : ∀ td, td ∈ out ->
            Some td ∈ ((Some <$> out) ++
              replicate (Z.to_nat count - length out) None)%list).
  { intros td Htd. apply elem_of_app. left.
    apply list_elem_of_fmap. by exists td. }
  unfold get_tokens_concurrent. destruct (decide (count ≤ 0)); [lia|]. split.
  - eexists (Ok _), w1. eexists _, _. split; [exact Hrun|]. split; [done|].
    reflexivity.
  - intros r w' (rs & tokens & Hrun' & -> & Hperm).
    rewrite Hrun in Hrun'. injection Hrun' as <- <-.
    exists out, tokens. rewrite omap_truthy_tokens in Hperm.
    split_and!; try done.
    + intros td Htd. split; [by apply Hst|].
      intros Hleft. pose proof (Hold td td (Hin td Htd) Hleft). lia.
    + intros td td' Htd Hleft. by apply (Hold td td' (Hin td Htd)).
Qed.

Lemma get_tokens_concurrent_takes_newest_witness :
  let w := (add_tokens sample_adds (init 106 [])).2 in
  (size (zset (redis w)) = 3%nat ∧
   ∃ w', get_tokens_concurrent 2 w
           (Ok ["P1_eyJ0eXAiOiJKV1QiLCJhbGciOiJIUzI1NiJ9.ccc";
                "P1_eyJ0eXAiOiJKV1QiLCJhbGciOiJIUzI1NiJ9.bbb"]) w') ∧
  (∃ r w', get_tokens_concurrent 2 w r w') ∧
  ∀ r w',
    get_tokens_concurrent 2 w r w' ->
    ∃ out tokens,
      r = Ok tokens ∧
      tokens ≡ₚ filter (fun s => s ≠ "") (token <$> out) ∧
      length out = (Z.to_nat 2 `min` size (zset (redis w)))%nat ∧
      StronglySorted (fun a b => timestamp b < timestamp a) out ∧
      (∀ td, td ∈ out -> stored (redis w) td ∧ ¬ stored (redis w') td) ∧
      (∀ td, stored (redis w) td -> td ∈ out ∨ stored (redis w') td) ∧
      (∀ td td', td ∈ out -> stored (redis w') td' ->
         timestamp td' < timestamp td) ∧
      size (zset (redis w')) = (size (zset (redis w)) - length out)%nat.
Proof.
  intros w. split.
  { split; [by vm_compute|]. eexists. unfold get_tokens_concurrent.
    rewrite decide_False by lia. eexists _, _.
    split; [vm_compute; reflexivity|]. split; [reflexivity|].
    apply Permutation_swap. }
  apply (get_tokens_concurrent_takes_newest 2 200 w);
    [lia|reflexivity| |by vm_compute].
  destruct (add_tokens_coherent 200 sample_adds (init 106 []))
    as (w1 & Hrun & _ & _ & _ & Hcoh & _).
  - reflexivity.
  - reflexivity.
  - apply coherent_empty.
  - repeat constructor; simpl; lia.
  - by vm_compute.
  - apply (bool_decide_unpack _). vm_compute. reflexivity.
  - intros c k _. simpl. by rewrite lookup_empty.
  - unfold w. by rewrite Hrun.
Defined.

End ConsumerFacts.

(** ** Stopping and restarting the pool *)

Module PoolMoreFacts.
Import WorkerPool PoolFacts PoolRuns.

Lemma set_events_spec (es : list event_id) :
  ∀ m : manager,
    ∃ m',
      set_events es m = (Ok tt, m') ∧
      max_workers m' = max_workers m ∧
      workers_running m' = workers_running m ∧
      executor m' = executor m ∧
      worker_shutdown_events m' = worker_shutdown_events m ∧
      generation_active m' = generation_active m ∧
      length (events m') = length (events m) ∧
      (∀ e, e ∈ es -> (e < length (events m))%nat ->
         events m' !! e = Some true) ∧
      (∀ e, e ∉ es -> events m' !! e = events m !! e) ∧
      (∀ e, events m !! e = Some true -> events m' !! e = Some true).
Proof.
  induction es as [|e es IH]; intros m; simpl.
  - exists m. split_and!; try done. intros e He. by apply elem_of_nil in He.
  - unfold mbind, py_mbind, py_bind, event_set, modify.
    match goal with |- context [set_events es ?m1] =>
      destruct (IH m1) as (m' & -> & ? & ? & ? & ? & ? & Hlen & Hset & Hrest & Hmono)
    end.
    simpl in *. rewrite length_insert in Hlen, Hset.
    exists m'. split_and!; try done.
    + intros e' [->|He']%elem_of_cons Hlt; [|by apply Hset].
      apply Hmono. by apply list_lookup_insert_eq.
    + intros e' [Hne He']%not_elem_of_cons.
      rewrite Hrest by done. by apply list_lookup_insert_ne.
    + intros e' He'. apply Hmono.
      destruct (decide (e = e')) as [->|Hne].
      * apply list_lookup_insert_eq. by eapply lookup_lt_Some.
      * by rewrite list_lookup_insert_ne.
Qed.

(** What [stop_token_generation] does to an active pool. *)
Lemma stop_token_generation_active (m : manager) :
  generation_active m = true ->
  ∃ m',
    stop_token_generation m = (Ok (true, "Token generation stopped"), m') ∧
    generation_active m' = false ∧
    max_workers m' = max_workers m ∧
    workers_running m' = workers_running m ∧
    executor m' = executor m ∧
    worker_shutdown_events m' = worker_shutdown_events m ∧
    length (events m') = length (events m) ∧
    (∀ e, e ∈ worker_shutdown_events m -> (e < length (events m))%nat ->
       events m' !! e = Some true) ∧
    (∀ e, e ∉ worker_shutdown_events m -> events m' !! e = events m !! e).
Proof.
  intros Ha.
  unfold stop_token_generation, mbind, py_mbind, py_bind, gets, modify.
  rewrite Ha. simpl.
  match goal with |- context [set_events ?es ?m1] =>
    destruct (set_events_spec es m1)
      as (m' & -> & ? & ? & ? & ? & ? & ? & Hset & Hrest & _)
  end.
  simpl in *. exists m'. by split_and!.
Qed.

(** What [start_token_generation] does to an inactive pool, for every
    argument. *)
Lemma start_token_generation_any (workers : option Z) (m : manager) :
  generation_active m = false ->
  let n := workers_or workers (max_workers m) in
  start_token_generation workers m =
    (Ok (true, "Started " +:+ show_Z n +:+ " workers"),
     mk_manager n (workers_running m)
       (mk_thread_pool (pool_size (executor m)) (running (executor m))
          (work_queue (executor m) ++
           ((fun i => mk_task (Z.of_nat i + 1) (length (events m) + i)%nat)
              <$> seq 0 (Z.to_nat n)))%list)
       (seq (length (events m)) (Z.to_nat n)) true
       (events m ++ replicate (Z.to_nat n) false)%list).
Proof.
  intros Ha n.
  unfold start_token_generation, mbind, py_mbind, py_bind, gets, modify.
  rewrite Ha. cbn -[workers_or new_events submit_workers show_Z seq Z.to_nat].
  fold n. rewrite new_events_spec.
  cbn -[workers_or new_events submit_workers show_Z seq Z.to_nat].
  rewrite submit_workers_spec;
    cbn -[workers_or new_events submit_workers show_Z seq Z.to_nat].
  - do 3 f_equal. f_equal. apply list_fmap_ext. intros j i Hj.
    apply lookup_seq in Hj as [-> Hlt]. f_equal. by rewrite seq_nth.
  - rewrite length_seq. apply Forall_seq. lia.
Qed.

(** X13.  Stopping an active pool clears the flag and sets the shutdown
    event of every worker of the last start, and that is all: no other
    event changes, the counter is left to the workers, and the executor is
    not touched, so calls that still wait in its queue stay there. *)
Theorem stop_signals_workers_keeps_queue (m : manager) :
  generation_active m = true -> allocated m ->
  ∃ m',
    stop_token_generation m = (Ok (true, "Token generation stopped"), m') ∧
    generation_active m' = false ∧
    (∀ e, e ∈ worker_shutdown_events m -> events m' !! e = Some true) ∧
    (∀ e, e ∉ worker_shutdown_events m -> events m' !! e = events m !! e) ∧
    executor m' = executor m ∧
    workers_running m' = workers_running m ∧
    worker_shutdown_events m' = worker_shutdown_events m ∧
    max_workers m' = max_workers m.
Proof.
  intros Ha Halloc.
  destruct (stop_token_generation_active m Ha)
    as (m' & Hrun & ? & ? & ? & ? & ? & ? & Hset & Hrest).
  exists m'. split_and!; try done.
  intros e He. apply Hset; [done|].
  unfold allocated in Halloc. rewrite Forall_forall in Halloc. by apply Halloc.
Qed.

Lemma stop_signals_workers_keeps_queue_witness :
  ∃ m',
    stop_token_generation started_two =
      (Ok (true, "Token generation stopped"), m') ∧
    generation_active m' = false ∧
    (∀ e, e ∈ worker_shutdown_events started_two ->
       events m' !! e = Some true) ∧
    (∀ e, e ∉ worker_shutdown_events started_two ->
       events m' !! e = events started_two !! e) ∧
    executor m' = executor started_two ∧
    workers_running m' = workers_running started_two ∧
    worker_shutdown_events m' = worker_shutdown_events started_two ∧
    max_workers m' = max_workers started_two.
Proof.
  apply (stop_signals_workers_keeps_queue started_two); [reflexivity|].
  unfold allocated. vm_compute. repeat constructor.
Defined.

(** X14.  Stop followed by a new start: the workers of the first start
    keep their events, all set, and the [n] new workers get [n] new
    events, all unset and different from every earlier one.  The executor
    is the same one: what ran goes on running and the new calls queue up
    behind those that still waited. *)
Theorem restart_uses_fresh_events (n : Z) (m : manager) :
  generation_active m = true -> allocated m -> 0 < n ->
  ∃ m1 m2,
    stop_token_generation m = (Ok (true, "Token generation stopped"), m1) ∧
    start_token_generation (Some n) m1 =
      (Ok (true, "Started " +:+ show_Z n +:+ " workers"), m2) ∧
    generation_active m2 = true ∧
    length (worker_shutdown_events m2) = Z.to_nat n ∧
    NoDup (worker_shutdown_events m2) ∧
    (∀ e, e ∈ worker_shutdown_events m -> events m2 !! e = Some true) ∧
    (∀ e, e ∈ worker_shutdown_events m2 ->
       events m2 !! e = Some false ∧ e ∉ worker_shutdown_events m) ∧
    running (executor m2) = running (executor m) ∧
    work_queue (executor m2) =
      (work_queue (executor m) ++
       ((fun i => mk_task (Z.of_nat i + 1) (length (events m) + i)%nat)
          <$> seq 0 (Z.to_nat n)))%list.
Proof.
  intros Ha Halloc Hn.
  destruct (stop_token_generation_active m Ha)
    as (m1 & Hstop & Ha1 & Hmax1 & Hrun1 & Hex1 & Hev1 & Hlen1 & Hset & Hrest).
  pose proof (start_token_generation_any (Some n) m1 Ha1) as Hstart.
  assert (Hw : workers_or (Some n) (max_workers m1) = n).
  { unfold workers_or. destruct (n =? 0) eqn:H0; [|done].
    apply Z.eqb_eq in H0. lia. }
  cbv zeta in Hstart. rewrite Hw in Hstart.
  unfold allocated in Halloc. rewrite Forall_forall in Halloc.
  eexists m1, _. split; [done|]. split; [exact Hstart|].
  cbn [generation_active worker_shutdown_events events executor running
       work_queue].
  rewrite Hex1, Hlen1. split_and!; try done.
  - by rewrite length_seq.
  - apply NoDup_seq.
  - intros e He. rewrite lookup_app_l by (rewrite Hlen1; by apply Halloc).
    apply Hset; [done|by apply Halloc].
  - intros e He. apply elem_of_seq in He. split.
    + rewrite lookup_app_r by lia.
      apply lookup_replicate_2. lia.
    + intros Hold. apply Halloc in Hold. lia.
Qed.

Lemma restart_uses_fresh_events_witness :
  ∃ m1 m2,
    stop_token_generation started_two =
      (Ok (true, "Token generation stopped"), m1) ∧
    start_token_generation (Some 4) m1 =
      (Ok (true, "Started " +:+ show_Z 4 +:+ " workers"), m2) ∧
    generation_active m2 = true ∧
    length (worker_shutdown_events m2) = Z.to_nat 4 ∧
    NoDup (worker_shutdown_events m2) ∧
    (∀ e, e ∈ worker_shutdown_events started_two ->
       events m2 !! e = Some true) ∧
    (∀ e, e ∈ worker_shutdown_events m2 ->
       events m2 !! e = Some false ∧ e ∉ worker_shutdown_events started_two) ∧
    running (executor m2) = running (executor started_two) ∧
    work_queue (executor m2) =
      (work_queue (executor started_two) ++
       ((fun i => mk_task (Z.of_nat i + 1)
                    (length (events started_two) + i)%nat)
          <$> seq 0 (Z.to_nat 4)))%list.
Proof.
  apply (restart_uses_fresh_events 4 started_two); [reflexivity| |lia].
  unfold allocated. vm_compute. repeat constructor.
Defined.

(** *** What holds in every state of a run *)

Lemma step_counted (m m' : manager) : step m m' -> counted m -> counted m'.
Proof.
  unfold counted. destruct 1 as [m t q Hq Hfree|m r1 t r2 Hr]; simpl; intros ->.
  - rewrite length_app. simpl. lia.
  - rewrite Hr. rewrite !length_app. simpl. lia.
Qed.

Lemma move_invariant (m m' : manager) :
  move m m' ->
  counted m ∧ bounded m ∧ allocated m ->
  (counted m' ∧ bounded m' ∧ allocated m') ∧
  pool_size (executor m') = pool_size (executor m).
Proof.
  unfold counted, bounded, allocated.
  intros [m0 workers r m1 Hrun|m0 r m1 Hrun|m0 m1 Hstep] (Hc & Hb & Ha).
  - destruct (generation_active m0) eqn:Hact.
    + unfold start_token_generation, mbind, py_mbind, py_bind, gets in Hrun.
      rewrite Hact in Hrun. by injection Hrun as <- <-.
    + rewrite start_token_generation_any in Hrun by done.
      injection Hrun as <- <-. simpl. split_and!; try done.
      apply Forall_seq. intros j Hj. rewrite length_app, length_replicate. lia.
  - destruct (generation_active m0) eqn:Hact.
    + destruct (stop_token_generation_active m0 Hact)
        as (m2 & Hrun' & ? & ? & Hwr & Hex & Hev & Hlen & _).
      rewrite Hrun' in Hrun. injection Hrun as <- <-.
      rewrite Hwr, Hex, Hev, Hlen. by split_and!.
    + unfold stop_token_generation, mbind, py_mbind, py_bind, gets in Hrun.
      rewrite Hact in Hrun. by injection Hrun as <- <-.
  - split; [|by apply step_pool_size]. split_and!.
    + by apply (step_counted m0).
    + by apply (step_bounded m0).
    + by destruct Hstep.
Qed.

(** X15.  In every state that a newly constructed manager can get to,
    through calls of start and stop with any arguments and steps of the
    executor's threads, [workers_running] is the number of [token_worker]
    calls under way, the executor has its three threads, and so
    [workers_running] lies between 0 and 3. *)
Theorem workers_running_counts_at_most_three (m : manager) :
  reachable m ->
  workers_running m = Z.of_nat (length (running (executor m))) ∧
  pool_size (executor m) = 3 ∧
  0 ≤ workers_running m ≤ 3 ∧
  allocated m.
Proof.
  unfold reachable. intros Hreach.
  assert (Hinv : (counted m ∧ bounded m ∧ allocated m) ∧
                 pool_size (executor m) = 3).
  { revert m Hreach.
    apply (rtc_ind_r (fun m => (counted m ∧ bounded m ∧ allocated m) ∧
                               pool_size (executor m) = 3)).
    - unfold counted, bounded, allocated. simpl. split_and!; try done.
    - intros m1 m2 _ Hmove [Hinv Hsz].
      destruct (move_invariant _ _ Hmove Hinv) as [Hinv' Hsz'].
      split; [done|]. by rewrite Hsz'. }
  destruct Hinv as [(Hc & Hb & Ha) Hsz]. unfold counted, bounded in *.
  split_and!; try done; lia.
Qed.

Lemma workers_running_counts_at_most_three_witness :
  workers_running started_two =
    Z.of_nat (length (running (executor started_two))) ∧
  pool_size (executor started_two) = 3 ∧
  0 ≤ workers_running started_two ≤ 3 ∧
  allocated started_two.
Proof.
  apply (workers_running_counts_at_most_three started_two).
  eapply rtc_l; [|apply rtc_refl].
  by eapply (move_start init (Some 2)).
Defined.

End PoolMoreFacts.

(** ** The on-demand server over time *)

Module OnDemandMoreFacts.
Import OnDemandTokenServer OnDemandFacts OnDemandRuns.

Lemma restart_browser_ends : ends restart_browser.
Proof. unfold restart_browser. through_calls ends_leaf'. Qed.

(** X16.  [restart_browser] returns whenever the widget shows up in the
    long run, and a call that returns does not raise and returns the ready
    flag it leaves behind.  It quits the driver there is, clears the flag
    and starts exactly one new driver, also when the session was in order,
    and solves nothing; when it returns [True] the server has a driver and
    the keepalive timer starts anew. *)
Theorem restart_browser_starts_one_driver (w : world) :
  (widget_shows w -> is_Some (restart_browser w)) ∧
  ∀ r w',
    restart_browser w = Some (r, w') ->
    r = Ok (browser_ready w') ∧
    inits w' = S (inits w) ∧ solves w' = solves w ∧
    clock w ≤ clock w' ∧
    (∃ rest,
       trace w' =
         (trace w ++ (if driver w is Some _ then [Call CallQuit] else []) ++
          [WriteReady false; Call CallDriver] ++ rest)%list) ∧
    (browser_ready w' = true ->
       is_Some (driver w') ∧ last_keepalive w' = clock w').
Proof.
  split.
  { intros Hw. by apply ends_is_Some; [apply restart_browser_ends|]. }
  intros r w' H. unfold restart_browser in H. rewrite bind_gets in H.
  set (w0 := set_driver None (set_browser_ready false
               (if driver w is Some _ then record_call CallQuit w else w))).
  assert (H0 : solves w0 = solves w ∧ inits w0 = inits w ∧ clock w0 = clock w ∧
               trace w0 =
                 (trace w ++ (if driver w is Some _ then [Call CallQuit] else []) ++
                  [WriteReady false])%list).
  { unfold w0. change (solves (set_driver None ?x)) with (solves x).
    change (inits (set_driver None ?x)) with (inits x).
    rewrite solves_set_browser_ready, inits_set_browser_ready.
    destruct (driver w); simpl; [|done].
    rewrite solves_record_call, inits_record_call. simpl.
    rewrite <-app_assoc. done. }
  destruct H0 as (Hs & Hi & Hc & Ht).
  assert (Hrun : (_ ← _initialize_browser; gets browser_ready) w0 = Some (r, w')).
  { destruct (driver w); exact H. }
  clear H.
  apply bind_inv in Hrun as [([] & w1 & Hinit & Hget)|(e & Hinit & _)];
    apply initialize_browser_spec in Hinit
      as (Hok & Hl & Hs1 & Hi1 & [rest Ht1] & _ & Hready); [|done].
  injection Hget as <- <-.
  destruct Hl as (Hc1 & _).
  split_and!; try done; try congruence; try lia.
  exists rest. rewrite Ht1, Ht, <-!app_assoc. done.
Qed.

Lemma restart_browser_starts_one_driver_witness :
  let w := session two_empty in
  widget_shows w ∧ is_Some (restart_browser w) ∧
  ∀ r w',
    restart_browser w = Some (r, w') ->
    r = Ok (browser_ready w') ∧
    inits w' = S (inits w) ∧ solves w' = solves w ∧
    clock w ≤ clock w' ∧
    (∃ rest,
       trace w' =
         (trace w ++ [Call CallQuit] ++
          [WriteReady false; Call CallDriver] ++ rest)%list) ∧
    (browser_ready w' = true ->
       is_Some (driver w') ∧ last_keepalive w' = clock w').
Proof.
  intros w. assert (Hw : widget_shows w) by reflexivity.
  split; [done|].
  split; [exact (proj1 (restart_browser_starts_one_driver w) Hw)|].
  exact (proj2 (restart_browser_starts_one_driver w)).
Defined.

(** A restart of a session that was in order. *)
Example restart_browser_run :
  let w := session two_empty in
  ∃ w',
    restart_browser w = Some (Ok true, w') ∧
    trace w' =
      (trace w ++
       [Call CallQuit; WriteReady false; Call CallDriver; Call CallGet;
        Call CallSetScriptTimeout; Call CallSleep; Call CallIsElementPresent;
        WriteReady true])%list.
Proof. eexists. split; [vm_compute; reflexivity|reflexivity]. Qed.

Lemma advance_advance (a b : Z) (w : world) :
  advance b (advance a w) = advance (a + b) w.
Proof. unfold advance. simpl. f_equal. lia. Qed.

Lemma advance_0 (w : world) : advance 0 w = w.
Proof. destruct w. unfold advance. simpl. f_equal. lia. Qed.

(** X17.  Requests and keepalive rounds that follow one another on a
    session that is not ready leave it not ready: every request fails with
    [NotReady], no driver call is made and nothing changes except the
    time.  Neither [get_token] nor the keepalive loop starts an
    initialization on its own; that is left to [restart_browser]. *)
Theorem not_ready_session_stays_not_ready (acts : list activity) (w : world) :
  browser_ready w = false ->
  serve acts w =
    Some
      (replicate (length (filter (fun a => a = Request) acts))
         (Raise NotReady),
       advance (rounds_time acts) w).
Proof.
  revert w. unfold rounds_time.
  induction acts as [|[|] acts IH]; intros w Hr; cbn [serve].
  - rewrite !filter_nil. simpl. by rewrite advance_0.
  - rewrite get_token_not_ready by done. rewrite IH by done.
    rewrite !filter_cons. repeat case_decide; done.
  - rewrite keepalive_round_not_ready by done.
    rewrite IH by done. rewrite advance_advance.
    rewrite !filter_cons. repeat case_decide; try done.
    cbn [length]. do 3 f_equal. lia.
Qed.

Lemma not_ready_session_stays_not_ready_witness :
  serve [Request; Round; Round; Request] (fresh 1000 two_empty) =
    Some
      (replicate
         (length (filter (fun a => a = Request)
                    [Request; Round; Round; Request]))
         (Raise NotReady),
       advance (rounds_time [Request; Round; Round; Request])
         (fresh 1000 two_empty)).
Proof.
  apply (not_ready_session_stays_not_ready
           [Request; Round; Round; Request] (fresh 1000 two_empty)).
  reflexivity.
Defined.

Lemma keepalive_rounds_early (n : nat) :
  ∀ w : world,
    clock w + 30 * Z.of_nat n - last_keepalive w < keepalive_interval w ->
    keepalive_rounds n w = Some (Ok tt, advance (30 * Z.of_nat n) w).
Proof.
  induction n as [|n IH]; intros w Hearly; cbn [keepalive_rounds].
  - by rewrite advance_0.
  - rewrite bind_Ok with (a := tt) (w1 := advance 30 w)
      by (apply keepalive_round_early; lia).
    rewrite IH by (simpl; lia). rewrite advance_advance. do 3 f_equal. lia.
Qed.

Lemma keepalive_rounds_ends (n : nat) : ends (keepalive_rounds n).
Proof.
  induction n as [|n IH]; cbn [keepalive_rounds]; [apply ends_ret|].
  apply ends_bind; [apply keepalive_round_ends|by intros _].
Qed.

(** The round at which the interval is over solves once. *)
Lemma keepalive_rounds_due (n : nat) :
  ∀ (w w' : world) (r : outcome unit),
    clock w + 30 * Z.of_nat n - last_keepalive w < keepalive_interval w ->
    browser_ready w = true -> is_Some (driver w) ->
    keepalive_interval w ≤ clock w + 30 * Z.of_nat (S n) - last_keepalive w ->
    keepalive_rounds (S n) w = Some (r, w') ->
    r = Ok tt ∧ solves w' = S (solves w).
Proof.
  induction n as [|n IH]; intros w w' r Hearly Hr Hd Hdue H.
  - cbn [keepalive_rounds] in H.
    apply bind_inv in H as [([] & w1 & Hround & Hret)|(e & Hround & _)];
      apply keepalive_round_due in Hround
        as (Hok & tok & dur & wg & Hgen & _ & Hn); try done; try lia.
    injection Hret as <- <-. split; [done|].
    apply generate_token_spec in Hgen as (? & ? & _ & _ & Hs & _).
    destruct (Hs Hr Hd) as [Hs' _]. unfold no_solve in Hn.
    change (solves (advance 30 w)) with (solves w) in Hs'. congruence.
  - change (keepalive_rounds (S (S n)) w) with
      ((_ ← keepalive_round; keepalive_rounds (S n)) w) in H.
    rewrite bind_Ok with (a := tt) (w1 := advance 30 w) in H
      by (apply keepalive_round_early; lia).
    apply IH in H; try done; simpl; lia.
Qed.

(** X18.  The keepalive loop leaves the browser alone while the interval
    since the last keepalive is not over: [n] rounds that end before that
    only let [30 * n] seconds pass.  When the interval is over at the next
    round, on a ready session with a driver, the [n + 1] rounds come to an
    end whenever the widget shows up in the long run, and when they do,
    exactly one solve was made and nothing was raised. *)
Theorem keepalive_waits_for_interval (n : nat) (w : world) :
  clock w + 30 * Z.of_nat n - last_keepalive w < keepalive_interval w ->
  keepalive_rounds n w = Some (Ok tt, advance (30 * Z.of_nat n) w) ∧
  (browser_ready w = true -> is_Some (driver w) ->
   keepalive_interval w ≤ clock w + 30 * Z.of_nat (S n) - last_keepalive w ->
   (widget_shows w -> is_Some (keepalive_rounds (S n) w)) ∧
   ∀ r w',
     keepalive_rounds (S n) w = Some (r, w') ->
     r = Ok tt ∧ solves w' = S (solves w)).
Proof.
  intros Hearly. split; [by apply keepalive_rounds_early|].
  intros Hr Hd Hdue. split.
  - intros Hw. by apply ends_is_Some; [apply keepalive_rounds_ends|].
  - intros r w'. by apply keepalive_rounds_due.
Qed.

Lemma keepalive_waits_for_interval_witness :
  let w := session two_empty in
  keepalive_rounds 9 w = Some (Ok tt, advance (30 * Z.of_nat 9) w) ∧
  is_Some (keepalive_rounds 10 w) ∧
  ∀ r w',
    keepalive_rounds 10 w = Some (r, w') ->
    r = Ok tt ∧ solves w' = S (solves w).
Proof.
  intros w.
  assert (Hearly : clock w + 30 * Z.of_nat 9 - last_keepalive w
                   < keepalive_interval w) by (vm_compute; reflexivity).
  assert (Hr : browser_ready w = true) by reflexivity.
  assert (Hd : is_Some (driver w)) by (vm_compute; eauto).
  assert (Hdue : keepalive_interval w
                 ≤ clock w + 30 * Z.of_nat 10 - last_keepalive w)
    by (vm_compute; discriminate).
  assert (Hw : widget_shows w) by reflexivity.
  split; [exact (proj1 (keepalive_waits_for_interval 9 w Hearly))|].
  split.
  - exact (proj1 (proj2 (keepalive_waits_for_interval 9 w Hearly) Hr Hd Hdue) Hw).
  - exact (proj2 (proj2 (keepalive_waits_for_interval 9 w Hearly) Hr Hd Hdue)).
Defined.

(** [get_token] ends in one of three ways. *)
Lemma get_token_results (w w' : world) (r : outcome token_result) :
  get_token w = Some (r, w') ->
  (∃ res, r = Ok res) ∨ r = Raise NotReady ∨ r = Raise GenerationFailed.
Proof.
  intros H. destruct (browser_ready w) eqn:Hr.
  2: { rewrite get_token_not_ready in H by done. injection H as <- _. auto. }
  unfold get_token in H. rewrite bind_gets, Hr in H. cbn [negb] in H.
  apply bind_inv in H as [([tok1 d1] & w1 & Hgen & H)|(e & Hgen & _)];
    [|by apply generate_token_spec in Hgen as (? & ? & ? & _)].
  apply bind_inv in H as [([tok2 d2] & w3 & H & Hend)|(e & H & _)].
  - destruct tok2 as [tok2|].
    + unfold time_time in Hend.
      rewrite bind_gets, bind_modify, bind_gets in Hend.
      injection Hend as <- _. eauto.
    + injection Hend as <- _. auto.
  - destruct tok1 as [tok1|]; [done|].
    apply bind_inv in H as [([] & w2 & _ & H)|(e' & H & _)].
    + by apply generate_token_spec in H as (? & ? & ? & _).
    + by destruct (refresh_page_spec w1) as (? & Hrf & _); rewrite Hrf in H.
Qed.

Lemma get_token_route_ends : ends get_token_route.
Proof.
  unfold get_token_route.
  through_calls ltac:(first [apply get_token_ends|ends_leaf']).
Qed.

(** X19.  [GET /token] of the on-demand server returns when [get_token]
    does (so whenever the widget shows up in the long run), in the state
    [get_token] ends in; it passes a result through unchanged and turns
    every failure of [get_token] into status 500: a request on a session
    that is not ready is answered at once with 500 and the text of
    [NotReady], one whose solves give nothing with 500 and the text of
    [GenerationFailed]; no other error can come out. *)
Theorem get_token_route_failures_are_500 (w : world) :
  (widget_shows w -> is_Some (get_token_route w)) ∧
  (get_token w = None -> get_token_route w = None) ∧
  (∀ r0 w',
     get_token w = Some (r0, w') ->
     match r0 with
     | Ok res => get_token_route w = Some (Ok res, w')
     | Raise e =>
         get_token_route w =
           Some (Raise (HTTPException 500
                          ("Failed to generate token: " +:+ exn_str e)),
                 w') ∧
         (e = NotReady ∨ e = GenerationFailed)
     end) ∧
  (browser_ready w = false ->
   get_token_route w =
     Some (Raise (HTTPException 500
                    "Failed to generate token: Browser not ready"),
           w)).
Proof.
  split_and!.
  - intros Hw. by apply ends_is_Some; [apply get_token_route_ends|].
  - intros H. unfold get_token_route. pyp_unfold. by rewrite H.
  - intros r0 w' H. pose proof (get_token_results _ _ _ H) as Hcases.
    unfold get_token_route. pyp_unfold. rewrite H.
    destruct Hcases as [[[tok dur ts] ->]|[->| ->]]; simpl; auto.
  - intros Hr. unfold get_token_route. pyp_unfold.
    by rewrite get_token_not_ready.
Qed.

Lemma get_token_route_failures_are_500_witness :
  let w := session two_empty in
  widget_shows w ∧ is_Some (get_token_route w) ∧
  (∀ r0 w',
     get_token w = Some (r0, w') ->
     match r0 with
     | Ok res => get_token_route w = Some (Ok res, w')
     | Raise e =>
         get_token_route w =
           Some (Raise (HTTPException 500
                          ("Failed to generate token: " +:+ exn_str e)),
                 w') ∧
         (e = NotReady ∨ e = GenerationFailed)
     end).
Proof.
  intros w. assert (Hw : widget_shows w) by reflexivity.
  split; [done|].
  destruct (get_token_route_failures_are_500 w) as (Hends & _ & Hres & _).
  split; [exact (Hends Hw)|exact Hres].
Defined.

(** The route on the sample sessions: a token after the retry, and the two
    failures. *)
Example get_token_route_runs :
  (∃ w', get_token_route (session empty_then_token) =
           Some (Ok (mk_token_result "P1_token" 2 1007), w')) ∧
  (∃ w', get_token_route (session two_empty) =
           Some (Raise (HTTPException 500
                          "Failed to generate token: Failed to generate token after retry"),
                 w')) ∧
  get_token_route (fresh 1000 two_empty) =
    Some (Raise (HTTPException 500
                   "Failed to generate token: Browser not ready"),
          fresh 1000 two_empty) ∧
  get_token_route (session error_then_no_widget) = None.
Proof.
  split_and!; try (eexists; vm_compute; reflexivity); reflexivity.
Qed.

End OnDemandMoreFacts.

(** ** One worker of the pool *)

Module TokenWorkerFacts.
Import Redis RedisFacts RestTokenManager StoreFacts StoreMoreFacts.
Import TokenWorker.

Ltac tw_unfold :=
  unfold TokenWorker.time_time, TokenWorker.time_sleep;
  unfold mbind, py_mbind, py_bind, mret, py_mret, py_ret, gets, modify,
    raise, try_except.

(** *** Steady runs *)

Lemma steady_refl (w : world) : steady w w.
Proof. by unfold steady. Qed.

Lemma steady_trans (w1 w2 w3 : world) :
  steady w1 w2 -> steady w2 w3 -> steady w1 w3.
Proof.
  unfold steady. intros (? & ? & ?) (? & ? & ?).
  split_and!; [congruence|lia|auto].
Qed.

Lemma keeps_ret {A} (a : A) : keeps (mret a : py world A).
Proof. intros w r w' [= _ <-]. apply steady_refl. Qed.

Lemma keeps_raise {A} (e : exn) : keeps (raise e : py world A).
Proof. intros w r w' [= _ <-]. apply steady_refl. Qed.

Lemma keeps_gets {A} (f : world -> A) : keeps (gets f).
Proof. intros w r w' [= _ <-]. apply steady_refl. Qed.

Lemma keeps_modify (f : world -> world) :
  (∀ w, steady w (f w)) -> keeps (modify f).
Proof. intros Hf w r w' [= _ <-]. apply Hf. Qed.

Lemma keeps_bind {A B} (m : py world A) (f : A -> py world B) :
  keeps m -> (∀ a, keeps (f a)) -> keeps (m ≫= f).
Proof.
  intros Hm Hf w r w'. unfold mbind, py_mbind, py_bind.
  destruct (m w) as [[a|e] w1] eqn:Hrun; intros Hrest.
  - eapply steady_trans; [by eapply Hm|by eapply Hf].
  - injection Hrest as _ <-. by eapply Hm.
Qed.

Lemma keeps_try_except {A} (m : py world A) (h : exn -> py world A) :
  keeps m -> (∀ e, keeps (h e)) -> keeps (try_except m h).
Proof.
  intros Hm Hh w r w'. unfold try_except.
  destruct (m w) as [[a|e] w1] eqn:Hrun; intros Hrest.
  - injection Hrest as _ <-. by eapply Hm.
  - eapply steady_trans; [by eapply Hm|by eapply Hh].
Qed.

Lemma keeps_lift_store {A} (m : py RestTokenManager.world A) :
  keeps (lift_store m).
Proof.
  intros w r w'. unfold lift_store.
  destruct (m (store w)) as [r0 s]. intros [= _ <-]. by unfold steady.
Qed.

Lemma keeps_shutdown_event_is_set : keeps shutdown_event_is_set.
Proof.
  intros w r w'. unfold shutdown_event_is_set.
  destruct (shutdown_after w) as [|n] eqn:Hn; intros [= _ <-].
  - apply steady_refl.
  - unfold steady. simpl. split_and!; [done|lia|done].
Qed.

Lemma keeps_Driver : keeps Driver.
Proof.
  intros w r w'. unfold Driver.
  destruct (new_driver (env w)) as [|[e|] ?]; intros [= _ <-];
    by unfold steady.
Qed.

Lemma keeps_driver_get : keeps driver_get.
Proof.
  intros w r w'. unfold driver_get.
  destruct (page_loads (env w)) as [|[e|] ?]; intros [= _ <-];
    by unfold steady.
Qed.

Lemma keeps_driver_execute_script : keeps driver_execute_script.
Proof.
  intros w r w'. unfold driver_execute_script.
  destruct (next_script (env w)).1; intros [= _ <-]; by unfold steady.
Qed.

Lemma keeps_driver_quit : keeps driver_quit.
Proof.
  intros w r w' Hrun.
  assert (w' = after_quit w) as ->.
  { unfold driver_quit in Hrun.
    destruct (quits (env w)) as [|[e|] qs]; by injection Hrun. }
  unfold steady, quits_succeed. simpl. split_and!; [done|lia|].
  destruct (quits (env w)) as [|q qs]; simpl; [done|].
  by intros [_ ?]%Forall_cons.
Qed.

Lemma safe_driver_quit : safe driver_quit.
Proof.
  intros w r w'. unfold driver_quit, quits_succeed.
  destruct (quits (env w)) as [|[e|] qs]; intros [= <- _]; eauto.
  by intros [? _]%Forall_cons.
Qed.

Create HintDb keeps.

#[local] Hint Resolve keeps_ret keeps_raise keeps_gets keeps_lift_store
  keeps_shutdown_event_is_set keeps_Driver keeps_driver_get
  keeps_driver_execute_script keeps_driver_quit steady_refl : keeps.

Ltac keeps_step :=
  first
    [ apply keeps_bind; [|intros ?]
    | apply keeps_try_except; [|intros ?]
    | apply keeps_modify; intros ?; by unfold steady
    | solve [eauto with keeps]
    | match goal with
      | |- keeps (match ?x with _ => _ end) => destruct x
      | |- keeps (if ?x then _ else _) => destruct x
      | |- keeps (let '(_, _) := ?x in _) => destruct x
      end ].

Lemma keeps_generate_token : keeps generate_token.
Proof. unfold generate_token, TokenWorker.time_time. repeat keeps_step. Qed.

Lemma keeps_quit_and_forget : keeps quit_and_forget.
Proof. unfold quit_and_forget. repeat keeps_step. Qed.

Lemma keeps_time_sleep (d : Z) : keeps (TokenWorker.time_sleep d).
Proof. unfold TokenWorker.time_sleep. repeat keeps_step. Qed.

Lemma keeps_token_worker_try (worker_id : Z) :
  keeps (token_worker_try worker_id).
Proof.
  unfold token_worker_try, driver_set_script_timeout, driver_sleep,
    TokenWorker.time_time.
  pose proof keeps_generate_token. pose proof keeps_quit_and_forget.
  repeat keeps_step.
Qed.

Lemma keeps_token_worker_round (worker_id : Z) :
  keeps (token_worker_round worker_id).
Proof.
  unfold token_worker_round.
  pose proof (keeps_token_worker_try worker_id).
  pose proof keeps_quit_and_forget. pose proof keeps_time_sleep.
  repeat keeps_step.
Qed.

Lemma safe_quit_and_forget : safe quit_and_forget.
Proof.
  intros w r w' Hrun Hq.
  unfold quit_and_forget, mbind, py_mbind, py_bind, mret, py_mret, py_ret,
    gets, modify in Hrun.
  destruct (driver w); cbv beta in Hrun; [|injection Hrun as <- _; eauto].
  destruct (driver_quit w) as [[[]|e] w1] eqn:Hquit.
  - injection Hrun as <- _. eauto.
  - destruct (safe_driver_quit _ _ _ Hquit Hq) as [a Ha]. done.
Qed.

Lemma safe_token_worker_round (worker_id : Z) :
  safe (token_worker_round worker_id).
Proof.
  intros w r w' Hrun Hq. unfold token_worker_round, try_except in Hrun.
  destruct (token_worker_try worker_id w) as [[f|e] w1] eqn:Htry.
  { injection Hrun as <- _. eauto. }
  apply keeps_token_worker_try in Htry as (_ & _ & Hq1).
  specialize (Hq1 Hq).
  unfold mbind, py_mbind, py_bind, mret, py_mret, py_ret,
    TokenWorker.time_sleep, modify in Hrun.
  destruct (is_TimeoutException e); cbv beta in Hrun;
    destruct (quit_and_forget w1) as [[[]|e'] w2] eqn:Hquit;
    try (injection Hrun as <- _; by eauto);
    destruct (safe_quit_and_forget _ _ _ Hquit Hq1) as [a Ha]; done.
Qed.

Lemma break_bind {A} (m : py world A) (f : A -> py world flow) :
  (∀ a, break_means_set (f a)) -> break_means_set (m ≫= f).
Proof.
  intros Hf w w'. unfold mbind, py_mbind, py_bind.
  destruct (m w) as [[a|e] w1]; [apply Hf|done].
Qed.

Lemma break_try_except (m : py world flow) (h : exn -> py world flow) :
  break_means_set m -> (∀ e, break_means_set (h e)) ->
  break_means_set (try_except m h).
Proof.
  intros Hm Hh w w'. unfold try_except.
  destruct (m w) as [[a|e] w1] eqn:Hrun; [|apply Hh].
  intros [= -> <-]. by apply (Hm w).
Qed.

Lemma break_next : break_means_set (mret Next).
Proof. by intros w w'. Qed.

Lemma break_token_worker_round (worker_id : Z) :
  break_means_set (token_worker_round worker_id).
Proof.
  unfold token_worker_round. apply break_try_except.
  - unfold token_worker_try.
    apply break_bind; intros d. apply break_bind; intros [].
    intros w w'. unfold mbind at 1, py_mbind, py_bind, shutdown_event_is_set.
    destruct (shutdown_after w) as [|k] eqn:Hk.
    + by intros [= <-].
    + apply break_bind; intros [token duration].
      do 2 (apply break_bind; intros []). apply break_next.
  - intros e. destruct (is_TimeoutException e);
      repeat (apply break_bind; intros []); apply break_next.
Qed.

Lemma token_worker_loop_S (worker_id : Z) (n : nat) (w : world) :
  token_worker_loop (S n) worker_id w =
    match shutdown_after w with
    | O => (Ok tt, w)
    | S k =>
        match token_worker_round worker_id (set_shutdown_after k w) with
        | (Ok Next, w2) => token_worker_loop n worker_id w2
        | (Ok Break, w2) => (Ok tt, w2)
        | (Raise e, w2) => (Raise e, w2)
        end
    end.
Proof.
  cbn [token_worker_loop].
  unfold mbind, py_mbind, py_bind, shutdown_event_is_set.
  destruct (shutdown_after w) as [|k]; [done|].
  by destruct (token_worker_round worker_id (set_shutdown_after k w))
    as [[[|]|e] w2].
Qed.

(** [S (shutdown_after w)] rounds are enough: more rounds change
    nothing. *)
Lemma token_worker_loop_enough (worker_id : Z) (n extra : nat) :
  ∀ w : world,
    (shutdown_after w ≤ n)%nat ->
    token_worker_loop (S n + extra) worker_id w =
    token_worker_loop (S n) worker_id w.
Proof.
  induction n as [|n IH]; intros w Hle.
  - change (1 + extra)%nat with (S extra). rewrite !token_worker_loop_S.
    destruct (shutdown_after w); [done|lia].
  - change (S (S n) + extra)%nat with (S (S n + extra)).
    rewrite (token_worker_loop_S _ (S n + extra)).
    rewrite (token_worker_loop_S _ (S n)).
    destruct (shutdown_after w) as [|k] eqn:Hk; [done|].
    destruct (token_worker_round worker_id (set_shutdown_after k w))
      as [[[|]|e] w2] eqn:Hround; try done.
    apply IH. apply keeps_token_worker_round in Hround as (_ & Hle2 & _).
    simpl in Hle2. lia.
Qed.

Lemma token_worker_loop_spec (worker_id : Z) (n : nat) :
  ∀ (w w' : world) (r : outcome unit),
    token_worker_loop n worker_id w = (r, w') ->
    steady w w' ∧
    (quits_succeed w -> r = Ok tt) ∧
    (r = Ok tt -> (shutdown_after w < n)%nat -> shutdown_after w' = 0%nat).
Proof.
  induction n as [|n IH]; intros w w' r.
  - intros [= <- <-]. split_and!; [apply steady_refl|done|lia].
  - rewrite token_worker_loop_S.
    destruct (shutdown_after w) as [|k] eqn:Hk.
    { intros [= <- <-]. split_and!; [apply steady_refl|done|done]. }
    assert (Hst1 : steady w (set_shutdown_after k w)).
    { unfold steady. simpl. split_and!; [done|lia|done]. }
    destruct (token_worker_round worker_id (set_shutdown_after k w))
      as [[[|]|e] w2] eqn:Hround;
      pose proof (keeps_token_worker_round _ _ _ _ Hround) as Hst2.
    + intros Hloop. destruct (IH _ _ _ Hloop) as (Hst3 & Hok & Hzero).
      split_and!.
      * eauto using steady_trans.
      * intros Hq. apply Hok. apply Hst2. by apply Hst1.
      * intros Hr Hn. apply Hzero; [done|].
        destruct Hst2 as (_ & Hle2 & _). simpl in Hle2. lia.
    + intros [= <- <-]. split_and!; [eauto using steady_trans|done|].
      intros _ _. by eapply break_token_worker_round.
    + intros [= <- <-]. split_and!; [eauto using steady_trans| |done].
      intros Hq.
      destruct (safe_token_worker_round _ _ _ _ Hround) as [a Ha]; [|done].
      by apply Hst1.
Qed.

(** *** Solves and reads of the event *)

Lemma thrifty_ret {A} (a : A) : thrifty (mret a : py world A).
Proof. by intros w r w' [= _ <-]. Qed.

Lemma thrifty_gets {A} (f : world -> A) : thrifty (gets f).
Proof. by intros w r w' [= _ <-]. Qed.

Lemma thrifty_modify (f : world -> world) :
  (∀ w, trace (f w) = trace w ∧ shutdown_after (f w) = shutdown_after w) ->
  thrifty (modify f).
Proof.
  intros Hf w r w' [= _ <-]. destruct (Hf w) as [Ht Hn].
  unfold solves. rewrite Ht, Hn. done.
Qed.

Lemma thrifty_bind {A B} (m : py world A) (f : A -> py world B) :
  thrifty m -> (∀ a, thrifty (f a)) -> thrifty (m ≫= f).
Proof.
  intros Hm Hf w r w'. unfold mbind, py_mbind, py_bind.
  destruct (m w) as [[a|e] w1] eqn:Hrun; intros Hrest.
  - apply Hm in Hrun. apply Hf in Hrest. lia.
  - injection Hrest as _ <-. by eapply Hm.
Qed.

Lemma thrifty_try_except {A} (m : py world A) (h : exn -> py world A) :
  thrifty m -> (∀ e, thrifty (h e)) -> thrifty (try_except m h).
Proof.
  intros Hm Hh w r w'. unfold try_except.
  destruct (m w) as [[a|e] w1] eqn:Hrun; intros Hrest.
  - injection Hrest as _ <-. by eapply Hm.
  - apply Hm in Hrun. apply Hh in Hrest. lia.
Qed.

Lemma thrifty_lift_store {A} (m : py RestTokenManager.world A) :
  thrifty (lift_store m).
Proof.
  intros w r w'. unfold lift_store.
  destruct (m (store w)) as [r0 s]. by intros [= _ <-].
Qed.

Lemma solves_snoc (w w' : world) (c : driver_call) :
  trace w' = (trace w ++ [c])%list ->
  c ≠ OnDemandTokenServer.CallExecuteScript ->
  solves w' = solves w.
Proof.
  intros Ht Hc. unfold solves. rewrite Ht, filter_app, length_app.
  rewrite filter_cons, filter_nil. rewrite decide_False by done.
  simpl. by rewrite Nat.add_0_r.
Qed.

Lemma thrifty_Driver : thrifty Driver.
Proof.
  intros w r w'. unfold Driver.
  destruct (new_driver (env w)) as [|[e|] ?]; intros [= _ <-];
    by rewrite (solves_snoc w _ OnDemandTokenServer.CallDriver).
Qed.

Lemma thrifty_driver_get : thrifty driver_get.
Proof.
  intros w r w'. unfold driver_get.
  destruct (page_loads (env w)) as [|[e|] ?]; intros [= _ <-];
    by rewrite (solves_snoc w _ OnDemandTokenServer.CallGet).
Qed.

Lemma thrifty_driver_quit : thrifty driver_quit.
Proof.
  intros w r w'. unfold driver_quit.
  destruct (quits (env w)) as [|[e|] ?]; intros [= _ <-];
    by rewrite (solves_snoc w _ OnDemandTokenServer.CallQuit).
Qed.

Lemma thrifty_record_call (c : driver_call) (g : world -> world) :
  c ≠ OnDemandTokenServer.CallExecuteScript ->
  (∀ w, trace (g w) = (trace w ++ [c])%list ∧
        shutdown_after (g w) = shutdown_after w) ->
  thrifty (modify g).
Proof.
  intros Hc Hg w r w' [= _ <-]. destruct (Hg w) as [Ht Hn].
  by rewrite (solves_snoc w _ c), Hn.
Qed.

Lemma thrifty_quit_and_forget : thrifty quit_and_forget.
Proof.
  unfold quit_and_forget.
  apply thrifty_bind; [apply thrifty_gets|]. intros [d|]; [|apply thrifty_ret].
  apply thrifty_bind; [apply thrifty_driver_quit|]. intros _.
  by apply thrifty_modify.
Qed.

(** [generate_token] makes one solve and reads no event. *)
Lemma generate_token_one_solve (w w' : world) (r : outcome (option string * Z)) :
  generate_token w = (r, w') ->
  solves w' = S (solves w) ∧ shutdown_after w' = shutdown_after w.
Proof.
  unfold generate_token, driver_execute_script. tw_unfold.
  assert (Hs : solves (after_script w) = S (solves w)).
  { unfold solves.
    change (trace (after_script w))
      with (trace w ++ [OnDemandTokenServer.CallExecuteScript])%list.
    rewrite filter_app, length_app, filter_cons, filter_nil.
    rewrite decide_True by done. simpl. by rewrite Nat.add_1_r. }
  destruct (next_script (env w)).1; intros [= _ <-]; by rewrite Hs.
Qed.

(** A round reads the event before it solves. *)
Lemma thrifty_token_worker_try (worker_id : Z) :
  thrifty (token_worker_try worker_id).
Proof.
  unfold token_worker_try.
  apply thrifty_bind; [apply thrifty_gets|]. intros d.
  apply thrifty_bind.
  { destruct d; [apply thrifty_ret|].
    apply thrifty_bind; [apply thrifty_Driver|]. intros d'.
    apply thrifty_bind; [by apply thrifty_modify|]. intros _.
    apply thrifty_bind; [apply thrifty_driver_get|]. intros _.
    apply thrifty_bind.
    - by apply (thrifty_record_call OnDemandTokenServer.CallSetScriptTimeout).
    - intros _.
      by apply (thrifty_record_call OnDemandTokenServer.CallSleep). }
  intros _ w r w'. unfold mbind at 1, py_mbind, py_bind, shutdown_event_is_set.
  destruct (shutdown_after w) as [|k] eqn:Hk.
  { intros [= _ <-]. lia. }
  unfold mbind at 1, py_mbind, py_bind.
  destruct (generate_token (set_shutdown_after k w)) as [[[tok dur]|e] w1] eqn:Hgen;
    apply generate_token_one_solve in Hgen as [Hs Hn];
    change (solves (set_shutdown_after k w)) with (solves w) in Hs;
    simpl in Hn.
  2: { intros [= _ <-]. lia. }
  intros Hrest.
  assert (Hth : thrifty
            (_ ← (if tok is Some tok0 then
                    now ← TokenWorker.time_time;
                    lift_store
                      (add_token
                         (mk_token_data tok0 dur worker_id now "rest_api"))
                  else quit_and_forget);
             _ ← (if BROWSER_RESTART_THRESHOLD <? dur then quit_and_forget
                  else mret tt);
             mret Next)).
  { apply thrifty_bind.
    - destruct tok; [|apply thrifty_quit_and_forget].
      apply thrifty_bind; [apply thrifty_gets|]. intros now.
      apply thrifty_lift_store.
    - intros _. apply thrifty_bind; [|intros _; apply thrifty_ret].
      destruct (BROWSER_RESTART_THRESHOLD <? dur);
        [apply thrifty_quit_and_forget|apply thrifty_ret]. }
  apply Hth in Hrest. lia.
Qed.

Lemma thrifty_token_worker_round (worker_id : Z) :
  thrifty (token_worker_round worker_id).
Proof.
  unfold token_worker_round.
  apply thrifty_try_except; [apply thrifty_token_worker_try|].
  intros e. destruct (is_TimeoutException e).
  - apply thrifty_bind; [apply thrifty_quit_and_forget|].
    intros _. apply thrifty_ret.
  - apply thrifty_bind; [apply thrifty_quit_and_forget|]. intros _.
    apply thrifty_bind; [by apply thrifty_modify|].
    intros _. apply thrifty_ret.
Qed.

Lemma thrifty_token_worker_loop (worker_id : Z) (n : nat) :
  thrifty (token_worker_loop n worker_id).
Proof.
  induction n as [|n IH]; intros w r w'.
  - by intros [= _ <-].
  - rewrite token_worker_loop_S.
    destruct (shutdown_after w) as [|k] eqn:Hk.
    { intros [= _ <-]. lia. }
    destruct (token_worker_round worker_id (set_shutdown_after k w))
      as [[[|]|e] w2] eqn:Hround;
      apply thrifty_token_worker_round in Hround;
      change (solves (set_shutdown_after k w)) with (solves w) in Hround;
      simpl in Hround.
    + intros Hloop%IH. lia.
    + intros [= _ <-]. lia.
    + intros [= _ <-]. lia.
Qed.

(** X20.  Take a call of [token_worker] whose shutdown event is set after
    [n] reads of it.  The call ends and leaves [workers_running] as it
    found it, however it ends; if it still refers to a driver then, the
    last thing it did to the browser was to quit it.  It returns normally
    only once it has seen its event set, and it does return normally when
    no [quit] raises, whatever else the browser and the store do.  It
    makes at most [n] solves. *)
Theorem token_worker_balances_counter (worker_id : Z) (n : nat) (w : world) :
  shutdown_after w = n ->
  ∃ r w',
    token_worker worker_id w = (r, w') ∧
    workers_running w' = workers_running w ∧
    (is_Some (driver w') ->
     last (trace w') = Some OnDemandTokenServer.CallQuit) ∧
    (r = Ok tt -> shutdown_after w' = 0%nat) ∧
    (quits_succeed w -> r = Ok tt) ∧
    (solves w' ≤ solves w + n)%nat.
Proof.
  intros Hn.
  unfold token_worker, try_finally.
  unfold mbind at 1 2, py_mbind, py_bind, modify.
  set (w0 := set_driver None (add_workers_running 1 w)).
  unfold mbind at 1, py_mbind, py_bind, gets.
  destruct (token_worker_loop (S (shutdown_after w0)) worker_id w0)
    as [r1 w1] eqn:Hloop.
  pose proof (thrifty_token_worker_loop _ _ _ _ _ Hloop) as Hth.
  change (solves w0) with (solves w) in Hth.
  change (shutdown_after w0) with (shutdown_after w) in Hth.
  rewrite Hn in Hth.
  destruct (token_worker_loop_spec _ _ _ _ _ Hloop)
    as ((Hrun & _ & Hq) & Hok & Hzero).
  unfold mbind, py_mbind, py_bind, gets, modify.
  cbn [driver add_workers_running].
  destruct (driver w1) as [d|] eqn:Hd.
  - destruct (driver_quit (add_workers_running (-1) w1))
      as [[[]|e] w2] eqn:Hquit;
      pose proof (keeps_driver_quit _ _ _ Hquit) as (Hrun2 & _ & _);
      pose proof (thrifty_driver_quit _ _ _ Hquit) as Hth2;
      change (solves (add_workers_running (-1) w1)) with (solves w1) in Hth2;
      change (shutdown_after (add_workers_running (-1) w1))
        with (shutdown_after w1) in Hth2;
      assert (w2 = after_quit (add_workers_running (-1) w1)) as ->
        by (unfold driver_quit in Hquit;
            destruct (quits (env (add_workers_running (-1) w1)))
              as [|[?|] ?]; by injection Hquit).
    + eexists _, _. split; [reflexivity|]. simpl in *. split_and!.
      * rewrite Hrun. lia.
      * intros _. by rewrite last_snoc.
      * intros ->. apply Hzero; [done|lia].
      * intros Hqs. by apply Hok.
      * lia.
    + eexists _, _. split; [reflexivity|]. simpl in *. split_and!.
      * rewrite Hrun. lia.
      * intros _. by rewrite last_snoc.
      * done.
      * intros Hqs.
        destruct (safe_driver_quit _ _ _ Hquit) as [a Ha]; [|done].
        by apply Hq.
      * lia.
  - eexists _, _. split; [reflexivity|]. simpl in *. split_and!.
    + rewrite Hrun. lia.
    + rewrite Hd. by intros [? ?].
    + intros ->. apply Hzero; [done|lia].
    + intros Hqs. by apply Hok.
    + change (solves (add_workers_running (-1) w1)) with (solves w1). lia.
Qed.

(** A worker whose event is set after four reads makes two rounds and
    two solves: the first gives a token, the second times out. *)
Lemma token_worker_balances_counter_witness :
  shutdown_after (sample_queued 4) = 4%nat ∧
  ∃ r w',
    token_worker 7 (sample_queued 4) = (r, w') ∧
    workers_running w' = workers_running (sample_queued 4) ∧
    (is_Some (driver w') ->
     last (trace w') = Some OnDemandTokenServer.CallQuit) ∧
    (r = Ok tt -> shutdown_after w' = 0%nat) ∧
    (quits_succeed (sample_queued 4) -> r = Ok tt) ∧
    (solves w' ≤ solves (sample_queued 4) + 4)%nat.
Proof.
  split; [reflexivity|].
  apply (token_worker_balances_counter 7 4 (sample_queued 4)). reflexivity.
Defined.

(** *** What one round does *)

Lemma worker_generate_token_spec (w : world) :
  generate_token w =
    (Ok (match (next_script (env w)).1 with
         | OnDemandTokenServer.JsValue v => OnDemandTokenServer.truthy_str v
         | OnDemandTokenServer.JsError => None
         end, Z.of_nat (next_script (env w)).2),
     after_script w).
Proof.
  assert (Hclock : clock (store (after_script w)) =
            clock (store w) + Z.of_nat (next_script (env w)).2) by done.
  unfold generate_token, driver_execute_script. tw_unfold.
  destruct (next_script (env w)) as [[v|] dt]; cbn [fst snd] in *;
    by rewrite Hclock, Z.add_simpl_l.
Qed.

Lemma truthy_str_Some (tok : string) :
  tok ≠ "" -> OnDemandTokenServer.truthy_str (Some tok) = Some tok.
Proof.
  intros Hne. unfold OnDemandTokenServer.truthy_str.
  by destruct (String.eqb_spec tok "").
Qed.

Lemma quit_and_forget_Some (w : world) (d : nat) :
  driver w = Some d -> succeeds (quits (env w)) ->
  quit_and_forget w = (Ok tt, set_driver None (after_quit w)).
Proof.
  intros Hd Hq. unfold quit_and_forget, driver_quit. tw_unfold. rewrite Hd.
  unfold succeeds in Hq. by destruct (quits (env w)) as [|[e|] qs].
Qed.

Lemma quits_succeed_succeeds (w : world) :
  quits_succeed w -> succeeds (quits (env w)).
Proof.
  unfold quits_succeed, succeeds.
  destruct (quits (env w)) as [|[e|] qs]; try done.
  by intros [? _]%Forall_cons.
Qed.

(** The round up to the point where the solve is over. *)
Lemma token_worker_try_solve (worker_id : Z) (w : world) (d k : nat) :
  driver w = Some d -> shutdown_after w = S k ->
  token_worker_try worker_id w =
    (let w1 := after_script (set_shutdown_after k w) in
     let duration := Z.of_nat (next_script (env w)).2 in
     _ ← (match (next_script (env w)).1 with
          | OnDemandTokenServer.JsValue v =>
              if OnDemandTokenServer.truthy_str v is Some tok then
                lift_store
                  (add_token (mk_token_data tok duration worker_id
                                (clock (store w1)) "rest_api"))
              else quit_and_forget
          | OnDemandTokenServer.JsError => quit_and_forget
          end);
     _ ← (if BROWSER_RESTART_THRESHOLD <? duration then quit_and_forget
          else mret tt);
     mret Next) (after_script (set_shutdown_after k w)).
Proof.
  intros Hd Hk. unfold token_worker_try.
  unfold mbind at 1 2 3 4, py_mbind, py_bind, gets.
  rewrite Hd. unfold mret at 1, py_mret, py_ret.
  unfold shutdown_event_is_set. rewrite Hk.
  rewrite worker_generate_token_spec.
  change (env (set_shutdown_after k w)) with (env w).
  cbv zeta.
  destruct (next_script (env w)).1 as [v|]; [|done].
  destruct (OnDemandTokenServer.truthy_str v) as [tok|]; [|done].
  unfold mbind at 1 2, py_mbind, py_bind, TokenWorker.time_time, gets.
  done.
Qed.

Lemma after_script_fields (w : world) (k : nat) :
  let w1 := after_script (set_shutdown_after k w) in
  store w1 = tick (Z.of_nat (next_script (env w)).2) (store w) ∧
  driver w1 = driver w ∧
  trace w1 = (trace w ++ [OnDemandTokenServer.CallExecuteScript])%list ∧
  quits (env w1) = quits (env w) ∧
  shutdown_after w1 = k ∧
  workers_running w1 = workers_running w.
Proof. done. Qed.

(** X21.  A round of a worker that has a browser and whose solve returns a
    token (the store answering, no [quit] raising): the record written
    carries the token, the time the solve took, the number of the worker
    and the time at which the solve ended; it is what [add_token] makes of
    it at that time, and the next [get_newest_token] returns it when no
    index entry is newer.  The browser is kept when the solve took at most
    two seconds and is quit and forgotten when it took longer. *)
Theorem solved_token_reaches_consumer
    (worker_id : Z) (w : world) (d k : nat) (tok : string) (dt : nat) :
  driver w = Some d -> shutdown_after w = S k -> solves_next tok dt w ->
  calm (store w) -> 0 < token_expiry (store w) -> quits_succeed w ->
  (∀ key sc, zset (redis (store w)) !! key = Some sc ->
     sc < clock (store w) + Z.of_nat dt) ->
  let td := mk_token_data tok (Z.of_nat dt) worker_id
              (clock (store w) + Z.of_nat dt) "rest_api" in
  ∃ w',
    token_worker_round worker_id w = (Ok Next, w') ∧
    add_token td (tick (Z.of_nat dt) (store w)) = (Ok tt, store w') ∧
    (get_newest_token (store w')).1 = Ok (Some td) ∧
    driver w' = (if 2 <? Z.of_nat dt then None else Some d) ∧
    trace w' =
      (trace w ++ OnDemandTokenServer.CallExecuteScript ::
         (if 2 <? Z.of_nat dt then [OnDemandTokenServer.CallQuit] else []))%list ∧
    shutdown_after w' = k.
Proof.
  intros Hd Hk [Hns Hne] Hcalm Hexp Hq Hnew td.
  unfold token_worker_round, try_except.
  rewrite (token_worker_try_solve _ _ d k) by done.
  destruct (after_script_fields w k) as (Hs1 & Hd1 & Ht1 & Hq1 & Hk1 & _).
  cbv zeta in *.
  set (w1 := after_script (set_shutdown_after k w)) in *.
  rewrite Hns in *. cbn [fst snd] in *.
  rewrite truthy_str_Some by done.
  unfold mbind at 1, py_mbind, py_bind, lift_store.
  rewrite Hs1. cbn [tick clock]. fold td.
  rewrite add_token_calm by done.
  cbn [tick token_expiry clock redis].
  set (s2 := RestTokenManager.mk_world (token_expiry (store w)) _ _ []).
  assert (Hget : (get_newest_token s2).1 = Ok (Some td)).
  { rewrite get_newest_token_calm by done. unfold s2.
    cbn [redis zadd setex zset strings clock].
    rewrite zmax_insert_newest by (intros k' sc Hk' _; by eapply Hnew).
    unfold get, zadd, setex. cbn [strings zset timestamp td].
    rewrite lookup_insert_eq.
    destruct (Z.ltb_spec (clock (store w) + Z.of_nat dt)
                (clock (store w) + Z.of_nat dt + token_expiry (store w)));
      [done|lia]. }
  unfold BROWSER_RESTART_THRESHOLD.
  destruct (2 <? Z.of_nat dt).
  - unfold mbind, py_mbind, py_bind.
    rewrite (quit_and_forget_Some (set_store s2 w1) d);
      [|by rewrite <- Hd|cbn [set_store env]; rewrite Hq1;
        by apply quits_succeed_succeeds].
    exists (set_driver None (after_quit (set_store s2 w1))).
    split_and!; try done.
    cbn [trace set_driver after_quit record_call set_env set_store].
    by rewrite Ht1, <- app_assoc.
  - exists (set_store s2 w1). by split_and!.
Qed.

Lemma solved_token_reaches_consumer_witness :
  let w := sample_worker 3 [] in
  let td := mk_token_data "P1_eyJ0eXAi.0123456789" (Z.of_nat 3) 7
              (clock (store w) + Z.of_nat 3) "rest_api" in
  ∃ w',
    token_worker_round 7 w = (Ok Next, w') ∧
    add_token td (tick (Z.of_nat 3) (store w)) = (Ok tt, store w') ∧
    (get_newest_token (store w')).1 = Ok (Some td) ∧
    driver w' = (if 2 <? Z.of_nat 3 then None else Some 0%nat) ∧
    trace w' =
      (trace w ++ OnDemandTokenServer.CallExecuteScript ::
         (if 2 <? Z.of_nat 3 then [OnDemandTokenServer.CallQuit] else []))%list ∧
    shutdown_after w' = 2%nat.
Proof.
  apply (solved_token_reaches_consumer 7 (sample_worker 3 []) 0 2
           "P1_eyJ0eXAi.0123456789" 3); try reflexivity.
  - split; [reflexivity|done].
  - unfold quits_succeed. simpl. constructor.
  - intros key sc Hkey. simpl in Hkey. by rewrite lookup_empty in Hkey.
Defined.

Lemma quit_and_forget_None (w : world) :
  driver w = None -> quit_and_forget w = (Ok tt, w).
Proof. intros Hd. unfold quit_and_forget. tw_unfold. by rewrite Hd. Qed.

(** X22.  A round whose solve raises or returns nothing (no [quit]
    raising) writes nothing and makes no call to the store; it quits the
    browser once and forgets it, so the next round starts a new one. *)
Theorem failed_solve_drops_browser
    (worker_id : Z) (w : world) (d k dt : nat) :
  driver w = Some d -> shutdown_after w = S k -> fails_next dt w ->
  quits_succeed w ->
  ∃ w',
    token_worker_round worker_id w = (Ok Next, w') ∧
    store w' = tick (Z.of_nat dt) (store w) ∧
    driver w' = None ∧
    trace w' =
      (trace w ++ [OnDemandTokenServer.CallExecuteScript;
                   OnDemandTokenServer.CallQuit])%list ∧
    shutdown_after w' = k ∧
    workers_running w' = workers_running w.
Proof.
  intros Hd Hk [Hdt Hres] Hq.
  unfold token_worker_round, try_except.
  rewrite (token_worker_try_solve _ _ d k) by done.
  destruct (after_script_fields w k) as (Hs1 & Hd1 & Ht1 & Hq1 & Hk1 & Hw1).
  cbv zeta in *.
  set (w1 := after_script (set_shutdown_after k w)) in *.
  rewrite Hdt in *.
  assert (Hquit : quit_and_forget w1 = (Ok tt, set_driver None (after_quit w1))).
  { apply (quit_and_forget_Some w1 d); [by rewrite Hd1|].
    rewrite Hq1. by apply quits_succeed_succeeds. }
  assert (Hrest : ∀ b : bool,
            ((if b then quit_and_forget else mret tt) ≫= λ _, mret Next)
              (set_driver None (after_quit w1)) =
            (Ok Next, set_driver None (after_quit w1))).
  { intros [|]; unfold mbind, py_mbind, py_bind; [|done].
    by rewrite quit_and_forget_None. }
  exists (set_driver None (after_quit w1)).
  split.
  { destruct (next_script (env w)).1 as [v|]; [rewrite Hres|];
      unfold mbind at 1, py_mbind, py_bind; rewrite Hquit;
      by rewrite Hrest. }
  split_and!; try done.
  cbn [trace set_driver after_quit record_call set_env].
  by rewrite Ht1, <- app_assoc.
Qed.

Lemma failed_solve_drops_browser_witness :
  ∃ w',
    token_worker_round 7 sample_failing_worker = (Ok Next, w') ∧
    store w' = tick (Z.of_nat 1) (store sample_failing_worker) ∧
    driver w' = None ∧
    trace w' =
      (trace sample_failing_worker ++
         [OnDemandTokenServer.CallExecuteScript;
          OnDemandTokenServer.CallQuit])%list ∧
    shutdown_after w' = 2%nat ∧
    workers_running w' = workers_running sample_failing_worker.
Proof.
  apply (failed_solve_drops_browser 7 sample_failing_worker 0 2 1);
    try reflexivity.
  - by split.
  - unfold quits_succeed. simpl. constructor.
Defined.

(** What [add_token] raises is never a [TimeoutException]. *)
Lemma add_token_raises (td : token_data) (s s' : RestTokenManager.world)
    (e : exn) :
  add_token td s = (Raise e, s') -> is_TimeoutException e = false.
Proof.
  unfold add_token, client_setex, client_zadd, redis_call,
    mbind, py_mbind, py_bind, gets, raise.
  destruct (token_expiry s <=? 0);
    destruct (faults s) as [|[|] [|[|] fs]]; simpl;
    intros [= <- _]; done.
Qed.

(** X23.  A round whose solve returns a token that the store then fails
    to take: whatever [add_token] raises and wherever it stopped, the
    round swallows the error, quits and forgets the browser, sleeps one
    second and goes on.  The token is not offered to the store again. *)
Theorem store_failure_drops_browser
    (worker_id : Z) (w : world) (d k : nat) (tok : string) (dt : nat)
    (e : exn) (s' : RestTokenManager.world) :
  driver w = Some d -> shutdown_after w = S k -> solves_next tok dt w ->
  quits_succeed w ->
  add_token
    (mk_token_data tok (Z.of_nat dt) worker_id
       (clock (store w) + Z.of_nat dt) "rest_api")
    (tick (Z.of_nat dt) (store w)) = (Raise e, s') ->
  ∃ w',
    token_worker_round worker_id w = (Ok Next, w') ∧
    store w' = tick 1 s' ∧
    driver w' = None ∧
    trace w' =
      (trace w ++ [OnDemandTokenServer.CallExecuteScript;
                   OnDemandTokenServer.CallQuit])%list ∧
    shutdown_after w' = k.
Proof.
  intros Hd Hk [Hns Hne] Hq Hadd.
  unfold token_worker_round, try_except.
  rewrite (token_worker_try_solve _ _ d k) by done.
  destruct (after_script_fields w k) as (Hs1 & Hd1 & Ht1 & Hq1 & Hk1 & _).
  cbv zeta in *.
  set (w1 := after_script (set_shutdown_after k w)) in *.
  rewrite Hns in *. cbn [fst snd] in *.
  rewrite truthy_str_Some by done.
  unfold mbind at 1, py_mbind, py_bind, lift_store.
  rewrite Hs1. cbn [tick clock]. rewrite Hadd.
  rewrite (add_token_raises _ _ _ _ Hadd).
  unfold mbind, py_mbind, py_bind.
  rewrite (quit_and_forget_Some (set_store s' w1) d);
    [|by rewrite <- Hd|cbn [set_store env]; rewrite Hq1;
      by apply quits_succeed_succeeds].
  eexists. split; [reflexivity|]. split_and!; try done.
  cbn [trace set_driver after_quit record_call set_env set_store].
  by rewrite Ht1, <- app_assoc.
Qed.

Lemma store_failure_drops_browser_witness :
  let w := sample_worker 1 [true] in
  ∃ w',
    token_worker_round 7 w = (Ok Next, w') ∧
    store w' = tick 1 (RestTokenManager.mk_world 120 Redis.empty 1001 []) ∧
    driver w' = None ∧
    trace w' =
      (trace w ++ [OnDemandTokenServer.CallExecuteScript;
                   OnDemandTokenServer.CallQuit])%list ∧
    shutdown_after w' = 2%nat.
Proof.
  apply (store_failure_drops_browser 7 (sample_worker 1 [true]) 0 2
           "P1_eyJ0eXAi.0123456789" 1
           (ConnectionError "Error connecting to Redis"));
    try reflexivity.
  - split; [reflexivity|done].
  - unfold quits_succeed. simpl. constructor.
Defined.

(** X24.  A call of [token_worker] that begins when its event is set
    already, as a call does that waited in the executor's queue until
    after the stop, returns at once: no browser is started, the store is
    not touched, and the counter is back where it was. *)
Theorem worker_with_set_event_does_nothing (worker_id : Z) (w : world) :
  shutdown_after w = 0%nat ->
  ∃ w',
    token_worker worker_id w = (Ok tt, w') ∧
    trace w' = trace w ∧ store w' = store w ∧ env w' = env w ∧
    driver w' = None ∧
    workers_running w' = workers_running w.
Proof.
  intros Hk. unfold token_worker, try_finally.
  unfold mbind at 1 2, py_mbind, py_bind, modify.
  unfold mbind at 1, py_mbind, py_bind, gets.
  rewrite token_worker_loop_S.
  cbn [shutdown_after set_driver add_workers_running]. rewrite Hk.
  tw_unfold. cbn [driver add_workers_running].
  eexists. split; [reflexivity|]. cbn. split_and!; try done. lia.
Qed.

Lemma worker_with_set_event_does_nothing_witness :
  ∃ w',
    token_worker 4 (sample_queued 0) = (Ok tt, w') ∧
    trace w' = trace (sample_queued 0) ∧
    store w' = store (sample_queued 0) ∧
    env w' = env (sample_queued 0) ∧
    driver w' = None ∧
    workers_running w' = workers_running (sample_queued 0).
Proof.
  apply (worker_with_set_event_does_nothing 4 (sample_queued 0)).
  reflexivity.
Defined.

(** X25.  A call of [token_worker] whose event is set while it starts its
    browser: the worker has started a driver, loaded the page and slept
    its two seconds when it sees the event, and then only quits the
    driver; it solves nothing and writes nothing. *)
Theorem event_set_during_start_quits_browser (worker_id : Z) (w : world) :
  shutdown_after w = 1%nat ->
  succeeds (new_driver (env w)) -> succeeds (page_loads (env w)) ->
  succeeds (quits (env w)) ->
  ∃ w',
    token_worker worker_id w = (Ok tt, w') ∧
    trace w' =
      (trace w ++ [OnDemandTokenServer.CallDriver;
                   OnDemandTokenServer.CallGet;
                   OnDemandTokenServer.CallSetScriptTimeout;
                   OnDemandTokenServer.CallSleep;
                   OnDemandTokenServer.CallQuit])%list ∧
    store w' = tick 2 (store w) ∧
    scripts (env w') = scripts (env w) ∧
    workers_running w' = workers_running w.
Proof.
  intros Hk Hnew Hload Hquit. unfold token_worker, try_finally.
  unfold mbind at 1 2, py_mbind, py_bind, modify.
  unfold mbind at 1, py_mbind, py_bind, gets.
  rewrite !token_worker_loop_S.
  cbn [shutdown_after set_driver add_workers_running set_shutdown_after].
  rewrite Hk.
  unfold token_worker_round, token_worker_try, try_except, Driver,
    driver_get, driver_set_script_timeout, driver_sleep,
    shutdown_event_is_set, driver_quit.
  tw_unfold.
  cbn [driver env set_shutdown_after record_call set_env set_driver
       new_driver page_loads quits scripts shutdown_after set_store
       add_workers_running trace store workers_running after_quit].
  unfold succeeds in *.
  destruct (new_driver (env w)) as [|[?|] ?]; try done;
    destruct (page_loads (env w)) as [|[?|] ?]; try done;
    destruct (quits (env w)) as [|[?|] ?]; try done;
    (eexists; split; [reflexivity|]);
    cbn; rewrite <- !app_assoc; split_and!; try done; lia.
Qed.

Lemma event_set_during_start_quits_browser_witness :
  ∃ w',
    token_worker 4 (sample_queued 1) = (Ok tt, w') ∧
    trace w' =
      (trace (sample_queued 1) ++
         [OnDemandTokenServer.CallDriver;
          OnDemandTokenServer.CallGet;
          OnDemandTokenServer.CallSetScriptTimeout;
          OnDemandTokenServer.CallSleep;
          OnDemandTokenServer.CallQuit])%list ∧
    store w' = tick 2 (store (sample_queued 1)) ∧
    scripts (env w') = scripts (env (sample_queued 1)) ∧
    workers_running w' = workers_running (sample_queued 1).
Proof.
  apply (event_set_during_start_quits_browser 4 (sample_queued 1));
    reflexivity || exact I.
Defined.

End TokenWorkerFacts.

